(** * IntSet: a set of distinct ints in a dynamic array (IntSet.cpp)

    The C++ class keeps three members: [data] (pointer to a heap array of
    [capacity] ints), [capacity] and [used].  Its methods mutate the object
    and the array it points to, the copy operations allocate fresh arrays,
    and [operator=] compares object addresses.  The embedding therefore
    keeps an explicit store: objects live at addresses, arrays live at
    locations of a heap, and every method is a computation in a
    state-and-failure monad over that store.  Failure ([None]) stands for
    undefined behaviour: reading an unallocated, out-of-range or
    uninitialised cell, writing out of range, using a dead object.

    An [int] is a [Z] in the range [INT_MIN .. INT_MAX] of a 32-bit int.
    Element values are only copied and compared.  The arithmetic is on
    indices and capacities; on a store that satisfies the class invariant
    with capacities that are ints, every index and counter stays between
    -1 and the capacity, so the one expression that can leave the range is
    the growth request [int(1.5 * capacity) + 1] of [add]: it goes through
    [to_int], and a result that is not an int is undefined behaviour.

    One idealisation, on the side of resource exhaustion, which the class
    treats as fatal: [new int[n]] always succeeds for [n >= 0].

    The constant [DEFAULT_CAPACITY] comes from IntSet.h; it is a parameter
    of the methods that use it, and the results that depend on it assume
    [1 <= DEFAULT_CAPACITY]. *)

From Stdlib Require Import ZArith Lia.
From stdpp Require Import gmap list strings pretty.

Open Scope Z_scope.

(** ** The store *)

(** The three data members of [class IntSet]. *)
Record IntSet := mkIntSet { data : positive; capacity : Z; used : Z }.

(** [objs]: the IntSet objects alive, by address.  [heap]: the arrays
    obtained from [new int[n]] and not yet released; a cell is [None] until
    it is first written. *)
Record state := mkState {
  objs : gmap positive IntSet;
  heap : gmap positive (list (option Z))
}.

Definition empty_state : state := mkState ∅ ∅.

(** ** The monad *)

Definition M (A : Type) : Type := state → option (A * state).

Definition ret {A} (a : A) : M A := λ st, Some (a, st).
Definition fail {A} : M A := λ _, None.
Definition bind {A B} (m : M A) (k : A → M B) : M B :=
  λ st, match m st with
        | Some (a, st') => k a st'
        | None => None
        end.

Notation "'do' x <- m ; k" := (bind m (λ x, k))
  (at level 10, x name, m at level 100, k at level 200, only parsing).
Notation "'do' ' pat <- m ; k" := (bind m (λ x, match x with pat => k end))
  (at level 10, pat pattern, m at level 100, k at level 200, only parsing).
Notation "m ;; k" := (bind m (λ _, k))
  (at level 100, k at level 200, right associativity, only parsing).

(** ** Primitive accesses *)

(** Reading the members of [*a]. *)
Definition get_obj (a : positive) : M IntSet :=
  λ st, match objs st !! a with
        | Some o => Some (o, st)
        | None => None
        end.

(** Overwriting the members of the live object [*a]. *)
Definition put_obj (a : positive) (o : IntSet) : M unit :=
  λ st, match objs st !! a with
        | Some _ => Some (tt, mkState (<[a := o]> (objs st)) (heap st))
        | None => None
        end.

Definition set_data (a : positive) (p : positive) : M unit :=
  do o <- get_obj a; put_obj a (mkIntSet p (capacity o) (used o)).
Definition set_capacity (a : positive) (c : Z) : M unit :=
  do o <- get_obj a; put_obj a (mkIntSet (data o) c (used o)).
Definition set_used (a : positive) (u : Z) : M unit :=
  do o <- get_obj a; put_obj a (mkIntSet (data o) (capacity o) u).

(** Storage for a new object, at an address not in use. *)
Definition new_obj (o : IntSet) : M positive :=
  λ st, let a := fresh (dom (objs st)) in
        Some (a, mkState (<[a := o]> (objs st)) (heap st)).

(** The end of the lifetime of the object [*a]. *)
Definition delete_obj (a : positive) : M unit :=
  λ st, match objs st !! a with
        | Some _ => Some (tt, mkState (delete a (objs st)) (heap st))
        | None => None
        end.

(** [new int[n]]: a fresh array of [n] uninitialised cells. *)
Definition new_array (n : Z) : M positive :=
  λ st, if n <? 0 then None
        else let p := fresh (dom (heap st)) in
             Some (p, mkState (objs st)
                              (<[p := replicate (Z.to_nat n) None]> (heap st))).

(** [delete [] p]. *)
Definition delete_array (p : positive) : M unit :=
  λ st, match heap st !! p with
        | Some _ => Some (tt, mkState (objs st) (delete p (heap st)))
        | None => None
        end.

(** [p[i]] as an rvalue. *)
Definition load (p : positive) (i : Z) : M Z :=
  λ st, if i <? 0 then None
        else match heap st !! p with
             | Some cells =>
                 match cells !! Z.to_nat i with
                 | Some (Some x) => Some (x, st)
                 | _ => None
                 end
             | None => None
             end.

(** [p[i] = x]. *)
Definition store (p : positive) (i : Z) (x : Z) : M unit :=
  λ st, if i <? 0 then None
        else match heap st !! p with
             | Some cells =>
                 if i <? Z.of_nat (length cells) then
                   Some (tt, mkState (objs st)
                           (<[p := <[Z.to_nat i := Some x]> cells]> (heap st)))
                 else None
             | None => None
             end.

(** [a.data[i]] as an rvalue, and [a.data[i] = x]. *)
Definition data_at (a : positive) (i : Z) : M Z :=
  do o <- get_obj a; load (data o) i.
Definition data_at_set (a : positive) (i : Z) (x : Z) : M unit :=
  do o <- get_obj a; store (data o) i x.

(** ** Values of type [int] *)

Definition INT_MIN : Z := -2147483648.
Definition INT_MAX : Z := 2147483647.

(** The result of an [int] computation whose mathematical value is [z]:
    signed overflow, and the conversion of a double that no int holds, are
    undefined. *)
Definition to_int (z : Z) : M Z :=
  λ st, if bool_decide (INT_MIN ≤ z ≤ INT_MAX) then Some (z, st) else None.

(** ** Loops *)

(** [for (int i = lo; i < hi; ++i) body], threading an accumulator for the
    locals the body updates.  The bound is evaluated once: no loop of the
    class writes its own bound. *)
Fixpoint for_iter {A} (n : nat) (i : Z) (body : Z → A → M A) (acc : A) : M A :=
  match n with
  | O => ret acc
  | S n' => do acc' <- body i acc; for_iter n' (i + 1) body acc'
  end.

Definition for_ {A} (lo hi : Z) (body : Z → A → M A) (acc : A) : M A :=
  for_iter (Z.to_nat (hi - lo)) lo body acc.

(** The same loop when the body may [return] from the enclosing function:
    the body yields [Some r] to return [r]; [after] is the code that follows
    the loop. *)
Fixpoint for_return_iter {A} (n : nat) (i : Z) (body : Z → M (option A))
    (after : M A) : M A :=
  match n with
  | O => after
  | S n' => do r <- body i;
            match r with
            | Some a => ret a
            | None => for_return_iter n' (i + 1) body after
            end
  end.

Definition for_return {A} (lo hi : Z) (body : Z → M (option A)) (after : M A) : M A :=
  for_return_iter (Z.to_nat (hi - lo)) lo body after.

(** ** The class *)

Section IntSet.

(** [IntSet::DEFAULT_CAPACITY] is declared in IntSet.h. *)
Variable DEFAULT_CAPACITY : Z.

(** [int(1.5 * capacity) + 1]: the product is exact in double precision for
    every int, the conversion truncates toward zero, and both the
    conversion and the addition must yield an int. *)
Definition grown (capacity : Z) : M Z :=
  do t <- to_int (Z.quot (3 * capacity) 2);
  to_int (t + 1).

(** [void IntSet::resize(int new_capacity)] *)
Definition resize (this : positive) (new_capacity : Z) : M unit :=
  do s <- get_obj this;
  let new_capacity := if new_capacity <? used s then used s else new_capacity in
  let new_capacity := if new_capacity <? 1 then DEFAULT_CAPACITY else new_capacity in
  set_capacity this new_capacity;;
  do newData <- new_array new_capacity;
  for_ 0 (used s) (λ i _, do x <- data_at this i; store newData i x) tt;;
  do s <- get_obj this;
  delete_array (data s);;
  set_data this newData.

(** [IntSet::IntSet(int initial_capacity)] *)
Definition IntSet_ctor (initial_capacity : Z) : M positive :=
  let capacity := initial_capacity in
  let capacity := if capacity <? 1 then DEFAULT_CAPACITY else capacity in
  do p <- new_array capacity;
  new_obj (mkIntSet p capacity 0).

(** [IntSet::IntSet(const IntSet& src)] *)
Definition IntSet_copy (src : positive) : M positive :=
  do s <- get_obj src;
  do p <- new_array (capacity s);
  do this <- new_obj (mkIntSet p (capacity s) (used s));
  for_ 0 (used s) (λ i _, do x <- data_at src i; data_at_set this i x) tt;;
  ret this.

(** [IntSet::~IntSet()] *)
Definition IntSet_dtor (this : positive) : M unit :=
  do s <- get_obj this;
  delete_array (data s);;
  delete_obj this.

(** [IntSet& IntSet::operator=(const IntSet& rhs)] *)
Definition assign (this rhs : positive) : M positive :=
  if negb (Pos.eqb this rhs) then
    do r <- get_obj rhs;
    do newData <- new_array (capacity r);
    for_ 0 (used r) (λ i _, do x <- data_at rhs i; store newData i x) tt;;
    do s <- get_obj this;
    delete_array (data s);;
    set_data this newData;;
    do r <- get_obj rhs;
    set_capacity this (capacity r);;
    do r <- get_obj rhs;
    set_used this (used r);;
    ret this
  else ret this.

(** [int IntSet::size() const] *)
Definition size (this : positive) : M Z :=
  do s <- get_obj this; ret (used s).

(** [bool IntSet::isEmpty() const] *)
Definition isEmpty (this : positive) : M bool :=
  do s <- get_obj this; ret (used s =? 0).

(** [bool IntSet::contains(int anInt) const] *)
Definition contains (this : positive) (anInt : Z) : M bool :=
  do s <- get_obj this;
  if 0 <? used s then
    for_return 0 (used s)
      (λ i, do x <- data_at this i;
            if x =? anInt then ret (Some true) else ret None)
      (ret false)
  else ret false.

(** [bool IntSet::isSubsetOf(const IntSet& otherIntSet) const] *)
Definition isSubsetOf (this otherIntSet : positive) : M bool :=
  do e <- isEmpty this;
  if e then ret true
  else
    do n <- size this;
    for_return 0 n
      (λ i, do x <- data_at this i;
            do c <- contains otherIntSet x;
            if negb c then ret (Some false) else ret None)
      (ret true).

(** [void IntSet::DumpData(ostream& out) const]; the stream is the text
    written to it so far. *)
Definition DumpData (this : positive) (out : string) : M string :=
  do s <- get_obj this;
  if 0 <? used s then
    do x <- data_at this 0;
    let out := out +:+ pretty x in
    for_ 1 (used s)
      (λ i out, do x <- data_at this i; ret (out +:+ "  " +:+ pretty x)) out
  else ret out.

(** [bool IntSet::add(int anInt)] *)
Definition add (this : positive) (anInt : Z) : M bool :=
  do c <- contains this anInt;
  if negb c then
    do s <- get_obj this;
    (if capacity s <=? used s then
       do new_capacity <- grown (capacity s); resize this new_capacity
     else ret tt);;
    do s <- get_obj this;
    data_at_set this (used s) anInt;;
    do s <- get_obj this;
    set_used this (used s + 1);;
    ret true
  else ret false.

(** [bool IntSet::remove(int anInt)].  The outer [for] has no braces: its
    body is the [if] alone, and [used--; return true;] follow the loop. *)
Definition remove (this : positive) (anInt : Z) : M bool :=
  do c <- contains this anInt;
  if c then
    do s <- get_obj this;
    for_ 0 (used s)
      (λ i _, do x <- data_at this i;
              if x =? anInt then
                for_ (i + 1) (used s)
                  (λ j _, do y <- data_at this j; data_at_set this (j - 1) y) tt
              else ret tt) tt;;
    do s <- get_obj this;
    set_used this (used s - 1);;
    ret true
  else ret false.

(** [IntSet IntSet::unionWith(const IntSet& otherIntSet) const]; the local
    set is the returned object. *)
Definition unionWith (this otherIntSet : positive) : M positive :=
  do myUnionset <- IntSet_copy this;
  do n <- size otherIntSet;
  for_ 0 n
    (λ i _, do x <- data_at otherIntSet i;
            do c <- contains myUnionset x;
            if negb c then (do x <- data_at otherIntSet i; add myUnionset x;; ret tt)
            else ret tt) tt;;
  ret myUnionset.

(** [IntSet IntSet::intersect(const IntSet& otherIntSet) const] *)
Definition intersect (this otherIntSet : positive) : M positive :=
  do myIntersect <- IntSet_copy this;
  do n <- size this;
  for_ 0 n
    (λ i _, do x <- data_at this i;
            do c <- contains otherIntSet x;
            if negb c then (do x <- data_at this i; remove myIntersect x;; ret tt)
            else ret tt) tt;;
  ret myIntersect.

(** [IntSet IntSet::subtract(const IntSet& otherIntSet) const] *)
Definition subtract (this otherIntSet : positive) : M positive :=
  do mySubset <- IntSet_copy this;
  do n <- size otherIntSet;
  for_ 0 n
    (λ i _, do x <- data_at otherIntSet i;
            do c <- contains mySubset x;
            if c then (do x <- data_at otherIntSet i; remove mySubset x;; ret tt)
            else ret tt) tt;;
  ret mySubset.

(** [void IntSet::reset()] *)
Definition reset (this : positive) : M unit :=
  set_used this 0.

(** [bool operator==(const IntSet& is1, const IntSet& is2)]; [&&] evaluates
    its right operand only when the left one is true. *)
Definition equal (is1 is2 : positive) : M bool :=
  do b1 <- isSubsetOf is1 is2;
  do b <- (if b1 then isSubsetOf is2 is1 else ret false);
  if b then ret true else ret false.

(** ** Client code used in the statements *)

(** [for (v : vs) s.add(v);] *)
Fixpoint add_all (this : positive) (vs : list Z) : M unit :=
  match vs with
  | [] => ret tt
  | v :: vs' => add this v;; add_all this vs'
  end.

(** [IntSet s; for (v : vs) s.add(v);]: a default-constructed set
    ([initial_capacity = DEFAULT_CAPACITY]) filled in the order of [vs]. *)
Definition build (vs : list Z) : M positive :=
  do s <- IntSet_ctor DEFAULT_CAPACITY;
  add_all s vs;;
  ret s.

(** A sequence of [add] and [remove] calls on one object. *)
Inductive mutation := Madd (v : Z) | Mremove (v : Z).

Fixpoint mutate (this : positive) (ms : list mutation) : M unit :=
  match ms with
  | [] => ret tt
  | Madd v :: ms' => add this v;; mutate this ms'
  | Mremove v :: ms' => remove this v;; mutate this ms'
  end.

(** The calls by which a client changes the store, and the stores a client
    can reach from the empty one.  A call names objects that are alive:
    C++ references are bound to objects. *)
Inductive call :=
| Construct (initial_capacity : Z)
| Copy (src : positive)
| Assign (this rhs : positive)
| Add (this : positive) (v : Z)
| Remove (this : positive) (v : Z)
| Reset (this : positive)
| Resize (this : positive) (new_capacity : Z)
| Union (this other : positive)
| Intersect (this other : positive)
| Subtract (this other : positive)
| Destroy (this : positive).

Definition call_objects (c : call) : list positive :=
  match c with
  | Construct _ => []
  | Copy a | Add a _ | Remove a _ | Reset a | Resize a _ | Destroy a => [a]
  | Assign a b | Union a b | Intersect a b | Subtract a b => [a; b]
  end.

Definition run_call (c : call) : M unit :=
  match c with
  | Construct n => IntSet_ctor n;; ret tt
  | Copy a => IntSet_copy a;; ret tt
  | Assign a b => assign a b;; ret tt
  | Add a v => add a v;; ret tt
  | Remove a v => remove a v;; ret tt
  | Reset a => reset a
  | Resize a n => resize a n
  | Union a b => unionWith a b;; ret tt
  | Intersect a b => intersect a b;; ret tt
  | Subtract a b => subtract a b;; ret tt
  | Destroy a => IntSet_dtor a
  end.

Inductive reachable : state → Prop :=
| reachable_empty : reachable empty_state
| reachable_call st c st' :
    reachable st →
    Forall (λ a, is_Some (objs st !! a)) (call_objects c) →
    run_call c st = Some (tt, st') →
    reachable st'.

(** The union written without the membership guard: copy [this], then call
    [add] on every live element of [otherIntSet] in index order. *)
Definition unionWith_simple (this otherIntSet : positive) : M positive :=
  do myUnionset <- IntSet_copy this;
  do n <- size otherIntSet;
  for_ 0 n
    (λ i _, do x <- data_at otherIntSet i; add myUnionset x;; ret tt) tt;;
  ret myUnionset.

End IntSet.

(** What [DumpData] writes for the sequence [l]: the values in decimal,
    two spaces between successive values. *)
Definition dump_string (l : list Z) : string := String.concat "  " (pretty <$> l).

(** The value of the growth request of [add] when it is an int:
    [floor(1.5 * capacity) + 1]. *)
Definition grown_value (capacity : Z) : Z := Z.quot (3 * capacity) 2 + 1.

(** The largest capacity whose growth request is an int: for [c >= 0],
    [grown_value c <= INT_MAX] exactly when [c <= GROWABLE].  A set can
    therefore come to hold [n] elements in a buffer of capacity [cap] when
    [n <= Z.max cap (GROWABLE + 1)]: either they fit as it is, or every
    growth on the way starts from a full buffer of at most [GROWABLE]
    cells. *)
Definition GROWABLE : Z := 1431655764.

(** ** What a store represents *)

(** The live elements of an object, in index order, with its capacity:
    cells [0, used) of the array it points to. *)
Definition live_of (h : gmap positive (list (option Z))) (o : IntSet)
    : option (list Z * Z) :=
  cells ← h !! data o;
  l ← mapM id (take (Z.to_nat (used o)) cells);
  Some (l, capacity o).

(** For every object of the store, the sequence it holds and its capacity. *)
Definition contents (st : state) : gmap positive (list Z * Z) :=
  omap (live_of (heap st)) (objs st).

(** The class invariant of one object: its array is allocated and has
    [capacity] cells, the first [used] of them are initialised and pairwise
    distinct, and the capacity is at least 1. *)
Definition obj_inv (h : gmap positive (list (option Z))) (o : IntSet) : Prop :=
  ∃ (l : list Z) (junk : list (option Z)),
    h !! data o = Some ((Some <$> l) ++ junk) ∧
    used o = Z.of_nat (length l) ∧
    capacity o = Z.of_nat (length l + length junk) ∧
    NoDup l ∧ 1 ≤ capacity o.

(** A store is valid when every object satisfies the class invariant and no
    two objects point to the same array. *)
Definition valid (st : state) : Prop :=
  (∀ a o, objs st !! a = Some o → obj_inv (heap st) o) ∧
  (∀ a b oa ob, objs st !! a = Some oa → objs st !! b = Some ob →
                data oa = data ob → a = b).

(** An executable check of [valid]. *)
Definition obj_invb (h : gmap positive (list (option Z))) (o : IntSet) : bool :=
  match h !! data o with
  | Some cells =>
      match mapM id (take (Z.to_nat (used o)) cells) with
      | Some l =>
          (0 <=? used o) && (used o <=? capacity o) &&
          (capacity o =? Z.of_nat (length cells)) &&
          bool_decide (NoDup l) && (1 <=? capacity o)
      | None => false
      end
  | None => false
  end.

Definition validb (st : state) : bool :=
  forallb (λ ao, obj_invb (heap st) ao.2) (map_to_list (objs st)) &&
  bool_decide (NoDup ((λ ao, data ao.2) <$> map_to_list (objs st))).

(** ** How a call may change the allocation *)

(** No array is leaked: every allocated array is the buffer of a live
    object. *)
Definition leak_free (st : state) : Prop :=
  ∀ p, is_Some (heap st !! p) → ∃ a o, objs st !! a = Some o ∧ data o = p.

(** The call neither allocates nor releases, creates or ends no object, and
    every object keeps its array and its capacity. *)
Definition keeps_arrays (st st' : state) : Prop :=
  dom (heap st') = dom (heap st) ∧
  ∀ b, (λ o, (data o, capacity o)) <$> objs st' !! b
       = (λ o, (data o, capacity o)) <$> objs st !! b.

(** The call moves object [a] to a newly allocated array and releases the
    one it had; nothing else is allocated or released. *)
Definition reallocates (a : positive) (st st' : state) : Prop :=
  ∃ o o',
    objs st !! a = Some o ∧
    objs st' = <[a := o']> (objs st) ∧
    data o' = fresh (dom (heap st)) ∧
    dom (heap st') = ({[data o']} ∪ dom (heap st)) ∖ {[data o]}.

(** The call creates object [r] with a newly allocated array; nothing else
    is allocated or released. *)
Definition creates (r : positive) (st st' : state) : Prop :=
  objs st !! r = None ∧
  ∃ o',
    objs st' = <[r := o']> (objs st) ∧
    data o' = fresh (dom (heap st)) ∧
    dom (heap st') = {[data o']} ∪ dom (heap st).

(** What the loops of the derived operations keep, for the local set [r]. *)
Definition sound_with (r : positive) (st : state) : Prop :=
  valid st ∧ leak_free st ∧ is_Some (objs st !! r).

(** A store whose second set is empty: A = {1, 2, 3}, B = {} with four
    unused cells. *)
Definition empty_operand_store : state :=
  mkState {[ 1%positive := mkIntSet 1 3 3; 2%positive := mkIntSet 2 4 0 ]}
          {[ 1%positive := [Some 1; Some 2; Some 3];
             2%positive := [None; None; None; None] ]}.

(** ** Stores used in the examples *)

(** Two sets: [A = {1, 2, 3}] at address 1 in a full array of 3 cells, and
    [B = {2, 3, 4}] at address 2 in an array of 4 cells. *)
Definition example_store : state :=
  mkState {[ 1%positive := mkIntSet 1 3 3; 2%positive := mkIntSet 2 4 3 ]}
          {[ 1%positive := [Some 1; Some 2; Some 3];
             2%positive := [Some 2; Some 3; Some 4; None] ]}.

(** Three sets with the same members in three orders. *)
Definition permuted_store : state :=
  mkState {[ 1%positive := mkIntSet 1 3 3; 2%positive := mkIntSet 2 4 3;
             3%positive := mkIntSet 3 3 3 ]}
          {[ 1%positive := [Some 1; Some 2; Some 3];
             2%positive := [Some 3; Some 1; Some 2; None];
             3%positive := [Some 2; Some 3; Some 1] ]}.



(** A store that breaks the invariant: the object holds 5 twice. *)
Definition duplicate_store : state :=
  mkState {[ 1%positive := mkIntSet 1 4 4 ]}
          {[ 1%positive := [Some 5; Some 6; Some 5; Some 7] ]}.

(** ** Basic facts *)

Lemma mapM_id_Some (l : list Z) : mapM id (Some <$> l) = Some l.
Proof. by apply mapM_fmap_Some. Qed.

Lemma mapM_id_inv (cs : list (option Z)) (l : list Z) :
  mapM id cs = Some l → cs = Some <$> l.
Proof.
  intros H. symmetry. eapply mapM_fmap_Some_inv; [exact H|].
  intros x y. simpl. congruence.
Qed.

Lemma live_of_rep h o (l : list Z) junk :
  h !! data o = Some ((Some <$> l) ++ junk) →
  used o = Z.of_nat (length l) →
  live_of h o = Some (l, capacity o).
Proof.
  intros Hh Hu. unfold live_of. rewrite Hh, Hu, Nat2Z.id. simpl.
  rewrite take_app_length'; [|by rewrite length_fmap].
  by rewrite mapM_id_Some.
Qed.

Lemma obj_inv_live h o :
  obj_inv h o → ∃ l, live_of h o = Some (l, capacity o) ∧ used o = Z.of_nat (length l).
Proof.
  intros (l & junk & Hh & Hu & _). exists l. split; [|done].
  by eapply live_of_rep.
Qed.

(** Under [valid], [contents] determines the concrete representation. *)
Lemma contents_lookup st a (l : list Z) cap :
  valid st → contents st !! a = Some (l, cap) →
  ∃ p junk,
    objs st !! a = Some (mkIntSet p cap (Z.of_nat (length l))) ∧
    heap st !! p = Some ((Some <$> l) ++ junk) ∧
    cap = Z.of_nat (length l + length junk) ∧
    NoDup l ∧ 1 ≤ cap.
Proof.
  intros [Hinv _] Hc. unfold contents in Hc. rewrite lookup_omap in Hc.
  destruct (objs st !! a) as [o|] eqn:Ho; [|done]. simpl in Hc.
  destruct (Hinv _ _ Ho) as (l' & junk & Hh & Hu & Hcap & Hnd & H1).
  rewrite (live_of_rep _ _ _ _ Hh Hu) in Hc. simplify_eq.
  exists (data o), junk. destruct o as [p c u]; simpl in *. subst. done.
Qed.

Lemma contents_is_Some st a :
  valid st → is_Some (objs st !! a) → is_Some (contents st !! a).
Proof.
  intros [Hinv _] [o Ho]. unfold contents. rewrite lookup_omap, Ho. simpl.
  destruct (obj_inv_live _ _ (Hinv _ _ Ho)) as (l & -> & _). done.
Qed.

Lemma contents_objs st a x :
  contents st !! a = Some x → is_Some (objs st !! a).
Proof.
  unfold contents. rewrite lookup_omap.
  destruct (objs st !! a); [eauto|done].
Qed.

(** The one way the methods change a valid store: object [a] is (re)written
    with members [o'], its array holds [l'], every other object keeps its
    members and its array, and [a] does not come to share one of those. *)
Lemma valid_update st st' a o' (l' : list Z) junk' :
  valid st →
  objs st' = <[a := o']> (objs st) →
  heap st' !! data o' = Some ((Some <$> l') ++ junk') →
  used o' = Z.of_nat (length l') →
  capacity o' = Z.of_nat (length l' + length junk') →
  NoDup l' → 1 ≤ capacity o' →
  (∀ b ob, b ≠ a → objs st !! b = Some ob →
     data ob ≠ data o' ∧ heap st' !! data ob = heap st !! data ob) →
  valid st' ∧ contents st' = <[a := (l', capacity o')]> (contents st).
Proof.
  intros [Hinv Hown] Hobjs Hh Hu Hcap Hnd H1 Hothers. split; [split|].
  - intros b ob. rewrite Hobjs. destruct (decide (b = a)) as [->|Hne].
    + rewrite lookup_insert_eq. intros [= <-]. by exists l', junk'.
    + rewrite lookup_insert_ne by done. intros Hb.
      destruct (Hinv _ _ Hb) as (l & junk & Hhb & ?).
      exists l, junk. split; [|done].
      destruct (Hothers _ _ Hne Hb) as [_ ->]. done.
  - intros b c ob oc. rewrite Hobjs.
    destruct (decide (b = a)) as [->|Hb], (decide (c = a)) as [->|Hc];
      rewrite ?lookup_insert_eq, ?lookup_insert_ne by done; try done.
    + intros [= <-] Hoc Heq. destruct (Hothers _ _ Hc Hoc) as [Hd _]. congruence.
    + intros Hob [= <-] Heq. destruct (Hothers _ _ Hb Hob) as [Hd _]. congruence.
    + apply Hown.
  - apply map_eq. intros b. unfold contents. rewrite lookup_omap, Hobjs.
    destruct (decide (b = a)) as [->|Hne].
    + rewrite !lookup_insert_eq. simpl. by eapply live_of_rep.
    + rewrite !lookup_insert_ne by done. rewrite lookup_omap.
      destruct (objs st !! b) as [ob|] eqn:Hb; [|done]. simpl.
      destruct (Hothers _ _ Hne Hb) as [_ Heq]. unfold live_of. by rewrite Heq.
Qed.

Lemma obj_invb_sound h o : obj_invb h o = true → obj_inv h o.
Proof.
  unfold obj_invb. destruct (h !! data o) as [cells|] eqn:Hh; [|done].
  destruct (mapM id (take (Z.to_nat (used o)) cells)) as [l|] eqn:Hl; [|done].
  rewrite !andb_true_iff. intros ((((H0 & Hle) & Hc) & Hnd) & H1).
  apply Z.leb_le in H0, Hle, H1. apply Z.eqb_eq in Hc.
  apply bool_decide_eq_true in Hnd.
  pose proof (mapM_id_inv _ _ Hl) as Htake.
  assert (Hlen : length l = Z.to_nat (used o)).
  { rewrite <- (length_fmap Some l), <- Htake, length_take. lia. }
  exists l, (drop (Z.to_nat (used o)) cells).
  rewrite <- Htake, take_drop. repeat split; try done; try lia.
  rewrite length_drop. lia.
Qed.

Lemma validb_sound st : validb st = true → valid st.
Proof.
  unfold validb. rewrite andb_true_iff, forallb_forall.
  intros [Hall Hnd]. apply bool_decide_eq_true in Hnd. split.
  - intros a o Ho. apply obj_invb_sound.
    apply (Hall (a, o)), list_elem_of_In, elem_of_map_to_list, Ho.
  - intros a b oa ob Ha Hb Heq.
    apply elem_of_map_to_list, list_elem_of_lookup in Ha as [i Hi].
    apply elem_of_map_to_list, list_elem_of_lookup in Hb as [j Hj].
    assert (i = j) as ->.
    { apply (NoDup_lookup _ i j (data oa) Hnd);
        rewrite list_lookup_fmap; [rewrite Hi|rewrite Hj]; simpl; congruence. }
    congruence.
Qed.

Lemma valid_empty : valid empty_state.
Proof. split; simpl; intros *; by rewrite lookup_empty. Qed.

(** ** Running the primitives *)

Lemma bind_run {A B} (m : M A) (k : A → M B) st a st' :
  m st = Some (a, st') → bind m k st = k a st'.
Proof. unfold bind. by intros ->. Qed.

Lemma bind_fail {A B} (m : M A) (k : A → M B) st :
  m st = None → bind m k st = None.
Proof. unfold bind. by intros ->. Qed.

Lemma bind_inv {A B} (m : M A) (k : A → M B) st b st'' :
  bind m k st = Some (b, st'') →
  ∃ a st', m st = Some (a, st') ∧ k a st' = Some (b, st'').
Proof. unfold bind. destruct (m st) as [[a st']|]; [eauto|done]. Qed.

Lemma bind_bind {A B C} (m : M A) (k1 : A → M B) (k2 : B → M C) st :
  bind (bind m k1) k2 st = bind m (λ x, bind (k1 x) k2) st.
Proof. unfold bind. by destruct (m st) as [[a st']|]. Qed.

Lemma bind_ret {A B} (a : A) (k : A → M B) st : bind (ret a) k st = k a st.
Proof. done. Qed.

(** [mrun H]: run the first computation of the goal with the equation [H]. *)
Ltac mrun H :=
  rewrite ?bind_bind;
  first [ rewrite (bind_run _ _ _ _ _ H) | rewrite H ];
  cbv beta; rewrite ?bind_ret.

(** [mstep tac]: the same, the equation being found by [tac]. *)
Ltac mstep tac :=
  rewrite ?bind_bind; erewrite bind_run; [|tac]; cbv beta; rewrite ?bind_ret.

(** Lookups in a store built from inserts and deletes. *)
Ltac mlookup :=
  simpl;
  rewrite ?lookup_insert_eq, ?lookup_insert_ne, ?lookup_delete_ne by done;
  done.

Lemma get_obj_run st a o : objs st !! a = Some o → get_obj a st = Some (o, st).
Proof. unfold get_obj. by intros ->. Qed.

Lemma put_obj_run st a o o' :
  objs st !! a = Some o →
  put_obj a o' st = Some (tt, mkState (<[a := o']> (objs st)) (heap st)).
Proof. unfold put_obj. by intros ->. Qed.

Lemma set_data_run st a o p :
  objs st !! a = Some o →
  set_data a p st =
    Some (tt, mkState (<[a := mkIntSet p (capacity o) (used o)]> (objs st)) (heap st)).
Proof.
  intros Ho. unfold set_data.
  rewrite (bind_run _ _ _ _ _ (get_obj_run _ _ _ Ho)). by eapply put_obj_run.
Qed.

Lemma set_capacity_run st a o c :
  objs st !! a = Some o →
  set_capacity a c st =
    Some (tt, mkState (<[a := mkIntSet (data o) c (used o)]> (objs st)) (heap st)).
Proof.
  intros Ho. unfold set_capacity.
  rewrite (bind_run _ _ _ _ _ (get_obj_run _ _ _ Ho)). by eapply put_obj_run.
Qed.

Lemma set_used_run st a o u :
  objs st !! a = Some o →
  set_used a u st =
    Some (tt, mkState (<[a := mkIntSet (data o) (capacity o) u]> (objs st)) (heap st)).
Proof.
  intros Ho. unfold set_used.
  rewrite (bind_run _ _ _ _ _ (get_obj_run _ _ _ Ho)). by eapply put_obj_run.
Qed.

Lemma new_obj_run st o :
  new_obj o st =
    Some (fresh (dom (objs st)),
          mkState (<[fresh (dom (objs st)) := o]> (objs st)) (heap st)).
Proof. done. Qed.

Lemma new_array_run st n :
  0 ≤ n →
  new_array n st =
    Some (fresh (dom (heap st)),
          mkState (objs st)
            (<[fresh (dom (heap st)) := replicate (Z.to_nat n) None]> (heap st))).
Proof.
  intros Hn. unfold new_array. destruct (Z.ltb_spec n 0); [lia|done].
Qed.

Lemma fresh_heap st : heap st !! fresh (dom (heap st)) = None.
Proof. apply not_elem_of_dom, is_fresh. Qed.

Lemma fresh_objs st : objs st !! fresh (dom (objs st)) = None.
Proof. apply not_elem_of_dom, is_fresh. Qed.

Lemma delete_array_run st p cells :
  heap st !! p = Some cells →
  delete_array p st = Some (tt, mkState (objs st) (delete p (heap st))).
Proof. unfold delete_array. by intros ->. Qed.

Lemma load_run st p (cells : list (option Z)) (i : nat) x :
  heap st !! p = Some cells → cells !! i = Some (Some x) →
  load p (Z.of_nat i) st = Some (x, st).
Proof.
  intros Hp Hi. unfold load. destruct (Z.ltb_spec (Z.of_nat i) 0); [lia|].
  by rewrite Hp, Nat2Z.id, Hi.
Qed.

Lemma store_run st p (cells : list (option Z)) (i : nat) x :
  heap st !! p = Some cells → (i < length cells)%nat →
  store p (Z.of_nat i) x st =
    Some (tt, mkState (objs st) (<[p := <[i := Some x]> cells]> (heap st))).
Proof.
  intros Hp Hi. unfold store. destruct (Z.ltb_spec (Z.of_nat i) 0); [lia|].
  rewrite Hp, Nat2Z.id.
  destruct (Z.ltb_spec (Z.of_nat i) (Z.of_nat (length cells))); [done|lia].
Qed.

Lemma data_at_run st a o (cells : list (option Z)) (i : nat) x :
  objs st !! a = Some o → heap st !! data o = Some cells →
  cells !! i = Some (Some x) →
  data_at a (Z.of_nat i) st = Some (x, st).
Proof.
  intros Ho Hp Hi. unfold data_at.
  rewrite (bind_run _ _ _ _ _ (get_obj_run _ _ _ Ho)). by eapply load_run.
Qed.

Lemma data_at_set_run st a o (cells : list (option Z)) (i : nat) x :
  objs st !! a = Some o → heap st !! data o = Some cells →
  (i < length cells)%nat →
  data_at_set a (Z.of_nat i) x st =
    Some (tt, mkState (objs st) (<[data o := <[i := Some x]> cells]> (heap st))).
Proof.
  intros Ho Hp Hi. unfold data_at_set.
  rewrite (bind_run _ _ _ _ _ (get_obj_run _ _ _ Ho)). by eapply store_run.
Qed.

(** Reads and writes of live cells, on the represented sequence. *)
Lemma live_cell (l : list Z) junk (i : nat) x :
  l !! i = Some x → ((Some <$> l) ++ junk) !! i = Some (Some x).
Proof.
  intros Hi. rewrite lookup_app_l.
  - by rewrite list_lookup_fmap, Hi.
  - rewrite length_fmap. by eapply lookup_lt_Some.
Qed.

Lemma live_cell_insert (l : list Z) junk (i : nat) x :
  (i < length l)%nat →
  <[i := Some x]> ((Some <$> l) ++ junk) = (Some <$> <[i := x]> l) ++ junk.
Proof.
  intros Hi. rewrite insert_app_l by (by rewrite length_fmap).
  by rewrite list_fmap_insert.
Qed.

Lemma live_cell_push (l : list Z) c junk x :
  <[length l := Some x]> ((Some <$> l) ++ c :: junk) = (Some <$> (l ++ [x])) ++ junk.
Proof.
  rewrite fmap_app, <- app_assoc. simpl.
  replace (length l) with (length (Some <$> l) + 0)%nat
    by (rewrite length_fmap; lia).
  by rewrite insert_app_r.
Qed.

(** ** Loop rules *)

(** Invariant rule for [for_iter]: [I k] holds before iteration number [k]
    (counted from 0) and the body re-establishes it. *)
Lemma for_iter_inv {A} (I : nat → A → state → Prop) (body : Z → A → M A) n lo :
  (∀ k acc st, (k < n)%nat → I k acc st →
     ∃ acc' st', body (lo + Z.of_nat k) acc st = Some (acc', st') ∧ I (S k) acc' st') →
  ∀ acc st, I O acc st →
    ∃ acc' st', for_iter n lo body acc st = Some (acc', st') ∧ I n acc' st'.
Proof.
  revert I lo. induction n as [|n IH]; intros I lo Hbody acc st HI.
  - exists acc, st. done.
  - destruct (Hbody O acc st ltac:(lia) HI) as (acc1 & st1 & Hrun & HI1).
    rewrite Z.add_0_r in Hrun. simpl. rewrite (bind_run _ _ _ _ _ Hrun).
    apply (IH (λ k, I (S k)) (lo + 1)); [|done].
    intros k acc2 st2 Hk HI2.
    destruct (Hbody (S k) acc2 st2 ltac:(lia) HI2) as (acc3 & st3 & Hrun3 & HI3).
    exists acc3, st3. split; [|done].
    rewrite <- Hrun3. f_equal. lia.
Qed.

Lemma for_inv {A} (I : nat → A → state → Prop) (body : Z → A → M A) (n : nat) lo :
  (∀ k acc st, (k < n)%nat → I k acc st →
     ∃ acc' st', body (lo + Z.of_nat k) acc st = Some (acc', st') ∧ I (S k) acc' st') →
  ∀ acc st, I O acc st →
    ∃ acc' st', for_ lo (lo + Z.of_nat n) body acc st = Some (acc', st') ∧ I n acc' st'.
Proof.
  intros Hbody acc st HI. unfold for_.
  replace (Z.to_nat (lo + Z.of_nat n - lo)) with n by lia.
  by apply for_iter_inv.
Qed.

(** The same rule for a loop that may fail: an invariant that every
    returning iteration re-establishes holds when the loop returns. *)
Lemma for_iter_returns {A} (I : nat → A → state → Prop) (body : Z → A → M A) n lo :
  (∀ k acc st acc' st', (k < n)%nat → I k acc st →
     body (lo + Z.of_nat k) acc st = Some (acc', st') → I (S k) acc' st') →
  ∀ acc st acc' st', I O acc st →
    for_iter n lo body acc st = Some (acc', st') → I n acc' st'.
Proof.
  revert I lo. induction n as [|n IH]; intros I lo Hbody acc st acc' st' HI; simpl.
  - by intros [= <- <-].
  - intros (acc1 & st1 & H1 & Hrest)%bind_inv.
    apply (IH (λ k, I (S k)) (lo + 1)) in Hrest; [done| |].
    + intros k acc2 st2 acc3 st3 Hk HI2 Hrun. apply (Hbody (S k) acc2 st2); [lia|done|].
      rewrite <- Hrun. f_equal. lia.
    + apply (Hbody O acc st); [lia|done|]. by rewrite Z.add_0_r.
Qed.

Lemma for_returns {A} (I : nat → A → state → Prop) (body : Z → A → M A) (n : nat) lo :
  (∀ k acc st acc' st', (k < n)%nat → I k acc st →
     body (lo + Z.of_nat k) acc st = Some (acc', st') → I (S k) acc' st') →
  ∀ acc st acc' st', I O acc st →
    for_ lo (lo + Z.of_nat n) body acc st = Some (acc', st') → I n acc' st'.
Proof.
  intros Hbody acc st acc' st' HI. unfold for_.
  replace (Z.to_nat (lo + Z.of_nat n - lo)) with n by lia.
  by apply for_iter_returns.
Qed.

(** A loop whose range is empty does nothing. *)
Lemma for_empty {A} (body : Z → A → M A) lo hi acc st :
  hi ≤ lo → for_ lo hi body acc st = Some (acc, st).
Proof. intros H. unfold for_. by replace (Z.to_nat (hi - lo)) with O by lia. Qed.

(** Two bodies that agree on every store run the same loop. *)
Lemma for_iter_ext {A} (body1 body2 : Z → A → M A) n lo acc st :
  (∀ i acc st, body1 i acc st = body2 i acc st) →
  for_iter n lo body1 acc st = for_iter n lo body2 acc st.
Proof.
  intros Hext. revert lo acc st. induction n as [|n IH]; intros lo acc st; [done|].
  simpl. unfold bind. rewrite Hext. destruct (body2 lo acc st) as [[a st']|]; auto.
Qed.

(** ** The queries *)

Section queries.
Context (st : state) (a : positive) (p : positive) (cap : Z)
        (l : list Z) (junk : list (option Z)).
Hypothesis Hobj : objs st !! a = Some (mkIntSet p cap (Z.of_nat (length l))).
Hypothesis Hheap : heap st !! p = Some ((Some <$> l) ++ junk).

Lemma rep_data_at (i : nat) x :
  l !! i = Some x → data_at a (Z.of_nat i) st = Some (x, st).
Proof.
  intros Hi. eapply data_at_run; [exact Hobj|exact Hheap|].
  by apply live_cell.
Qed.

Lemma rep_size : size a st = Some (Z.of_nat (length l), st).
Proof. unfold size. by rewrite (bind_run _ _ _ _ _ (get_obj_run _ _ _ Hobj)). Qed.

Lemma rep_isEmpty : isEmpty a st = Some (bool_decide (l = []), st).
Proof.
  unfold isEmpty. rewrite (bind_run _ _ _ _ _ (get_obj_run _ _ _ Hobj)).
  simpl. unfold ret. do 2 f_equal.
  by destruct l.
Qed.

Lemma rep_contains_iter v (l2 l1 : list Z) :
  l = l1 ++ l2 →
  for_return_iter (length l2) (Z.of_nat (length l1))
    (λ i, do x <- data_at a i; if x =? v then ret (Some true) else ret None)
    (ret false) st
  = Some (bool_decide (v ∈ l2), st).
Proof.
  revert l1. induction l2 as [|x l2 IH]; intros l1 Hl.
  - done.
  - simpl.
    assert (Hx : l !! length l1 = Some x) by (subst l; apply list_lookup_middle; done).
    mrun (rep_data_at _ _ Hx).
    destruct (Z.eqb_spec x v) as [->|Hne]; rewrite bind_ret.
    + unfold ret. do 2 f_equal. symmetry. apply bool_decide_eq_true. left.
    + replace (Z.of_nat (length l1) + 1) with (Z.of_nat (length (l1 ++ [x])))
        by (rewrite length_app; simpl; lia).
      rewrite IH by (by rewrite <- app_assoc).
      do 2 f_equal. apply bool_decide_ext. rewrite elem_of_cons.
      split; [by right|]. by intros [->|?].
Qed.

Lemma rep_contains v : contains a v st = Some (bool_decide (v ∈ l), st).
Proof.
  unfold contains. rewrite (bind_run _ _ _ _ _ (get_obj_run _ _ _ Hobj)). simpl.
  destruct (Z.ltb_spec 0 (Z.of_nat (length l))) as [Hpos|Hzero].
  - unfold for_return. rewrite Z.sub_0_r, Nat2Z.id.
    by apply (rep_contains_iter v l []).
  - by destruct l; simpl in *; [|lia].
Qed.
End queries.

(** The queries on a valid store, in terms of [contents]. *)
Lemma data_at_spec st a (l : list Z) cap (i : nat) x :
  valid st → contents st !! a = Some (l, cap) → l !! i = Some x →
  data_at a (Z.of_nat i) st = Some (x, st).
Proof.
  intros Hv Hc Hi. destruct (contents_lookup _ _ _ _ Hv Hc) as (p & junk & Ho & Hh & _).
  by eapply rep_data_at.
Qed.

Lemma size_spec st a (l : list Z) cap :
  valid st → contents st !! a = Some (l, cap) →
  size a st = Some (Z.of_nat (length l), st).
Proof.
  intros Hv Hc. destruct (contents_lookup _ _ _ _ Hv Hc) as (p & junk & Ho & Hh & _).
  by eapply rep_size.
Qed.

Lemma isEmpty_spec st a (l : list Z) cap :
  valid st → contents st !! a = Some (l, cap) →
  isEmpty a st = Some (bool_decide (l = []), st).
Proof.
  intros Hv Hc. destruct (contents_lookup _ _ _ _ Hv Hc) as (p & junk & Ho & Hh & _).
  by eapply rep_isEmpty.
Qed.

Lemma contains_spec st a (l : list Z) cap v :
  valid st → contents st !! a = Some (l, cap) →
  contains a v st = Some (bool_decide (v ∈ l), st).
Proof.
  intros Hv Hc. destruct (contents_lookup _ _ _ _ Hv Hc) as (p & junk & Ho & Hh & _).
  by eapply rep_contains.
Qed.

Lemma isSubsetOf_iter st a b (la lb : list Z) ca cb (l2 l1 : list Z) :
  valid st → contents st !! a = Some (la, ca) → contents st !! b = Some (lb, cb) →
  la = l1 ++ l2 →
  for_return_iter (length l2) (Z.of_nat (length l1))
    (λ i, do x <- data_at a i;
          do c <- contains b x;
          if negb c then ret (Some false) else ret None)
    (ret true) st
  = Some (bool_decide (l2 ⊆ lb), st).
Proof.
  intros Hv Ha Hb. revert l1. induction l2 as [|x l2 IH]; intros l1 Hl.
  - by rewrite (bool_decide_eq_true_2 ([] ⊆ lb)) by apply list_subseteq_nil.
  - simpl.
    assert (Hx : la !! length l1 = Some x) by (subst la; by apply list_lookup_middle).
    mrun (data_at_spec _ _ _ _ _ _ Hv Ha Hx).
    mrun (contains_spec _ _ _ _ x Hv Hb).
    destruct (decide (x ∈ lb)) as [Hin|Hnin].
    + rewrite (bool_decide_eq_true_2 _ Hin). simpl. rewrite bind_ret.
      replace (Z.of_nat (length l1) + 1) with (Z.of_nat (length (l1 ++ [x])))
        by (rewrite length_app; simpl; lia).
      rewrite IH by (by rewrite <- app_assoc).
      do 2 f_equal. apply bool_decide_ext. split.
      * intros Hsub y [->|Hy]%elem_of_cons; [done|by apply Hsub].
      * intros Hsub y Hy. apply Hsub. by right.
    + rewrite (bool_decide_eq_false_2 _ Hnin). simpl. rewrite bind_ret.
      unfold ret. do 2 f_equal. symmetry. apply bool_decide_eq_false.
      intros Hsub. apply Hnin, Hsub. left.
Qed.

Lemma isSubsetOf_spec st a b (la lb : list Z) ca cb :
  valid st → contents st !! a = Some (la, ca) → contents st !! b = Some (lb, cb) →
  isSubsetOf a b st = Some (bool_decide (la ⊆ lb), st).
Proof.
  intros Hv Ha Hb. unfold isSubsetOf.
  mrun (isEmpty_spec _ _ _ _ Hv Ha).
  destruct (decide (la = [])) as [->|Hne].
  - by rewrite (bool_decide_eq_true_2 ([] ⊆ lb)) by apply list_subseteq_nil.
  - rewrite (bool_decide_eq_false_2 _ Hne).
    mrun (size_spec _ _ _ _ Hv Ha).
    unfold for_return. rewrite Z.sub_0_r, Nat2Z.id.
    by apply (isSubsetOf_iter st a b la lb ca cb la []).
Qed.

Lemma equal_spec st a b (la lb : list Z) ca cb :
  valid st → contents st !! a = Some (la, ca) → contents st !! b = Some (lb, cb) →
  equal a b st = Some (bool_decide (la ⊆ lb) && bool_decide (lb ⊆ la), st).
Proof.
  intros Hv Ha Hb. unfold equal.
  mrun (isSubsetOf_spec _ _ _ _ _ _ _ Hv Ha Hb).
  destruct (bool_decide (la ⊆ lb)); simpl.
  - mrun (isSubsetOf_spec _ _ _ _ _ _ _ Hv Hb Ha).
    by destruct (bool_decide (lb ⊆ la)).
  - done.
Qed.

(** ** Copying the live cells into another array *)

(** The loop shared by [resize], the copy constructor and [operator=]:
    [wr i x] stands for the write [dst[i] = x] into the array at [q]. *)
Lemma copy_loop_run st src p q cap (l : list Z) junk (cq : list (option Z))
    (wr : Z → Z → M unit) :
  objs st !! src = Some (mkIntSet p cap (Z.of_nat (length l))) →
  heap st !! p = Some ((Some <$> l) ++ junk) →
  heap st !! q = Some cq → p ≠ q → (length l ≤ length cq)%nat →
  (∀ st' i x, objs st' = objs st → wr i x st' = store q i x st') →
  for_ 0 (Z.of_nat (length l)) (λ i _, do x <- data_at src i; wr i x) tt st
  = Some (tt, mkState (objs st)
                (<[q := (Some <$> l) ++ drop (length l) cq]> (heap st))).
Proof.
  intros Ho Hp Hq Hpq Hlen Hwr.
  destruct (for_inv
    (λ k (_ : unit) st',
       st' = mkState (objs st)
               (<[q := (Some <$> take k l) ++ drop k cq]> (heap st)))
    (λ i _, do x <- data_at src i; wr i x) (length l) 0) with (acc := tt) (st := st)
    as ([] & st' & Hrun & ->).
  - intros k [] st1 Hk ->. rewrite Z.add_0_l.
    destruct (lookup_lt_is_Some_2 l k Hk) as [x Hx].
    assert (Hrd : data_at src (Z.of_nat k)
              (mkState (objs st) (<[q := (Some <$> take k l) ++ drop k cq]> (heap st)))
            = Some (x, mkState (objs st)
                (<[q := (Some <$> take k l) ++ drop k cq]> (heap st)))).
    { eapply data_at_run; [exact Ho| |by apply live_cell].
      simpl. by rewrite lookup_insert_ne. }
    mrun Hrd. rewrite Hwr by done.
    assert (Hk' : (k < length cq)%nat) by lia.
    destruct (lookup_lt_is_Some_2 cq k Hk') as [c Hc].
    erewrite store_run; [|simpl; apply lookup_insert_eq|].
    + exists tt. eexists. split; [done|]. simpl. f_equal.
      rewrite insert_insert_eq. f_equal.
      rewrite (drop_S _ _ _ Hc), (take_S_r _ _ _ Hx).
      pose proof (live_cell_push (take k l) c (drop (S k) cq) x) as Hpush.
      rewrite length_take, Nat.min_l in Hpush by lia. done.
    + rewrite length_app, length_fmap, length_take, length_drop. lia.
  - simpl. destruct st as [os hs]. simpl in *. f_equal.
    rewrite drop_0. symmetry. by apply insert_id.
  - rewrite Z.add_0_l in Hrun. rewrite Hrun. by rewrite take_ge.
Qed.

(** ** The mutators *)

Section correct.
Variable DEFAULT_CAPACITY : Z.
Hypothesis DEFAULT_CAPACITY_pos : 1 ≤ DEFAULT_CAPACITY.

(** [resize] whenever the capacity it settles on is at least 1: this needs
    [DEFAULT_CAPACITY >= 1] only for an empty set and a request below 1. *)
Lemma resize_run st a (l : list Z) cap n :
  valid st → contents st !! a = Some (l, cap) →
  1 ≤ (let c := if n <? Z.of_nat (length l) then Z.of_nat (length l) else n in
       if c <? 1 then DEFAULT_CAPACITY else c) →
  ∃ st',
    resize DEFAULT_CAPACITY a n st = Some (tt, st') ∧
    (valid st' ∧
     contents st' =
       <[a := (l, let c := if n <? Z.of_nat (length l) then Z.of_nat (length l) else n in
                  if c <? 1 then DEFAULT_CAPACITY else c)]> (contents st)) ∧
    (∃ q cells,
       heap st !! q = None ∧
       objs st' !! a =
         Some (mkIntSet q
                 (let c := if n <? Z.of_nat (length l) then Z.of_nat (length l) else n in
                  if c <? 1 then DEFAULT_CAPACITY else c)
                 (Z.of_nat (length l))) ∧
       heap st' !! q = Some cells ∧
       Z.of_nat (length cells) =
         (let c := if n <? Z.of_nat (length l) then Z.of_nat (length l) else n in
          if c <? 1 then DEFAULT_CAPACITY else c)) ∧
    (∀ oa, objs st !! a = Some oa → heap st' !! data oa = None).
Proof using Type.
  intros Hv Hc Hpos.
  destruct (contents_lookup _ _ _ _ Hv Hc) as (p & junk & Ho & Hh & Hcap & Hnd & H1).
  set (nc := let c := if n <? Z.of_nat (length l) then Z.of_nat (length l) else n in
                 if c <? 1 then DEFAULT_CAPACITY else c) in *.
  assert (Hnc : Z.of_nat (length l) ≤ nc ∧ 1 ≤ nc).
  { split; [|done]. subst nc. simpl in *.
    destruct (Z.ltb_spec n (Z.of_nat (length l)));
      match goal with |- context [?x <? 1] => destruct (Z.ltb_spec x 1) end; lia. }
  unfold resize. mrun (get_obj_run _ _ _ Ho). simpl. fold nc.
  mrun (set_capacity_run _ _ _ nc Ho). simpl.
  mstep ltac:(by apply new_array_run; lia). simpl.
  pose proof (fresh_heap st) as Hfresh.
  set (q := fresh (dom (heap st))) in *.
  assert (Hpq : p ≠ q) by congruence.
  mstep ltac:(apply (copy_loop_run _ a p q nc l junk (replicate (Z.to_nat nc) None) (store q));
              simpl; rewrite ?length_replicate; first [mlookup | lia]).
  simpl.
  mstep ltac:(apply get_obj_run; mlookup). simpl.
  mstep ltac:(eapply delete_array_run; simpl; rewrite !lookup_insert_ne by done; exact Hh).
  simpl.
  erewrite set_data_run; [|mlookup]. simpl.
  eexists. split; [done|]. split; [|split].
  - apply (valid_update st _ a (mkIntSet q nc (Z.of_nat (length l))) l
             (drop (length l) (replicate (Z.to_nat nc) None))); simpl; try done.
    + by rewrite !insert_insert_eq.
    + rewrite lookup_delete_ne by done. by rewrite lookup_insert_eq.
    + rewrite length_drop, length_replicate. lia.
    + intros b ob Hb Hob. destruct Hv as [Hinv Hown].
      destruct (Hinv _ _ Hob) as (lb & jb & Hhb & _).
      assert (data ob ≠ q) by congruence.
      assert (data ob ≠ p).
      { intros Heq. apply Hb. eapply Hown; [exact Hob|exact Ho|done]. }
      split; [done|].
      rewrite lookup_delete_ne by done. by rewrite !lookup_insert_ne.
  - exists q, ((Some <$> l) ++ drop (length l) (replicate (Z.to_nat nc) None)).
    simpl. split; [done|]. split; [by rewrite lookup_insert_eq|]. split.
    + rewrite lookup_delete_ne by done. by rewrite lookup_insert_eq.
    + rewrite length_app, length_fmap, length_drop, length_replicate. lia.
  - intros oa Hoa. rewrite Ho in Hoa. injection Hoa as <-. simpl.
    apply lookup_delete_eq.
Qed.

Lemma resize_spec st a (l : list Z) cap n :
  valid st → contents st !! a = Some (l, cap) →
  ∃ st',
    resize DEFAULT_CAPACITY a n st = Some (tt, st') ∧
    valid st' ∧
    contents st' =
      <[a := (l, let c := if n <? Z.of_nat (length l) then Z.of_nat (length l) else n in
                 if c <? 1 then DEFAULT_CAPACITY else c)]> (contents st).
Proof.
  intros Hv Hc. destruct (resize_run st a l cap n Hv Hc) as (st' & Hrun & Hvc & _).
  - simpl. destruct (Z.ltb_spec n (Z.of_nat (length l)));
      match goal with |- context [?x <? 1] => destruct (Z.ltb_spec x 1) end; lia.
  - by exists st'.
Qed.

(** Ownership: what [valid] says about the arrays of other objects. *)
Lemma other_data st a o b ob :
  valid st → objs st !! a = Some o → b ≠ a → objs st !! b = Some ob →
  data ob ≠ data o.
Proof using Type. intros [_ Hown] Ha Hne Hb Heq. apply Hne. by eapply Hown. Qed.

Lemma data_not_fresh st b ob :
  valid st → objs st !! b = Some ob → data ob ≠ fresh (dom (heap st)).
Proof using Type.
  intros [Hinv _] Hb Heq. destruct (Hinv _ _ Hb) as (l & junk & Hh & _).
  rewrite Heq, fresh_heap in Hh. done.
Qed.

(** The tail of [add]: [data[used] = anInt; used++; return true;] when a
    cell is free. *)
Lemma push_back_run st a p cap (l : list Z) c junk v :
  valid st →
  objs st !! a = Some (mkIntSet p cap (Z.of_nat (length l))) →
  heap st !! p = Some ((Some <$> l) ++ c :: junk) →
  cap = Z.of_nat (length l + S (length junk)) →
  NoDup l → v ∉ l →
  ∃ st',
    (do s <- get_obj a;
     data_at_set a (used s) v;;
     do s <- get_obj a;
     set_used a (used s + 1);;
     ret true) st = Some (true, st') ∧
    valid st' ∧ contents st' = <[a := (l ++ [v], cap)]> (contents st).
Proof using Type.
  intros Hv Ho Hh Hcap Hnd Hnin.
  mrun (get_obj_run _ _ _ Ho). simpl.
  mstep ltac:(eapply data_at_set_run; [exact Ho|exact Hh|];
              rewrite length_app, length_fmap; simpl; lia).
  simpl. mstep ltac:(apply get_obj_run; simpl; exact Ho). simpl.
  mstep ltac:(eapply set_used_run; simpl; exact Ho). simpl.
  eexists. split; [done|].
  apply (valid_update st _ a (mkIntSet p cap (Z.of_nat (length l) + 1)) (l ++ [v]) junk);
    simpl; try done.
  - rewrite lookup_insert_eq. f_equal. apply live_cell_push.
  - rewrite length_app. simpl. lia.
  - rewrite length_app. simpl. lia.
  - apply NoDup_app. split; [done|]. split; [|apply NoDup_singleton].
    intros x Hx ->%list_elem_of_singleton. done.
  - lia.
  - intros b ob Hb Hob. pose proof (other_data _ _ _ _ _ Hv Ho Hb Hob) as Hd.
    simpl in Hd. split; [done|]. by rewrite lookup_insert_ne.
Qed.

Lemma grown_value_gt c : 0 ≤ c → c < grown_value c.
Proof using Type.
  intros Hc. unfold grown_value.
  pose proof (Z.quot_pos (3 * c) 2 ltac:(lia) ltac:(lia)).
  assert (c ≤ 3 * c ÷ 2); [|lia].
  apply Z.quot_le_lower_bound; lia.
Qed.

(** On a capacity the class can have, truncation is the floor. *)
Lemma grown_value_floor c : 0 ≤ c → grown_value c = (3 * c) / 2 + 1.
Proof using Type. intros Hc. unfold grown_value. rewrite Z.quot_div_nonneg by lia. done. Qed.

(** The request is an int exactly up to [GROWABLE]. *)
Lemma grown_value_fits c : 0 ≤ c → grown_value c ≤ INT_MAX ↔ c ≤ GROWABLE.
Proof using Type.
  intros Hc. rewrite grown_value_floor by done. unfold INT_MAX, GROWABLE.
  pose proof (Z.div_mod (3 * c) 2 ltac:(lia)) as Hdm.
  pose proof (Z.mod_pos_bound (3 * c) 2 ltac:(lia)) as Hm.
  lia.
Qed.

Lemma grown_run c st :
  0 ≤ c → c ≤ GROWABLE → grown c st = Some (grown_value c, st).
Proof using Type.
  intros Hc Hfit. apply (grown_value_fits c Hc) in Hfit.
  pose proof (grown_value_gt c Hc) as Hgt.
  unfold grown, grown_value, to_int, bind in *.
  rewrite bool_decide_eq_true_2 by (unfold INT_MIN, INT_MAX in *; lia).
  by rewrite bool_decide_eq_true_2 by (unfold INT_MIN, INT_MAX in *; lia).
Qed.

Lemma grown_overflow c st : GROWABLE < c → grown c st = None.
Proof using Type.
  intros Hc.
  assert (Hbig : ¬ grown_value c ≤ INT_MAX)
    by (rewrite grown_value_fits by (unfold GROWABLE in Hc; lia); lia).
  unfold grown, grown_value, to_int, bind in *.
  destruct (bool_decide (INT_MIN ≤ 3 * c ÷ 2 ≤ INT_MAX)); [|done].
  by rewrite bool_decide_eq_false_2 by lia.
Qed.

Lemma add_member st a (l : list Z) cap v :
  valid st → contents st !! a = Some (l, cap) → v ∈ l →
  add DEFAULT_CAPACITY a v st = Some (false, st).
Proof using Type.
  intros Hv Hc Hin. unfold add. mrun (contains_spec _ _ _ _ v Hv Hc).
  by rewrite (bool_decide_eq_true_2 _ Hin).
Qed.

Lemma add_new st a (l : list Z) cap v :
  valid st → contents st !! a = Some (l, cap) → v ∉ l →
  Z.of_nat (length l) < cap ∨ cap ≤ GROWABLE →
  ∃ st',
    add DEFAULT_CAPACITY a v st = Some (true, st') ∧
    valid st' ∧
    contents st' =
      <[a := (l ++ [v], if cap <=? Z.of_nat (length l) then grown_value cap else cap)]>
        (contents st).
Proof using Type.
  intros Hv Hc Hnin Hfit. unfold add. mrun (contains_spec _ _ _ _ v Hv Hc).
  rewrite (bool_decide_eq_false_2 _ Hnin). simpl.
  destruct (contents_lookup _ _ _ _ Hv Hc) as (p & junk & Ho & Hh & Hcap & Hnd & H1).
  mrun (get_obj_run _ _ _ Ho). simpl.
  destruct (Z.leb_spec cap (Z.of_nat (length l))) as [Hfull|Hroom].
  - pose proof (grown_value_gt cap ltac:(lia)) as Hg.
    rewrite bind_bind. mstep ltac:(apply grown_run; lia).
    destruct (resize_run st a l cap (grown_value cap) Hv Hc) as (st1 & Hrun & [Hv1 Hc1] & _).
    { simpl. destruct (Z.ltb_spec (grown_value cap) (Z.of_nat (length l))); [lia|].
      destruct (Z.ltb_spec (grown_value cap) 1); [exfalso|]; lia. }
    simpl in Hc1.
    destruct (Z.ltb_spec (grown_value cap) (Z.of_nat (length l))); [lia|].
    destruct (Z.ltb_spec (grown_value cap) 1); [lia|].
    mrun Hrun.
    assert (Hc1' : contents st1 !! a = Some (l, grown_value cap))
      by (by rewrite Hc1, lookup_insert_eq).
    destruct (contents_lookup _ _ _ _ Hv1 Hc1')
      as (p1 & junk1 & Ho1 & Hh1 & Hcap1 & _ & _).
    destruct junk1 as [|c junk1]; [simpl in Hcap1; lia|].
    destruct (push_back_run st1 a p1 (grown_value cap) l c junk1 v) as (st2 & Hrun2 & Hv2 & Hc2);
      try done.
    exists st2. split; [exact Hrun2|]. split; [done|].
    by rewrite Hc2, Hc1, insert_insert_eq.
  - rewrite bind_ret.
    destruct junk as [|c junk]; [simpl in Hcap; lia|].
    destruct (push_back_run st a p cap l c junk v) as (st2 & Hrun2 & Hv2 & Hc2);
      try done.
    exists st2. done.
Qed.

(** A full buffer of more than [GROWABLE] cells cannot grow: the request is
    not an int, and the behaviour of [add] is undefined.  (On the usual
    targets the request comes out negative, [resize] raises it to [used]
    and [data[used]] is then written one cell past the new array.) *)
Lemma add_overflow st a (l : list Z) cap v :
  valid st → contents st !! a = Some (l, cap) → v ∉ l →
  cap ≤ Z.of_nat (length l) → GROWABLE < cap →
  add DEFAULT_CAPACITY a v st = None.
Proof using Type.
  intros Hv Hc Hnin Hfull Hbig. unfold add. mrun (contains_spec _ _ _ _ v Hv Hc).
  rewrite (bool_decide_eq_false_2 _ Hnin). simpl.
  destruct (contents_lookup _ _ _ _ Hv Hc) as (p & junk & Ho & _).
  mrun (get_obj_run _ _ _ Ho). simpl.
  rewrite (proj2 (Z.leb_le _ _) Hfull), bind_bind.
  apply bind_fail, grown_overflow, Hbig.
Qed.

(** The cell that the shift leaves behind at the old last index. *)
Lemma drop_length_cons (v : Z) (l2 : list Z) :
  ∃ z, drop (length l2) (v :: l2) = [z] ∧ (l2 = [] → z = v) ∧ (l2 ≠ [] → z ∈ l2).
Proof using Type.
  revert v. induction l2 as [|x l2 IH]; intros v.
  - exists v. done.
  - destruct (IH x) as (z & Hz & Hnil & Hin). exists z. split; [exact Hz|].
    split; [done|]. intros _. destruct l2 as [|y l2].
    + rewrite (Hnil eq_refl). left.
    + right. by apply Hin.
Qed.

(** The inner loop of [remove], started at the index after the match. *)
Lemma shift_loop_run st a p cap (l1 l2 : list Z) v junk :
  objs st !! a = Some (mkIntSet p cap (Z.of_nat (length (l1 ++ v :: l2)))) →
  heap st !! p = Some ((Some <$> (l1 ++ v :: l2)) ++ junk) →
  for_ (Z.of_nat (length l1) + 1) (Z.of_nat (length (l1 ++ v :: l2)))
    (λ j _, do y <- data_at a j; data_at_set a (j - 1) y) tt st
  = Some (tt, mkState (objs st)
       (<[p := (Some <$> (l1 ++ l2 ++ drop (length l2) (v :: l2))) ++ junk]> (heap st))).
Proof using Type.
  intros Ho Hh.
  replace (Z.of_nat (length (l1 ++ v :: l2)))
    with (Z.of_nat (length l1) + 1 + Z.of_nat (length l2))
    by (rewrite length_app; simpl; lia).
  destruct (for_inv
    (λ m (_ : unit) st',
       st' = mkState (objs st)
         (<[p := (Some <$> (l1 ++ take m l2 ++ drop m (v :: l2))) ++ junk]> (heap st)))
    (λ j _, do y <- data_at a j; data_at_set a (j - 1) y)
    (length l2) (Z.of_nat (length l1) + 1)) with (acc := tt) (st := st)
    as ([] & st' & Hrun & ->).
  - intros m [] st1 Hm ->.
    destruct (lookup_lt_is_Some_2 l2 m Hm) as [y Hy].
    assert (Hlen : length (l1 ++ take m l2 ++ drop m (v :: l2)) = length (l1 ++ v :: l2)).
    { rewrite !length_app, length_take, length_drop. simpl. lia. }
    replace (Z.of_nat (length l1) + 1 + Z.of_nat m)
      with (Z.of_nat (length l1 + m + 1)) by lia.
    mstep ltac:(eapply data_at_run; [exact Ho|simpl; apply lookup_insert_eq|];
                apply live_cell;
                rewrite lookup_app_r by lia;
                rewrite lookup_app_r by (rewrite length_take; lia);
                rewrite length_take, lookup_drop, Nat.min_l by lia;
                replace (m + (length l1 + m + 1 - length l1 - m))%nat
                  with (S m) by lia;
                simpl; exact Hy).
    replace (Z.of_nat (length l1 + m + 1) - 1) with (Z.of_nat (length l1 + m)) by lia.
    erewrite data_at_set_run; [|exact Ho|simpl; apply lookup_insert_eq|].
    + exists tt. eexists. split; [done|]. simpl. f_equal.
      rewrite insert_insert_eq. f_equal.
      rewrite live_cell_insert by (rewrite Hlen, length_app; simpl; lia).
      do 2 f_equal.
      rewrite (take_S_r _ _ _ Hy).
      replace (length l1 + m)%nat with (length l1 + (length (take m l2) + 0))%nat
        by (rewrite length_take; lia).
      rewrite !insert_app_r. rewrite <- app_assoc. do 2 f_equal.
      destruct (drop m (v :: l2)) as [|c rest] eqn:Hd.
      { apply (f_equal length) in Hd. rewrite length_drop in Hd. simpl in Hd. lia. }
      simpl. f_equal.
      apply (f_equal (drop 1)) in Hd. rewrite drop_drop, Nat.add_1_r in Hd. done.
    + rewrite length_app, length_fmap, Hlen, length_app. simpl. lia.
  - simpl. destruct st as [os hs]. simpl in *. f_equal.
    symmetry. by apply insert_id.
  - rewrite Hrun. by rewrite take_ge.
Qed.

Lemma remove_absent st a (l : list Z) cap v :
  valid st → contents st !! a = Some (l, cap) → v ∉ l →
  remove a v st = Some (false, st).
Proof using Type.
  intros Hv Hc Hnin. unfold remove. mrun (contains_spec _ _ _ _ v Hv Hc).
  by rewrite (bool_decide_eq_false_2 _ Hnin).
Qed.

Lemma remove_member st a (l1 l2 : list Z) cap v :
  valid st → contents st !! a = Some (l1 ++ v :: l2, cap) →
  ∃ st',
    remove a v st = Some (true, st') ∧
    valid st' ∧ contents st' = <[a := (l1 ++ l2, cap)]> (contents st).
Proof using Type.
  intros Hv Hc. unfold remove. mrun (contains_spec _ _ _ _ v Hv Hc).
  rewrite bool_decide_eq_true_2 by (apply elem_of_app; right; left).
  destruct (contents_lookup _ _ _ _ Hv Hc) as (p & junk & Ho & Hh & Hcap & Hnd & H1).
  mrun (get_obj_run _ _ _ Ho). simpl.
  apply NoDup_app in Hnd as (Hnd1 & Hdisj & Hnd2).
  apply NoDup_cons in Hnd2 as [Hv2 Hnd2].
  assert (Hv1 : v ∉ l1) by (intros Hin; apply (Hdisj _ Hin); left).
  destruct (drop_length_cons v l2) as (z & Hz & Hznil & Hzin).
  set (cells := λ k : nat,
         if (k <=? length l1)%nat then l1 ++ v :: l2
         else l1 ++ l2 ++ drop (length l2) (v :: l2)).
  destruct (for_inv
    (λ k (_ : unit) st',
       st' = mkState (objs st) (<[p := (Some <$> cells k) ++ junk]> (heap st)))
    (λ i _, do x <- data_at a i;
            if x =? v then
              for_ (i + 1) (Z.of_nat (length (l1 ++ v :: l2)))
                (λ j _, do y <- data_at a j; data_at_set a (j - 1) y) tt
            else ret tt)
    (length (l1 ++ v :: l2)) 0) with (acc := tt) (st := st)
    as ([] & st1 & Hrun & ->).
  - intros k [] st1 Hk ->. rewrite Z.add_0_l. rewrite length_app in Hk. simpl in Hk.
    assert (Hstay : ∀ x, cells k !! k = Some x → x ≠ v → cells (S k) = cells k →
      ∃ (acc' : unit) st',
        (do x <- data_at a (Z.of_nat k);
         if x =? v then
           for_ (Z.of_nat k + 1) (Z.of_nat (length (l1 ++ v :: l2)))
             (λ j _, do y <- data_at a j; data_at_set a (j - 1) y) tt
         else ret tt)
          (mkState (objs st) (<[p := (Some <$> cells k) ++ junk]> (heap st)))
        = Some (acc', st') ∧
        st' = mkState (objs st) (<[p := (Some <$> cells (S k)) ++ junk]> (heap st))).
    { intros x Hx Hne Heq.
      mstep ltac:(eapply data_at_run; [exact Ho|simpl; apply lookup_insert_eq|];
                  apply live_cell; exact Hx).
      destruct (Z.eqb_spec x v) as [?|_]; [done|].
      exists tt. eexists. split; [done|]. by rewrite Heq. }
    destruct (lt_eq_lt_dec k (length l1)) as [[Hlt|Heq]|Hgt].
    + destruct (lookup_lt_is_Some_2 l1 k Hlt) as [x Hx].
      apply (Hstay x).
      * unfold cells. destruct (Nat.leb_spec k (length l1)); [|lia].
        by rewrite lookup_app_l.
      * intros ->. apply Hv1. by eapply list_elem_of_lookup_2.
      * unfold cells. destruct (Nat.leb_spec k (length l1)); [|lia].
        destruct (Nat.leb_spec (S k) (length l1)); [done|lia].
    + subst k.
      mstep ltac:(eapply data_at_run; [exact Ho|simpl; apply lookup_insert_eq|];
                  apply live_cell; unfold cells; rewrite Nat.leb_refl;
                  apply list_lookup_middle; done).
      rewrite Z.eqb_refl.
      unfold cells at 1. rewrite Nat.leb_refl.
      erewrite shift_loop_run; [|simpl; exact Ho|simpl; apply lookup_insert_eq].
      exists tt. eexists. split; [done|]. simpl. f_equal.
      rewrite insert_insert_eq. unfold cells.
      destruct (Nat.leb_spec (S (length l1)) (length l1)); [lia|done].
    + assert (l2 ≠ []) as Hne by (intros ->; simpl in Hk; lia).
      assert (Hck : cells k = l1 ++ l2 ++ [z]).
      { unfold cells. destruct (Nat.leb_spec k (length l1)); [lia|]. by rewrite Hz. }
      assert (Hlk : (l2 ++ [z]) !! (k - length l1)%nat = Some
                      (default z ((l2 ++ [z]) !! (k - length l1)%nat))).
      { destruct (lookup_lt_is_Some_2 (l2 ++ [z]) (k - length l1)) as [x ->]; [|done].
        rewrite length_app. simpl. lia. }
      apply (Hstay (default z ((l2 ++ [z]) !! (k - length l1)%nat))).
      * rewrite Hck, lookup_app_r by lia. exact Hlk.
      * intros Heq. apply list_elem_of_lookup_2 in Hlk. rewrite Heq in Hlk.
        apply elem_of_app in Hlk as [Hin|Hin%list_elem_of_singleton]; [done|].
        subst z. by apply Hv2, Hzin.
      * unfold cells. destruct (Nat.leb_spec k (length l1)); [lia|].
        destruct (Nat.leb_spec (S k) (length l1)); [lia|done].
  - simpl. destruct st as [os hs]. simpl in *. f_equal.
    symmetry. by apply insert_id.
  - rewrite Z.add_0_l in Hrun. mrun Hrun.
    mstep ltac:(apply get_obj_run; simpl; exact Ho). simpl.
    mstep ltac:(eapply set_used_run; simpl; exact Ho). simpl.
    eexists. split; [done|].
    apply (valid_update st _ a
             (mkIntSet p cap (Z.of_nat (length (l1 ++ v :: l2)) - 1))
             (l1 ++ l2) (Some z :: junk)); simpl; try done.
    + rewrite lookup_insert_eq. f_equal. unfold cells.
      destruct (Nat.leb_spec (length (l1 ++ v :: l2)) (length l1)) as [Hle|_].
      { rewrite length_app in Hle. simpl in Hle. lia. }
      rewrite Hz, !fmap_app, <- !app_assoc. done.
    + rewrite !length_app. simpl. lia.
    + rewrite Hcap, !length_app. simpl. lia.
    + apply NoDup_app. split; [done|]. split; [|done].
      intros x Hx Hx2. apply (Hdisj x Hx). by right.
    + intros b ob Hb Hob. pose proof (other_data _ _ _ _ _ Hv Ho Hb Hob) as Hd.
      simpl in Hd. split; [done|]. by rewrite lookup_insert_ne.
Qed.

(** ** Construction, copy, assignment, reset *)

Lemma IntSet_ctor_spec st c :
  valid st →
  ∃ a st',
    IntSet_ctor DEFAULT_CAPACITY c st = Some (a, st') ∧
    objs st !! a = None ∧
    valid st' ∧
    contents st' = <[a := ([], if c <? 1 then DEFAULT_CAPACITY else c)]> (contents st).
Proof.
  intros Hv. unfold IntSet_ctor.
  set (cap := if c <? 1 then DEFAULT_CAPACITY else c).
  assert (Hcap : 1 ≤ cap) by (subst cap; destruct (Z.ltb_spec c 1); lia).
  mstep ltac:(by apply new_array_run; lia). simpl.
  pose proof (fresh_heap st) as Hq. set (q := fresh (dom (heap st))) in *.
  unfold new_obj. simpl.
  pose proof (fresh_objs st) as Ha. set (a := fresh (dom (objs st))) in *.
  exists a. eexists. split; [done|]. split; [done|].
  apply (valid_update st _ a (mkIntSet q cap 0) [] (replicate (Z.to_nat cap) None));
    simpl; try done.
  - by rewrite lookup_insert_eq.
  - rewrite length_replicate. lia.
  - apply NoDup_nil_2.
  - intros b ob Hb Hob. pose proof (data_not_fresh _ _ _ Hv Hob).
    split; [done|]. by rewrite lookup_insert_ne.
Qed.

Lemma IntSet_copy_spec st src (l : list Z) cap :
  valid st → contents st !! src = Some (l, cap) →
  ∃ a st',
    IntSet_copy src st = Some (a, st') ∧
    objs st !! a = None ∧
    valid st' ∧
    contents st' = <[a := (l, cap)]> (contents st).
Proof using Type.
  intros Hv Hc.
  destruct (contents_lookup _ _ _ _ Hv Hc) as (p & junk & Ho & Hh & Hcap & Hnd & H1).
  unfold IntSet_copy. mrun (get_obj_run _ _ _ Ho). simpl.
  mstep ltac:(by apply new_array_run; lia). simpl.
  pose proof (fresh_heap st) as Hq. set (q := fresh (dom (heap st))) in *.
  assert (Hpq : p ≠ q) by congruence.
  mstep ltac:(apply new_obj_run). simpl.
  pose proof (fresh_objs st) as Ha. set (a := fresh (dom (objs st))) in *.
  assert (Hsa : src ≠ a) by congruence.
  mstep ltac:(apply (copy_loop_run _ src p q cap l junk (replicate (Z.to_nat cap) None)
                       (data_at_set a));
              simpl; rewrite ?length_replicate; first [mlookup | lia | idtac]).
  - eexists a, _. split; [done|]. split; [done|].
    apply (valid_update st _ a (mkIntSet q cap (Z.of_nat (length l))) l
             (drop (length l) (replicate (Z.to_nat cap) None))); simpl; try done.
    + by rewrite insert_insert_eq, lookup_insert_eq.
    + rewrite length_drop, length_replicate. lia.
    + intros b ob Hb Hob. pose proof (data_not_fresh _ _ _ Hv Hob).
      split; [done|]. by rewrite !lookup_insert_ne.
  - intros st' i x Hobjs. unfold data_at_set.
    mstep ltac:(apply get_obj_run; rewrite Hobjs; apply lookup_insert_eq). done.
Qed.

Lemma assign_self st a : assign a a st = Some (a, st).
Proof using Type. unfold assign. by rewrite Pos.eqb_refl. Qed.

Lemma assign_other st this rhs (lt lr : list Z) ct cr :
  this ≠ rhs →
  valid st → contents st !! this = Some (lt, ct) → contents st !! rhs = Some (lr, cr) →
  ∃ st',
    assign this rhs st = Some (this, st') ∧
    (valid st' ∧ contents st' = <[this := (lr, cr)]> (contents st)) ∧
    (∃ q cells,
       heap st !! q = None ∧
       objs st' !! this = Some (mkIntSet q cr (Z.of_nat (length lr))) ∧
       heap st' !! q = Some cells ∧ Z.of_nat (length cells) = cr) ∧
    (∀ ot, objs st !! this = Some ot → heap st' !! data ot = None).
Proof using Type.
  intros Hne Hv Hct Hcr.
  destruct (contents_lookup _ _ _ _ Hv Hct) as (pt & jt & Hot & Hht & Hcapt & Hndt & H1t).
  destruct (contents_lookup _ _ _ _ Hv Hcr) as (pr & jr & Hor & Hhr & Hcapr & Hndr & H1r).
  unfold assign. destruct (Pos.eqb_spec this rhs) as [?|_]; [done|]. simpl.
  mrun (get_obj_run _ _ _ Hor). simpl.
  mstep ltac:(by apply new_array_run; lia). simpl.
  pose proof (fresh_heap st) as Hq. set (q := fresh (dom (heap st))) in *.
  assert (Hprq : pr ≠ q) by congruence.
  assert (Hptq : pt ≠ q) by congruence.
  pose proof (other_data _ _ _ _ _ Hv Hot (not_eq_sym Hne) Hor) as Hptr. simpl in Hptr.
  mstep ltac:(apply (copy_loop_run _ rhs pr q cr lr jr (replicate (Z.to_nat cr) None)
                       (store q));
              simpl; rewrite ?length_replicate; first [mlookup | lia]).
  mstep ltac:(apply get_obj_run; simpl; exact Hot). simpl.
  mstep ltac:(eapply delete_array_run; simpl; rewrite !lookup_insert_ne by done; exact Hht).
  simpl.
  mstep ltac:(eapply set_data_run; simpl; exact Hot). simpl.
  mstep ltac:(apply get_obj_run; simpl; rewrite lookup_insert_ne by done; exact Hor).
  simpl.
  mstep ltac:(eapply set_capacity_run; simpl; apply lookup_insert_eq). simpl.
  mstep ltac:(apply get_obj_run; simpl; rewrite !lookup_insert_ne by done; exact Hor).
  simpl.
  mstep ltac:(eapply set_used_run; simpl; apply lookup_insert_eq). simpl.
  eexists. split; [done|]. split; [|split].
  - apply (valid_update st _ this (mkIntSet q cr (Z.of_nat (length lr))) lr
             (drop (length lr) (replicate (Z.to_nat cr) None))); simpl; try done.
    + by rewrite !insert_insert_eq.
    + rewrite lookup_delete_ne by done. by rewrite lookup_insert_eq.
    + rewrite length_drop, length_replicate. lia.
    + intros b ob Hb Hob. pose proof (data_not_fresh _ _ _ Hv Hob).
      pose proof (other_data _ _ _ _ _ Hv Hot Hb Hob) as Hd. simpl in Hd.
      split; [done|]. rewrite lookup_delete_ne by done. by rewrite !lookup_insert_ne.
  - exists q, ((Some <$> lr) ++ drop (length lr) (replicate (Z.to_nat cr) None)).
    simpl. split; [done|]. split; [by rewrite lookup_insert_eq|]. split.
    + rewrite lookup_delete_ne by done. by rewrite lookup_insert_eq.
    + rewrite length_app, length_fmap, length_drop, length_replicate. lia.
  - intros ot Hot'. rewrite Hot in Hot'. injection Hot' as <-. simpl.
    apply lookup_delete_eq.
Qed.

Lemma reset_spec st a (l : list Z) cap :
  valid st → contents st !! a = Some (l, cap) →
  ∃ st',
    reset a st = Some (tt, st') ∧
    valid st' ∧ contents st' = <[a := ([], cap)]> (contents st).
Proof using Type.
  intros Hv Hc.
  destruct (contents_lookup _ _ _ _ Hv Hc) as (p & junk & Ho & Hh & Hcap & Hnd & H1).
  unfold reset. erewrite set_used_run by exact Ho. simpl.
  eexists. split; [done|].
  apply (valid_update st _ a (mkIntSet p cap 0) [] ((Some <$> l) ++ junk));
    simpl; try done.
  - rewrite length_app, length_fmap. lia.
  - apply NoDup_nil_2.
  - intros b ob Hb Hob. pose proof (other_data _ _ _ _ _ Hv Ho Hb Hob) as Hd.
    simpl in Hd. done.
Qed.

(** The destructor releases the array and ends the object; every other
    set is as before. *)
Lemma IntSet_dtor_spec st a (l : list Z) cap :
  valid st → contents st !! a = Some (l, cap) →
  ∃ st',
    IntSet_dtor a st = Some (tt, st') ∧
    valid st' ∧ contents st' = delete a (contents st).
Proof using Type.
  intros Hv Hc.
  destruct (contents_lookup _ _ _ _ Hv Hc) as (p & junk & Ho & Hh & _).
  unfold IntSet_dtor. mrun (get_obj_run _ _ _ Ho). simpl.
  mstep ltac:(eapply delete_array_run; exact Hh).
  unfold delete_obj. simpl. rewrite Ho.
  eexists. split; [done|]. split; [split|]; simpl.
  - intros b ob Hb. destruct (decide (b = a)) as [->|Hne].
    { by rewrite lookup_delete_eq in Hb. }
    rewrite lookup_delete_ne in Hb by done.
    pose proof (other_data _ _ _ _ _ Hv Ho Hne Hb) as Hd. simpl in Hd.
    destruct Hv as [Hinv _]. destruct (Hinv _ _ Hb) as (lb & jb & Hhb & Hrest).
    exists lb, jb. split; [|done]. by rewrite lookup_delete_ne.
  - intros b c ob oc Hb Hc'. destruct Hv as [_ Hown].
    destruct (decide (b = a)) as [->|Hb']; [by rewrite lookup_delete_eq in Hb|].
    destruct (decide (c = a)) as [->|Hc'']; [by rewrite lookup_delete_eq in Hc'|].
    rewrite lookup_delete_ne in Hb, Hc' by done. by eapply Hown.
  - apply map_eq. intros b. unfold contents. rewrite lookup_omap. simpl.
    destruct (decide (b = a)) as [->|Hne].
    { by rewrite !lookup_delete_eq. }
    rewrite !lookup_delete_ne by done. rewrite lookup_omap.
    destruct (objs st !! b) as [ob|] eqn:Hb; [|done]. simpl.
    pose proof (other_data _ _ _ _ _ Hv Ho Hne Hb) as Hd. simpl in Hd.
    unfold live_of. by rewrite lookup_delete_ne.
Qed.

(** ** Facts about [filter] used for the set algebra *)

Lemma filter_ext_in (P Q : Z → Prop) `{∀ x, Decision (P x)} `{∀ x, Decision (Q x)}
    (l : list Z) :
  (∀ x, x ∈ l → (P x ↔ Q x)) → filter P l = filter Q l.
Proof using Type.
  induction l as [|x l IH]; intros Hext; [done|].
  rewrite !filter_cons.
  rewrite IH by (intros y Hy; apply Hext; by right).
  destruct (decide (P x)) as [HP|HP], (decide (Q x)) as [HQ|HQ]; try done.
  - destruct HQ. apply Hext; [left|done].
  - destruct HP. apply Hext; [left|done].
Qed.

Lemma filter_all (P : Z → Prop) `{∀ x, Decision (P x)} (l : list Z) :
  (∀ x, x ∈ l → P x) → filter P l = l.
Proof using Type.
  induction l as [|x l IH]; intros HP; [done|].
  rewrite filter_cons_True by (apply HP; left).
  rewrite IH; [done|]. intros y Hy. apply HP. by right.
Qed.

Lemma filter_remove_one (l1 l2 : list Z) v :
  NoDup (l1 ++ v :: l2) → filter (λ x, x ≠ v) (l1 ++ v :: l2) = l1 ++ l2.
Proof using Type.
  intros (Hnd1 & Hdisj & [Hv2 Hnd2]%NoDup_cons)%NoDup_app.
  rewrite filter_app, filter_cons_False by (intros Hne; by apply Hne).
  rewrite !filter_all; [done| |].
  - intros x Hx ->. done.
  - intros x Hx ->. apply (Hdisj v Hx). left.
Qed.

Lemma NoDup_lookup_take (l : list Z) k x :
  NoDup l → l !! k = Some x → x ∉ take k l.
Proof using Type.
  intros Hnd Hk [j Hj]%list_elem_of_lookup.
  apply lookup_take_Some in Hj as [Hj Hlt].
  pose proof (NoDup_lookup _ _ _ _ Hnd Hj Hk). lia.
Qed.

(** [remove] in one statement. *)
Lemma remove_spec st a (l : list Z) cap v :
  valid st → contents st !! a = Some (l, cap) →
  ∃ st',
    remove a v st = Some (bool_decide (v ∈ l), st') ∧
    valid st' ∧
    contents st' = <[a := (filter (λ x, x ≠ v) l, cap)]> (contents st).
Proof using Type.
  intros Hv Hc. destruct (decide (v ∈ l)) as [Hin|Hnin].
  - rewrite (bool_decide_eq_true_2 _ Hin).
    destruct (list_elem_of_split _ _ Hin) as (l1 & l2 & ->).
    destruct (remove_member st a l1 l2 cap v Hv Hc) as (st' & Hrun & Hv' & Hc').
    exists st'. split; [done|]. split; [done|].
    rewrite filter_remove_one; [done|].
    by destruct (contents_lookup _ _ _ _ Hv Hc) as (? & ? & _ & _ & _ & ? & _).
  - rewrite (bool_decide_eq_false_2 _ Hnin).
    exists st. split; [by eapply remove_absent|]. split; [done|].
    rewrite filter_all by (intros x Hx ->; done).
    symmetry. by apply insert_id.
Qed.

(** [add] in one statement. *)
Lemma add_spec st a (l : list Z) cap v :
  valid st → contents st !! a = Some (l, cap) →
  v ∈ l ∨ Z.of_nat (length l) < cap ∨ cap ≤ GROWABLE →
  ∃ st' cap',
    add DEFAULT_CAPACITY a v st = Some (negb (bool_decide (v ∈ l)), st') ∧
    valid st' ∧
    contents st' = <[a := (if bool_decide (v ∈ l) then l else l ++ [v], cap')]>
                     (contents st) ∧
    cap ≤ cap'.
Proof using Type.
  intros Hv Hc Hfit. destruct (decide (v ∈ l)) as [Hin|Hnin].
  - rewrite (bool_decide_eq_true_2 _ Hin).
    exists st, cap. split; [by eapply add_member|]. split; [done|].
    split; [|lia]. symmetry. by apply insert_id.
  - rewrite (bool_decide_eq_false_2 _ Hnin).
    destruct (add_new st a l cap v Hv Hc Hnin) as (st' & Hrun & Hv' & Hc'); [tauto|].
    exists st', (if cap <=? Z.of_nat (length l) then grown_value cap else cap).
    split_and!; [done..|].
    destruct (contents_lookup _ _ _ _ Hv Hc) as (p & junk & _ & _ & _ & _ & H1).
    pose proof (grown_value_gt cap ltac:(lia)).
    destruct (cap <=? Z.of_nat (length l)); lia.
Qed.

(** Whenever [add] returns, it has done what [add_spec] says. *)
Lemma add_returns st a (l : list Z) cap v r st' :
  valid st → contents st !! a = Some (l, cap) →
  add DEFAULT_CAPACITY a v st = Some (r, st') →
  r = negb (bool_decide (v ∈ l)) ∧ valid st' ∧
  ∃ cap',
    contents st' = <[a := (if bool_decide (v ∈ l) then l else l ++ [v], cap')]>
                     (contents st) ∧
    cap ≤ cap'.
Proof using Type.
  intros Hv Hc Hadd.
  destruct (decide (v ∈ l ∨ Z.of_nat (length l) < cap ∨ cap ≤ GROWABLE)) as [Hfit|Hno].
  - destruct (add_spec st a l cap v Hv Hc Hfit) as (st2 & cap2 & Hrun & Hv2 & Hc2 & Hle).
    rewrite Hrun in Hadd. injection Hadd as <- <-. eauto.
  - rewrite (add_overflow st a l cap v Hv Hc) in Hadd; [done|tauto|lia|lia].
Qed.

(** ** The set algebra *)

Lemma fresh_ne st r b x :
  objs st !! r = None → contents st !! b = Some x → b ≠ r.
Proof using Type.
  intros Hr Hb ->. apply contents_objs in Hb as [o Ho]. congruence.
Qed.

Lemma filter_take_length (P : Z → Prop) `{∀ x, Decision (P x)} (l : list Z) n :
  (length (filter P (take n l)) ≤ length (filter P l))%nat.
Proof using Type.
  rewrite <- (take_drop n l) at 2. rewrite filter_app, length_app. lia.
Qed.

Lemma unionWith_run st a b (la lb : list Z) ca cb :
  valid st → contents st !! a = Some (la, ca) → contents st !! b = Some (lb, cb) →
  Z.of_nat (length (la ++ filter (λ x, x ∉ la) lb)) ≤ Z.max ca (GROWABLE + 1) →
  ∃ r st' cr,
    unionWith DEFAULT_CAPACITY a b st = Some (r, st') ∧
    objs st !! r = None ∧
    valid st' ∧
    contents st' = <[r := (la ++ filter (λ x, x ∉ la) lb, cr)]> (contents st) ∧
    ca ≤ cr.
Proof using Type.
  intros Hv Ha Hb Hfit.
  destruct (IntSet_copy_spec st a la ca Hv Ha) as (r & st1 & Hcopy & Hr & Hv1 & Hc1).
  pose proof (fresh_ne _ _ _ _ Hr Hb) as Hbr.
  assert (Hndb : NoDup lb)
    by (by destruct (contents_lookup _ _ _ _ Hv Hb) as (? & ? & _ & _ & _ & ? & _)).
  unfold unionWith. mrun Hcopy.
  assert (Hb1 : contents st1 !! b = Some (lb, cb)) by (by rewrite Hc1, lookup_insert_ne).
  mrun (size_spec _ _ _ _ Hv1 Hb1).
  destruct (for_inv
    (λ k (_ : unit) st',
       valid st' ∧
       ∃ c, ca ≤ c ∧
            contents st' =
              <[r := (la ++ filter (λ x, x ∉ la) (take k lb), c)]> (contents st))
    (λ i _, do x <- data_at b i;
            do c <- contains r x;
            if negb c then (do x <- data_at b i; add DEFAULT_CAPACITY r x;; ret tt)
            else ret tt)
    (length lb) 0) with (acc := tt) (st := st1)
    as ([] & st2 & Hrun & Hv2 & c2 & Hle2 & Hc2).
  - intros k [] st' Hk (Hv' & c & Hle & Hc'). rewrite Z.add_0_l.
    destruct (lookup_lt_is_Some_2 lb k Hk) as [x Hx].
    assert (Hb' : contents st' !! b = Some (lb, cb)) by (by rewrite Hc', lookup_insert_ne).
    assert (Hr' : contents st' !! r
                  = Some (la ++ filter (λ x, x ∉ la) (take k lb), c))
      by (by rewrite Hc', lookup_insert_eq).
    mrun (data_at_spec _ _ _ _ _ _ Hv' Hb' Hx).
    mrun (contains_spec _ _ _ _ x Hv' Hr').
    pose proof (NoDup_lookup_take _ _ _ Hndb Hx) as Hxk.
    rewrite (take_S_r _ _ _ Hx), filter_app.
    destruct (decide (x ∈ la)) as [Hin|Hnin].
    + rewrite bool_decide_eq_true_2 by (apply elem_of_app; by left). simpl.
      exists tt, st'. split; [done|]. split; [done|]. exists c. split; [done|].
      rewrite (filter_singleton_False _ x []) by (intros Hn; by apply Hn).
      by rewrite app_nil_r.
    + rewrite bool_decide_eq_false_2; cycle 1.
      { intros [?|[_ ?]%list_elem_of_filter]%elem_of_app; done. }
      simpl.
      mrun (data_at_spec _ _ _ _ _ _ Hv' Hb' Hx).
      destruct (add_new st' r _ c x Hv' Hr') as (st'' & Hadd & Hv'' & Hc'').
      { intros [?|[_ ?]%list_elem_of_filter]%elem_of_app; done. }
      { pose proof (filter_take_length (λ x, x ∉ la) lb (S k)) as Hlen.
        rewrite (take_S_r _ _ _ Hx), filter_app in Hlen.
        rewrite (filter_singleton_True _ x []) in Hlen by done.
        rewrite !length_app in Hfit, Hlen |- *. simpl in Hlen. lia. }
      mrun Hadd.
      exists tt, st''. split; [done|]. split; [done|]. eexists.
      split; [|rewrite Hc'', Hc', insert_insert_eq;
               rewrite (filter_singleton_True _ x []) by done;
               by rewrite <- app_assoc].
      pose proof (grown_value_gt c).
      destruct (contents_lookup _ _ _ _ Hv' Hr') as (? & ? & _ & _ & _ & _ & ?).
      destruct (c <=? _); lia.
  - split; [done|]. exists ca. split; [lia|]. by rewrite app_nil_r.
  - rewrite Z.add_0_l in Hrun. mrun Hrun.
    exists r, st2, c2. split; [done|]. split; [done|]. split; [done|].
    split; [|done]. by rewrite Hc2, take_ge.
Qed.

Lemma unionWith_spec st a b (la lb : list Z) ca cb :
  valid st → contents st !! a = Some (la, ca) → contents st !! b = Some (lb, cb) →
  Z.of_nat (length (la ++ filter (λ x, x ∉ la) lb)) ≤ Z.max ca (GROWABLE + 1) →
  ∃ r st' cr,
    unionWith DEFAULT_CAPACITY a b st = Some (r, st') ∧
    objs st !! r = None ∧
    valid st' ∧
    contents st' = <[r := (la ++ filter (λ x, x ∉ la) lb, cr)]> (contents st).
Proof using Type.
  intros Hv Ha Hb Hfit.
  destruct (unionWith_run st a b la lb ca cb Hv Ha Hb Hfit)
    as (r & st' & cr & ? & ? & ? & ? & _).
  by exists r, st', cr.
Qed.

(** Whenever [unionWith] returns, it has built the union. *)
Lemma unionWith_returns st a b (la lb : list Z) ca cb r st' :
  valid st → contents st !! a = Some (la, ca) → contents st !! b = Some (lb, cb) →
  unionWith DEFAULT_CAPACITY a b st = Some (r, st') →
  objs st !! r = None ∧ valid st' ∧
  ∃ cr, contents st' = <[r := (la ++ filter (λ x, x ∉ la) lb, cr)]> (contents st).
Proof using Type.
  intros Hv Ha Hb.
  destruct (IntSet_copy_spec st a la ca Hv Ha) as (r1 & st1 & Hcopy & Hr & Hv1 & Hc1).
  pose proof (fresh_ne _ _ _ _ Hr Hb) as Hbr.
  assert (Hndb : NoDup lb)
    by (by destruct (contents_lookup _ _ _ _ Hv Hb) as (? & ? & _ & _ & _ & ? & _)).
  unfold unionWith. mrun Hcopy.
  assert (Hb1 : contents st1 !! b = Some (lb, cb)) by (by rewrite Hc1, lookup_insert_ne).
  mrun (size_spec _ _ _ _ Hv1 Hb1).
  intros ([] & st2 & Hloop & [= <- <-])%bind_inv.
  rewrite <- (Z.add_0_l (Z.of_nat (length lb))) in Hloop.
  apply (for_returns
    (λ k (_ : unit) st',
       valid st' ∧
       ∃ c, contents st' =
              <[r1 := (la ++ filter (λ x, x ∉ la) (take k lb), c)]> (contents st)))
    in Hloop.
  - destruct Hloop as (Hv2 & c2 & Hc2). split; [done|]. split; [done|].
    exists c2. by rewrite Hc2, take_ge.
  - intros k [] s [] s' Hk (Hv' & c & Hc'). rewrite Z.add_0_l.
    destruct (lookup_lt_is_Some_2 lb k Hk) as [x Hx].
    assert (Hb' : contents s !! b = Some (lb, cb)) by (by rewrite Hc', lookup_insert_ne).
    assert (Hr' : contents s !! r1
                  = Some (la ++ filter (λ x, x ∉ la) (take k lb), c))
      by (by rewrite Hc', lookup_insert_eq).
    mrun (data_at_spec _ _ _ _ _ _ Hv' Hb' Hx).
    mrun (contains_spec _ _ _ _ x Hv' Hr').
    pose proof (NoDup_lookup_take _ _ _ Hndb Hx) as Hxk.
    rewrite (take_S_r _ _ _ Hx), filter_app.
    destruct (decide (x ∈ la)) as [Hin|Hnin].
    + rewrite bool_decide_eq_true_2 by (apply elem_of_app; by left). simpl.
      intros [= <-]. split; [done|]. exists c.
      rewrite (filter_singleton_False _ x []) by (intros Hn; by apply Hn).
      by rewrite app_nil_r.
    + assert (Hnew : x ∉ la ++ filter (λ x, x ∉ la) (take k lb)).
      { intros [?|[_ ?]%list_elem_of_filter]%elem_of_app; done. }
      rewrite bool_decide_eq_false_2 by done. simpl.
      mrun (data_at_spec _ _ _ _ _ _ Hv' Hb' Hx).
      intros (res & s1 & Hadd & [= <-])%bind_inv.
      apply (add_returns _ _ _ _ _ _ _ Hv' Hr') in Hadd as (_ & Hv'' & c' & Hc'' & _).
      rewrite bool_decide_eq_false_2 in Hc'' by done.
      split; [done|]. exists c'.
      rewrite Hc'', Hc', insert_insert_eq.
      rewrite (filter_singleton_True _ x []) by done.
      by rewrite <- app_assoc.
  - split; [done|]. exists ca. by rewrite app_nil_r.
Qed.

Lemma intersect_spec st a b (la lb : list Z) ca cb :
  valid st → contents st !! a = Some (la, ca) → contents st !! b = Some (lb, cb) →
  ∃ r st',
    intersect a b st = Some (r, st') ∧
    objs st !! r = None ∧
    valid st' ∧
    contents st' = <[r := (filter (λ x, x ∈ lb) la, ca)]> (contents st).
Proof using Type.
  intros Hv Ha Hb.
  destruct (IntSet_copy_spec st a la ca Hv Ha) as (r & st1 & Hcopy & Hr & Hv1 & Hc1).
  pose proof (fresh_ne _ _ _ _ Hr Hb) as Hbr.
  pose proof (fresh_ne _ _ _ _ Hr Ha) as Har.
  unfold intersect. mrun Hcopy.
  assert (Ha1 : contents st1 !! a = Some (la, ca)) by (by rewrite Hc1, lookup_insert_ne).
  mrun (size_spec _ _ _ _ Hv1 Ha1).
  destruct (for_inv
    (λ k (_ : unit) st',
       valid st' ∧
       contents st' =
         <[r := (filter (λ y, y ∈ lb ∨ y ∉ take k la) la, ca)]> (contents st))
    (λ i _, do x <- data_at a i;
            do c <- contains b x;
            if negb c then (do x <- data_at a i; remove r x;; ret tt)
            else ret tt)
    (length la) 0) with (acc := tt) (st := st1)
    as ([] & st2 & Hrun & Hv2 & Hc2).
  - intros k [] st' Hk (Hv' & Hc'). rewrite Z.add_0_l.
    destruct (lookup_lt_is_Some_2 la k Hk) as [x Hx].
    assert (Ha' : contents st' !! a = Some (la, ca)) by (by rewrite Hc', lookup_insert_ne).
    assert (Hb' : contents st' !! b = Some (lb, cb)) by (by rewrite Hc', lookup_insert_ne).
    assert (Hr' : contents st' !! r
                  = Some (filter (λ y, y ∈ lb ∨ y ∉ take k la) la, ca))
      by (by rewrite Hc', lookup_insert_eq).
    mrun (data_at_spec _ _ _ _ _ _ Hv' Ha' Hx).
    mrun (contains_spec _ _ _ _ x Hv' Hb').
    destruct (decide (x ∈ lb)) as [Hin|Hnin].
    + rewrite (bool_decide_eq_true_2 _ Hin). simpl.
      exists tt, st'. split; [done|]. split; [done|].
      rewrite Hc'. do 2 f_equal. apply filter_ext_in. intros y Hy.
      rewrite (take_S_r _ _ _ Hx), elem_of_app, list_elem_of_singleton.
      destruct (decide (y = x)) as [->|?]; [tauto|]. tauto.
    + rewrite (bool_decide_eq_false_2 _ Hnin). simpl.
      mrun (data_at_spec _ _ _ _ _ _ Hv' Ha' Hx).
      destruct (remove_spec st' r _ ca x Hv' Hr') as (st'' & Hrm & Hv'' & Hc'').
      mrun Hrm.
      exists tt, st''. split; [done|]. split; [done|].
      rewrite Hc'', Hc', insert_insert_eq. do 2 f_equal.
      rewrite list_filter_filter. apply filter_ext_in. intros y Hy.
      rewrite (take_S_r _ _ _ Hx), elem_of_app, list_elem_of_singleton.
      destruct (decide (y = x)) as [->|?]; tauto.
  - split; [done|]. rewrite Hc1. do 2 f_equal. symmetry. apply filter_all.
    intros y _. right. apply not_elem_of_nil.
  - rewrite Z.add_0_l in Hrun. mrun Hrun.
    exists r, st2. split; [done|]. split; [done|]. split; [done|].
    rewrite Hc2. do 2 f_equal. apply filter_ext_in. intros y Hy.
    rewrite take_ge by done. tauto.
Qed.

Lemma subtract_spec st a b (la lb : list Z) ca cb :
  valid st → contents st !! a = Some (la, ca) → contents st !! b = Some (lb, cb) →
  ∃ r st',
    subtract a b st = Some (r, st') ∧
    objs st !! r = None ∧
    valid st' ∧
    contents st' = <[r := (filter (λ x, x ∉ lb) la, ca)]> (contents st).
Proof using Type.
  intros Hv Ha Hb.
  destruct (IntSet_copy_spec st a la ca Hv Ha) as (r & st1 & Hcopy & Hr & Hv1 & Hc1).
  pose proof (fresh_ne _ _ _ _ Hr Hb) as Hbr.
  unfold subtract. mrun Hcopy.
  assert (Hb1 : contents st1 !! b = Some (lb, cb)) by (by rewrite Hc1, lookup_insert_ne).
  mrun (size_spec _ _ _ _ Hv1 Hb1).
  destruct (for_inv
    (λ k (_ : unit) st',
       valid st' ∧
       contents st' =
         <[r := (filter (λ y, y ∉ take k lb) la, ca)]> (contents st))
    (λ i _, do x <- data_at b i;
            do c <- contains r x;
            if c then (do x <- data_at b i; remove r x;; ret tt)
            else ret tt)
    (length lb) 0) with (acc := tt) (st := st1)
    as ([] & st2 & Hrun & Hv2 & Hc2).
  - intros k [] st' Hk (Hv' & Hc'). rewrite Z.add_0_l.
    destruct (lookup_lt_is_Some_2 lb k Hk) as [x Hx].
    assert (Hb' : contents st' !! b = Some (lb, cb)) by (by rewrite Hc', lookup_insert_ne).
    assert (Hr' : contents st' !! r = Some (filter (λ y, y ∉ take k lb) la, ca))
      by (by rewrite Hc', lookup_insert_eq).
    mrun (data_at_spec _ _ _ _ _ _ Hv' Hb' Hx).
    mrun (contains_spec _ _ _ _ x Hv' Hr').
    destruct (decide (x ∈ filter (λ y, y ∉ take k lb) la)) as [Hin|Hnin].
    + rewrite (bool_decide_eq_true_2 _ Hin).
      mrun (data_at_spec _ _ _ _ _ _ Hv' Hb' Hx).
      destruct (remove_spec st' r _ ca x Hv' Hr') as (st'' & Hrm & Hv'' & Hc'').
      mrun Hrm.
      exists tt, st''. split; [done|]. split; [done|].
      rewrite Hc'', Hc', insert_insert_eq. do 2 f_equal.
      rewrite list_filter_filter. apply filter_ext_in. intros y Hy.
      rewrite (take_S_r _ _ _ Hx), elem_of_app, list_elem_of_singleton. tauto.
    + rewrite (bool_decide_eq_false_2 _ Hnin).
      exists tt, st'. split; [done|]. split; [done|].
      rewrite Hc'. do 2 f_equal. apply filter_ext_in. intros y Hy.
      rewrite (take_S_r _ _ _ Hx), elem_of_app, list_elem_of_singleton.
      rewrite list_elem_of_filter in Hnin.
      destruct (decide (y = x)) as [->|?]; tauto.
  - split; [done|]. rewrite Hc1. do 2 f_equal. symmetry. apply filter_all.
    intros y _. apply not_elem_of_nil.
  - rewrite Z.add_0_l in Hrun. mrun Hrun.
    exists r, st2. split; [done|]. split; [done|]. split; [done|].
    rewrite Hc2. by rewrite take_ge by done.
Qed.

(** ** DumpData *)

Lemma append_assoc (s1 s2 s3 : string) : (s1 +:+ s2) +:+ s3 = s1 +:+ (s2 +:+ s3).
Proof using Type.
  induction s1 as [|c s1 IH]; [done|].
  change (String c ((s1 +:+ s2) +:+ s3) = String c (s1 +:+ (s2 +:+ s3))).
  by rewrite IH.
Qed.

Lemma append_nil_r (s : string) : s +:+ EmptyString = s.
Proof using Type.
  induction s as [|c s IH]; [done|].
  change (String c (s +:+ EmptyString) = String c s). by rewrite IH.
Qed.

Lemma concat_snoc sep (x : string) (l : list string) y :
  String.concat sep ((x :: l) ++ [y]) = String.concat sep (x :: l) +:+ sep +:+ y.
Proof using Type.
  revert x. induction l as [|z l IH]; intros x; [done|].
  change (String.concat sep ((x :: z :: l) ++ [y]))
    with (x +:+ sep +:+ String.concat sep ((z :: l) ++ [y])).
  rewrite IH.
  change (String.concat sep (x :: z :: l)) with (x +:+ sep +:+ String.concat sep (z :: l)).
  by rewrite !append_assoc.
Qed.

Lemma DumpData_spec st a (l : list Z) cap out :
  valid st → contents st !! a = Some (l, cap) →
  DumpData a out st = Some (out +:+ dump_string l, st).
Proof using Type.
  intros Hv Hc.
  destruct (contents_lookup _ _ _ _ Hv Hc) as (p & junk & Ho & Hh & _).
  unfold DumpData. mrun (get_obj_run _ _ _ Ho). simpl.
  destruct l as [|x0 l]; [by rewrite append_nil_r|].
  destruct (Z.ltb_spec 0 (Z.of_nat (length (x0 :: l)))) as [_|Hle]; [|simpl in Hle; lia].
  mrun (data_at_spec st a (x0 :: l) cap O x0 Hv Hc eq_refl).
  destruct (for_inv
    (λ k acc st',
       st' = st ∧ acc = out +:+ dump_string (take (S k) (x0 :: l)))
    (λ i out, do x <- data_at a i; ret (out +:+ "  " +:+ pretty x))
    (length l) 1) with (acc := out +:+ pretty x0) (st := st)
    as (acc & st' & Hrun & -> & ->).
  - intros k acc st' Hk [-> ->].
    destruct (lookup_lt_is_Some_2 l k Hk) as [x Hx].
    replace (1 + Z.of_nat k) with (Z.of_nat (S k)) by lia.
    mrun (data_at_spec st a (x0 :: l) cap (S k) x Hv Hc Hx).
    eexists _, st. split; [done|]. split; [done|].
    rewrite (take_S_r (x0 :: l) (S k) x Hx).
    change (take (S k) (x0 :: l)) with (x0 :: take k l).
    unfold dump_string. rewrite fmap_app.
    change (pretty <$> x0 :: take k l) with (pretty x0 :: (pretty <$> take k l)).
    change (pretty <$> [x]) with [pretty x].
    rewrite concat_snoc. by rewrite !append_assoc.
  - split; [done|]. simpl. by rewrite take_0.
  - replace (Z.of_nat (length (x0 :: l))) with (1 + Z.of_nat (length l))
      by (simpl; lia).
    rewrite Hrun. by rewrite take_ge by (simpl; lia).
Qed.

(** ** Sequences of calls *)

Lemma add_all_spec st a (l : list Z) cap vs :
  valid st → contents st !! a = Some (l, cap) → NoDup (l ++ vs) →
  Z.of_nat (length (l ++ vs)) ≤ Z.max cap (GROWABLE + 1) →
  ∃ st' cap',
    add_all DEFAULT_CAPACITY a vs st = Some (tt, st') ∧
    valid st' ∧ contents st' = <[a := (l ++ vs, cap')]> (contents st) ∧
    cap ≤ cap'.
Proof using Type.
  revert st l cap. induction vs as [|v vs IH]; intros st l cap Hv Hc Hnd Hfit.
  - exists st, cap. split; [done|]. split; [done|]. split; [|lia].
    rewrite app_nil_r. symmetry. by apply insert_id.
  - assert (Hnin : v ∉ l).
    { apply NoDup_app in Hnd as (_ & Hdisj & _). intros Hin.
      apply (Hdisj _ Hin). left. }
    rewrite length_app in Hfit. simpl in Hfit.
    destruct (add_spec st a l cap v Hv Hc) as (st1 & cap1 & Hadd & Hv1 & Hc1 & Hle1);
      [lia|].
    rewrite (bool_decide_eq_false_2 _ Hnin) in Hadd, Hc1.
    simpl. mrun Hadd.
    destruct (IH st1 (l ++ [v]) cap1)
      as (st2 & cap2 & Hrun & Hv2 & Hc2 & Hle2);
      [done|by rewrite Hc1, lookup_insert_eq|by rewrite <- app_assoc| |].
    { rewrite !length_app. simpl. lia. }
    exists st2, cap2. split; [done|]. split; [done|]. split; [|lia].
    by rewrite Hc2, Hc1, insert_insert_eq, <- app_assoc.
Qed.

Lemma build_spec st vs :
  valid st → NoDup vs →
  Z.of_nat (length vs) ≤ Z.max DEFAULT_CAPACITY (GROWABLE + 1) →
  ∃ a st' cap,
    build DEFAULT_CAPACITY vs st = Some (a, st') ∧
    objs st !! a = None ∧
    valid st' ∧ contents st' = <[a := (vs, cap)]> (contents st).
Proof.
  intros Hv Hnd Hfit. unfold build.
  destruct (IntSet_ctor_spec st DEFAULT_CAPACITY Hv) as (a & st1 & Hctor & Ha & Hv1 & Hc1).
  mrun Hctor.
  destruct (add_all_spec st1 a []
              (if DEFAULT_CAPACITY <? 1 then DEFAULT_CAPACITY else DEFAULT_CAPACITY)
              vs Hv1) as (st2 & cap & Hrun & Hv2 & Hc2 & _);
    [by rewrite Hc1, lookup_insert_eq|done|destruct (DEFAULT_CAPACITY <? 1); exact Hfit|].
  mrun Hrun. exists a, st2, cap. split; [done|]. split; [done|]. split; [done|].
  by rewrite Hc2, Hc1, insert_insert_eq.
Qed.

Lemma mutate_spec st a (l : list Z) cap ms :
  valid st → contents st !! a = Some (l, cap) →
  Z.of_nat (length l + length ms) ≤ Z.max cap (GROWABLE + 1) →
  ∃ st' l' cap',
    mutate DEFAULT_CAPACITY a ms st = Some (tt, st') ∧
    valid st' ∧ contents st' = <[a := (l', cap')]> (contents st).
Proof using Type.
  revert st l cap. induction ms as [|[v|v] ms IH]; intros st l cap Hv Hc Hfit.
  - exists st, l, cap. split; [done|]. split; [done|]. symmetry. by apply insert_id.
  - simpl in Hfit.
    destruct (add_spec st a l cap v Hv Hc) as (st1 & cap1 & Hadd & Hv1 & Hc1 & Hle1);
      [lia|].
    simpl. mrun Hadd.
    destruct (IH st1 (if bool_decide (v ∈ l) then l else l ++ [v]) cap1 Hv1)
      as (st2 & l2 & cap2 & Hrun & Hv2 & Hc2);
      [by rewrite Hc1, lookup_insert_eq| |].
    { destruct (bool_decide (v ∈ l)); rewrite ?length_app; simpl; lia. }
    exists st2, l2, cap2. split; [done|]. split; [done|].
    by rewrite Hc2, Hc1, insert_insert_eq.
  - simpl in Hfit.
    destruct (remove_spec st a l cap v Hv Hc) as (st1 & Hrm & Hv1 & Hc1).
    simpl. mrun Hrm.
    destruct (IH st1 (filter (λ x, x ≠ v) l) cap Hv1)
      as (st2 & l2 & cap2 & Hrun & Hv2 & Hc2);
      [by rewrite Hc1, lookup_insert_eq| |].
    { pose proof (length_filter (λ x, x ≠ v) l). lia. }
    exists st2, l2, cap2. split; [done|]. split; [done|].
    by rewrite Hc2, Hc1, insert_insert_eq.
Qed.

(** ** The queries never write *)

Lemma get_obj_pure a st o st' : get_obj a st = Some (o, st') → st' = st.
Proof using Type. unfold get_obj. destruct (objs st !! a); [|done]. by intros [= _ <-]. Qed.

Lemma load_pure p i st x st' : load p i st = Some (x, st') → st' = st.
Proof using Type.
  unfold load. destruct (i <? 0); [done|].
  destruct (heap st !! p) as [cells|]; [|done].
  destruct (cells !! Z.to_nat i) as [[y|]|]; [|done|done]. by intros [= _ <-].
Qed.

Lemma data_at_pure a i st x st' : data_at a i st = Some (x, st') → st' = st.
Proof using Type.
  unfold data_at. intros (o & st1 & Ho & Hl)%bind_inv.
  apply get_obj_pure in Ho as ->. by apply load_pure in Hl.
Qed.

Lemma contains_iter_pure a v n i st c st' :
  for_return_iter n i
    (λ i, do x <- data_at a i; if x =? v then ret (Some true) else ret None)
    (ret false) st = Some (c, st') →
  st' = st.
Proof using Type.
  revert i. induction n as [|n IH]; intros i; simpl.
  - by intros [= _ <-].
  - intros (r & st1 & Hbody & Hrest)%bind_inv.
    apply bind_inv in Hbody as (x & st2 & Hd & Hret).
    apply data_at_pure in Hd as ->.
    destruct (x =? v); injection Hret as <- <-.
    + by injection Hrest as _ <-.
    + by eapply IH.
Qed.

Lemma contains_pure a v st c st' : contains a v st = Some (c, st') → st' = st.
Proof using Type.
  unfold contains. intros (o & st1 & Ho & Hrest)%bind_inv.
  apply get_obj_pure in Ho as ->.
  destruct (0 <? used o).
  - by eapply contains_iter_pure.
  - by injection Hrest as _ <-.
Qed.

(** One iteration of the loop of [unionWith] does what the unguarded call
    of [add] does, on every store. *)
Lemma union_body_eq r b i st :
  (do x <- data_at b i;
   do c <- contains r x;
   if negb c then (do x <- data_at b i; add DEFAULT_CAPACITY r x;; ret tt)
   else ret tt) st
  = (do x <- data_at b i; add DEFAULT_CAPACITY r x;; ret tt) st.
Proof using Type.
  destruct (data_at b i st) as [[x st1]|] eqn:Hd; cycle 1.
  { by rewrite !(bind_fail _ _ _ Hd). }
  pose proof (data_at_pure _ _ _ _ _ Hd) as ->.
  rewrite !(bind_run _ _ _ _ _ Hd).
  destruct (contains r x st) as [[c st1]|] eqn:Hc; cycle 1.
  { unfold add. by rewrite bind_bind, !(bind_fail _ _ _ Hc). }
  pose proof (contains_pure _ _ _ _ _ Hc) as ->.
  rewrite (bind_run _ _ _ _ _ Hc).
  destruct c; simpl.
  - unfold add. rewrite bind_bind, (bind_run _ _ _ _ _ Hc). done.
  - by rewrite (bind_run _ _ _ _ _ Hd).
Qed.



Lemma build_two st (la lb : list Z) :
  valid st → NoDup la → NoDup lb →
  Z.of_nat (length la) ≤ Z.max DEFAULT_CAPACITY (GROWABLE + 1) →
  Z.of_nat (length lb) ≤ Z.max DEFAULT_CAPACITY (GROWABLE + 1) →
  ∃ A B st' ca cb,
    (do A <- build DEFAULT_CAPACITY la;
     do B <- build DEFAULT_CAPACITY lb;
     ret (A, B)) st = Some ((A, B), st') ∧
    valid st' ∧ A ≠ B ∧
    contents st' !! A = Some (la, ca) ∧ contents st' !! B = Some (lb, cb).
Proof.
  intros Hv Hnda Hndb Hfa Hfb.
  destruct (build_spec st la Hv Hnda Hfa) as (A & st1 & ca & HA & HAn & Hv1 & Hc1).
  destruct (build_spec st1 lb Hv1 Hndb Hfb) as (B & st2 & cb & HB & HBn & Hv2 & Hc2).
  assert (HAB : A ≠ B).
  { eapply fresh_ne; [exact HBn|]. by rewrite Hc1, lookup_insert_eq. }
  exists A, B, st2, ca, cb. mrun HA. mrun HB.
  split; [done|]. split; [done|]. split; [done|]. rewrite Hc2, Hc1. split.
  - by rewrite lookup_insert_ne, lookup_insert_eq.
  - by rewrite lookup_insert_eq.
Qed.

(** Every store a client can reach is valid: the hypothesis [valid] of the
    results below holds wherever the class is used through its interface. *)
Lemma reachable_valid st : reachable DEFAULT_CAPACITY st → valid st.
Proof.
  induction 1 as [|st c st' _ IH Hobjs Hrun]; [apply valid_empty|].
  assert (Hlive : ∀ a, a ∈ call_objects c → ∃ l cap, contents st !! a = Some (l, cap)).
  { intros a Ha. rewrite Forall_forall in Hobjs.
    destruct (contents_is_Some _ _ IH (Hobjs a Ha)) as [[l cap] Hc]. eauto. }
  destruct c as [n|a|a b|a v|a v|a|a n|a b|a b|a b|a]; simpl in *.
  - destruct (IntSet_ctor_spec st n IH) as (r & st1 & Hop & _ & Hv & _).
    rewrite (bind_run _ _ _ _ _ Hop) in Hrun. by injection Hrun as <-.
  - destruct (Hlive a) as (l & cap & Hc); [left|].
    destruct (IntSet_copy_spec st a l cap IH Hc) as (r & st1 & Hop & _ & Hv & _).
    rewrite (bind_run _ _ _ _ _ Hop) in Hrun. by injection Hrun as <-.
  - destruct (Hlive a) as (la & ca & Hca); [left|].
    destruct (Hlive b) as (lb & cb & Hcb); [right; left|].
    destruct (decide (a = b)) as [<-|Hne].
    + rewrite (bind_run _ _ _ _ _ (assign_self st a)) in Hrun. by injection Hrun as <-.
    + destruct (assign_other st a b la lb ca cb Hne IH Hca Hcb)
        as (st1 & Hop & [Hv _] & _).
      rewrite (bind_run _ _ _ _ _ Hop) in Hrun. by injection Hrun as <-.
  - destruct (Hlive a) as (l & cap & Hc); [left|].
    apply bind_inv in Hrun as (r & st1 & Hop & [= <-]).
    by apply (add_returns _ _ _ _ _ _ _ IH Hc) in Hop as (_ & Hv & _).
  - destruct (Hlive a) as (l & cap & Hc); [left|].
    destruct (remove_spec st a l cap v IH Hc) as (st1 & Hop & Hv & _).
    rewrite (bind_run _ _ _ _ _ Hop) in Hrun. by injection Hrun as <-.
  - destruct (Hlive a) as (l & cap & Hc); [left|].
    destruct (reset_spec st a l cap IH Hc) as (st1 & Hop & Hv & _).
    rewrite Hop in Hrun. by injection Hrun as <-.
  - destruct (Hlive a) as (l & cap & Hc); [left|].
    destruct (resize_spec st a l cap n IH Hc) as (st1 & Hop & Hv & _).
    rewrite Hop in Hrun. by injection Hrun as <-.
  - destruct (Hlive a) as (la & ca & Hca); [left|].
    destruct (Hlive b) as (lb & cb & Hcb); [right; left|].
    apply bind_inv in Hrun as (r & st1 & Hop & [= <-]).
    by apply (unionWith_returns _ _ _ _ _ _ _ _ _ IH Hca Hcb) in Hop as (_ & Hv & _).
  - destruct (Hlive a) as (la & ca & Hca); [left|].
    destruct (Hlive b) as (lb & cb & Hcb); [right; left|].
    destruct (intersect_spec st a b la lb ca cb IH Hca Hcb)
      as (r & st1 & Hop & _ & Hv & _).
    rewrite (bind_run _ _ _ _ _ Hop) in Hrun. by injection Hrun as <-.
  - destruct (Hlive a) as (la & ca & Hca); [left|].
    destruct (Hlive b) as (lb & cb & Hcb); [right; left|].
    destruct (subtract_spec st a b la lb ca cb IH Hca Hcb)
      as (r & st1 & Hop & _ & Hv & _).
    rewrite (bind_run _ _ _ _ _ Hop) in Hrun. by injection Hrun as <-.
  - destruct (Hlive a) as (l & cap & Hc); [left|].
    destruct (IntSet_dtor_spec st a l cap IH Hc) as (st1 & Hop & Hv & _).
    rewrite Hop in Hrun. by injection Hrun as <-.
Qed.

(** ** Where growth is impossible *)







(** ** Main results *)

(** C1. For a set holding the sequence [l] and any [v]: when [v] is a
    member, [remove(v)] returns true, deletes the one occurrence of [v] by
    moving every later element one index down (elements before it keep
    their index), [size()] drops by exactly 1 and the other elements keep
    their relative order; when [v] is not a member, [remove(v)] returns
    false and the store is unchanged. *)
Theorem remove_correct st a (l : list Z) cap v :
  valid st → contents st !! a = Some (l, cap) →
  contains a v st = Some (bool_decide (v ∈ l), st) ∧
  (v ∈ l →
     ∃ st' l1 l2,
       l = l1 ++ v :: l2 ∧
       remove a v st = Some (true, st') ∧
       valid st' ∧
       contents st' = <[a := (l1 ++ l2, cap)]> (contents st) ∧
       size a st' = Some (Z.of_nat (length l) - 1, st') ∧
       contains a v st' = Some (false, st') ∧
       (∀ (i : nat) x, (i < length l1)%nat → l !! i = Some x →
          data_at a (Z.of_nat i) st' = Some (x, st')) ∧
       (∀ (i : nat) x, (length l1 < i)%nat → l !! i = Some x →
          data_at a (Z.of_nat i - 1) st' = Some (x, st'))) ∧
  (v ∉ l → remove a v st = Some (false, st)).
Proof using Type.
  intros Hv Hc. split; [by eapply contains_spec|]. split; [|by eapply remove_absent].
  intros Hin. destruct (list_elem_of_split _ _ Hin) as (l1 & l2 & ->).
  destruct (remove_member st a l1 l2 cap v Hv Hc) as (st' & Hrun & Hv' & Hc').
  destruct (contents_lookup _ _ _ _ Hv Hc) as (_ & _ & _ & _ & _ & Hnd & _).
  assert (Ha' : contents st' !! a = Some (l1 ++ l2, cap))
    by (by rewrite Hc', lookup_insert_eq).
  exists st', l1, l2. split_and!; try done.
  - rewrite (size_spec _ _ _ _ Hv' Ha'). do 2 f_equal.
    rewrite !length_app. simpl. lia.
  - rewrite (contains_spec _ _ _ _ v Hv' Ha'). do 2 f_equal.
    apply bool_decide_eq_false.
    apply NoDup_app in Hnd as (_ & Hdisj & [Hv2 _]%NoDup_cons).
    intros [H1|H2]%elem_of_app; [|done]. apply (Hdisj _ H1). left.
  - intros i x Hi Hx. eapply data_at_spec; [done|exact Ha'|].
    rewrite lookup_app_l in Hx by done. by rewrite lookup_app_l.
  - intros i x Hi Hx.
    replace (Z.of_nat i - 1) with (Z.of_nat (i - 1)) by lia.
    eapply data_at_spec; [done|exact Ha'|].
    rewrite lookup_app_r in Hx by lia. rewrite lookup_app_r by lia.
    replace (i - length l1)%nat with (S (i - 1 - length l1)) in Hx by lia.
    done.
Qed.








(** C7. For sets [A] holding [la] and [B] holding [lb], [A.isSubsetOf(B)]
    returns true exactly when [contains] of [B] accepts every live element
    of [A]; it changes nothing; an empty [A] is a subset of every [B],
    another empty set included. *)
Theorem isSubsetOf_correct st a b (la lb : list Z) ca cb :
  valid st → contents st !! a = Some (la, ca) → contents st !! b = Some (lb, cb) →
  ∃ r,
    isSubsetOf a b st = Some (r, st) ∧
    (r = true ↔ ∀ x, x ∈ la → contains b x st = Some (true, st)) ∧
    (la = [] → r = true).
Proof using Type.
  intros Hv Ha Hb. exists (bool_decide (la ⊆ lb)).
  split; [by eapply isSubsetOf_spec|]. split.
  - split.
    + intros Hsub%bool_decide_eq_true x Hx. rewrite (contains_spec _ _ _ _ x Hv Hb).
      by rewrite bool_decide_eq_true_2 by (by apply Hsub).
    + intros Hall. apply bool_decide_eq_true. intros x Hx. specialize (Hall x Hx).
      rewrite (contains_spec _ _ _ _ x Hv Hb) in Hall.
      injection Hall as Hall. by apply bool_decide_eq_true in Hall.
  - intros ->. apply bool_decide_eq_true. apply list_subseteq_nil.
Qed.

(** C8. [operator==] on sets holding [la] and [lb] returns true exactly when
    each is a subset of the other, that is when they have the same members
    whatever the insertion order; it is reflexive and symmetric, two empty
    sets are equal, and the set built by adding 3, 1, 2 equals the one built
    by adding 1, 3, 2. *)
Theorem equal_correct st a b (la lb : list Z) ca cb :
  valid st → contents st !! a = Some (la, ca) → contents st !! b = Some (lb, cb) →
  (∃ r,
     equal a b st = Some (r, st) ∧
     (r = true ↔
        isSubsetOf a b st = Some (true, st) ∧ isSubsetOf b a st = Some (true, st)) ∧
     (r = true ↔ ∀ x, x ∈ la ↔ x ∈ lb) ∧
     equal b a st = Some (r, st) ∧
     (la = [] → lb = [] → r = true)) ∧
  equal a a st = Some (true, st) ∧
  (∃ A B st2,
     (do A <- build DEFAULT_CAPACITY [3; 1; 2];
      do B <- build DEFAULT_CAPACITY [1; 3; 2];
      ret (A, B)) empty_state = Some ((A, B), st2) ∧
     equal A B st2 = Some (true, st2)).
Proof.
  intros Hv Ha Hb. split_and!.
  - exists (bool_decide (la ⊆ lb) && bool_decide (lb ⊆ la)).
    split; [by eapply equal_spec|].
    rewrite (isSubsetOf_spec _ _ _ _ _ _ _ Hv Ha Hb).
    rewrite (isSubsetOf_spec _ _ _ _ _ _ _ Hv Hb Ha).
    rewrite (equal_spec _ _ _ _ _ _ _ Hv Hb Ha).
    split_and!.
    + destruct (bool_decide (la ⊆ lb)), (bool_decide (lb ⊆ la)); simpl;
        split; try done; by intros [[=] [=]].
    + split.
      * intros [H1%bool_decide_eq_true H2%bool_decide_eq_true]%andb_true_iff x.
        split; auto.
      * intros Heq. apply andb_true_iff.
        split; apply bool_decide_eq_true; intros x Hx; by apply Heq.
    + by rewrite andb_comm.
    + intros -> ->. apply andb_true_iff.
      split; apply bool_decide_eq_true, list_subseteq_nil.
  - rewrite (equal_spec _ _ _ _ _ _ _ Hv Ha Ha).
    by rewrite bool_decide_eq_true_2 by done.
  - destruct (build_two empty_state [3; 1; 2] [1; 3; 2] valid_empty)
      as (A & B & st2 & cA & cB & Hrun & Hv2 & _ & HA & HB).
    { apply (bool_decide_unpack _). by vm_compute. }
    { apply (bool_decide_unpack _). by vm_compute. }
    { simpl. unfold GROWABLE. lia. }
    { simpl. unfold GROWABLE. lia. }
    exists A, B, st2. split; [done|].
    by rewrite (equal_spec _ _ _ _ _ _ _ Hv2 HA HB).
Qed.

(** C9. Self-assignment [a = a] changes nothing at all, so [size()],
    [contains] and the dump are as before.  Assignment from a different
    object [b] holding [lb] with capacity [cb] copies the live elements of
    [b] into a newly allocated array of [cb] cells, releases the array [a]
    had, and gives [a] the capacity and size of [b]: afterwards [a] holds
    [lb] in the same order, and every other set is as before. *)
Theorem assign_correct st a b (la lb : list Z) ca cb :
  valid st → contents st !! a = Some (la, ca) → contents st !! b = Some (lb, cb) →
  assign a a st = Some (a, st) ∧
  (a ≠ b →
     ∃ st',
       assign a b st = Some (a, st') ∧
       valid st' ∧
       contents st' = <[a := (lb, cb)]> (contents st) ∧
       (∃ q cells,
          heap st !! q = None ∧
          objs st' !! a = Some (mkIntSet q cb (Z.of_nat (length lb))) ∧
          heap st' !! q = Some cells ∧ Z.of_nat (length cells) = cb) ∧
       (∀ oa, objs st !! a = Some oa → heap st' !! data oa = None) ∧
       size a st' = Some (Z.of_nat (length lb), st') ∧
       (∀ v, contains a v st' = Some (bool_decide (v ∈ lb), st')) ∧
       (∀ out, DumpData a out st' = Some (out +:+ dump_string lb, st'))).
Proof using Type.
  intros Hv Ha Hb. split; [apply assign_self|]. intros Hne.
  destruct (assign_other st a b la lb ca cb Hne Hv Ha Hb)
    as (st' & Hrun & [Hv' Hc'] & Hnew & Hold).
  assert (Ha' : contents st' !! a = Some (lb, cb)) by (by rewrite Hc', lookup_insert_eq).
  exists st'. split_and!; try done.
  - by eapply size_spec.
  - intros v. by eapply contains_spec.
  - intros out. by eapply DumpData_spec.
Qed.

(** C10. On every store, [A.unionWith(B)] returns the same object and leaves
    the same store as the procedure that copies [A] and calls [add] on each
    live element of [B] in index order: the membership test before [add] is
    redundant, since [add] itself does nothing for a member. *)
Theorem unionWith_unguarded a b st :
  unionWith DEFAULT_CAPACITY a b st = unionWith_simple DEFAULT_CAPACITY a b st.
Proof using Type.
  unfold unionWith, unionWith_simple.
  destruct (IntSet_copy a st) as [[r st1]|] eqn:Hcopy; cycle 1.
  { by rewrite !(bind_fail _ _ _ Hcopy). }
  rewrite !(bind_run _ _ _ _ _ Hcopy).
  destruct (size b st1) as [[n st2]|] eqn:Hsize; cycle 1.
  { by rewrite !(bind_fail _ _ _ Hsize). }
  rewrite !(bind_run _ _ _ _ _ Hsize).
  unfold bind at 1 5. unfold for_.
  rewrite (for_iter_ext _
    (λ i _, do x <- data_at b i; add DEFAULT_CAPACITY r x;; ret tt)); [done|].
  intros i [] st'. apply union_body_eq.
Qed.

(** ** Inverting a run *)

Lemma get_obj_inv a st o st' :
  get_obj a st = Some (o, st') → st' = st ∧ objs st !! a = Some o.
Proof using Type.
  unfold get_obj. destruct (objs st !! a) as [o'|]; [|done]. by intros [= <- <-].
Qed.

Lemma put_obj_inv a o' st st' :
  put_obj a o' st = Some (tt, st') →
  is_Some (objs st !! a) ∧ st' = mkState (<[a := o']> (objs st)) (heap st).
Proof using Type.
  unfold put_obj. destruct (objs st !! a) as [o|]; [|done].
  intros [= <-]. eauto.
Qed.

Lemma set_used_inv a u st st' :
  set_used a u st = Some (tt, st') →
  ∃ o, objs st !! a = Some o ∧
       st' = mkState (<[a := mkIntSet (data o) (capacity o) u]> (objs st)) (heap st).
Proof using Type.
  unfold set_used. intros (o & st1 & [-> Ho]%get_obj_inv & [_ ->]%put_obj_inv)%bind_inv.
  eauto.
Qed.

Lemma set_capacity_inv a c st st' :
  set_capacity a c st = Some (tt, st') →
  ∃ o, objs st !! a = Some o ∧
       st' = mkState (<[a := mkIntSet (data o) c (used o)]> (objs st)) (heap st).
Proof using Type.
  unfold set_capacity. intros (o & st1 & [-> Ho]%get_obj_inv & [_ ->]%put_obj_inv)%bind_inv.
  eauto.
Qed.

Lemma set_data_inv a p st st' :
  set_data a p st = Some (tt, st') →
  ∃ o, objs st !! a = Some o ∧
       st' = mkState (<[a := mkIntSet p (capacity o) (used o)]> (objs st)) (heap st).
Proof using Type.
  unfold set_data. intros (o & st1 & [-> Ho]%get_obj_inv & [_ ->]%put_obj_inv)%bind_inv.
  eauto.
Qed.

Lemma new_array_inv n st p st' :
  new_array n st = Some (p, st') →
  0 ≤ n ∧ p = fresh (dom (heap st)) ∧
  st' = mkState (objs st) (<[p := replicate (Z.to_nat n) None]> (heap st)).
Proof using Type.
  unfold new_array. destruct (Z.ltb_spec n 0); [done|]. by intros [= <- <-].
Qed.

Lemma delete_array_inv p st st' :
  delete_array p st = Some (tt, st') →
  is_Some (heap st !! p) ∧ st' = mkState (objs st) (delete p (heap st)).
Proof using Type.
  unfold delete_array. destruct (heap st !! p) as [c|] eqn:Hp; [|done].
  intros [= <-]. eauto.
Qed.

Lemma store_inv p i x st st' :
  store p i x st = Some (tt, st') →
  objs st' = objs st ∧ dom (heap st') = dom (heap st).
Proof using Type.
  unfold store. destruct (i <? 0); [done|].
  destruct (heap st !! p) as [cells|] eqn:Hp; [|done].
  destruct (i <? Z.of_nat (length cells)); [|done].
  intros [= <-]. simpl. split; [done|].
  apply dom_insert_lookup_L. by rewrite Hp.
Qed.

Lemma data_at_set_inv a i x st st' :
  data_at_set a i x st = Some (tt, st') →
  objs st' = objs st ∧ dom (heap st') = dom (heap st).
Proof using Type.
  unfold data_at_set. intros (o & st1 & [-> Ho]%get_obj_inv & Hs%store_inv)%bind_inv.
  done.
Qed.

(** A relation that every iteration respects is respected by the loop. *)
Lemma for_iter_rel {A} (R : state → state → Prop) (body : Z → A → M A)
    n i acc st acc' st' :
  (∀ st, R st st) → (∀ s1 s2 s3, R s1 s2 → R s2 s3 → R s1 s3) →
  (∀ i acc st acc' st', body i acc st = Some (acc', st') → R st st') →
  for_iter n i body acc st = Some (acc', st') → R st st'.
Proof using Type.
  intros Hrefl Htrans Hbody. revert i acc st.
  induction n as [|n IH]; intros i acc st; simpl.
  - intros [= _ <-]. apply Hrefl.
  - intros (acc1 & st1 & H1 & Hrest)%bind_inv.
    eapply Htrans; [by eapply Hbody|by eapply IH].
Qed.

Lemma for_return_iter_rel {A} (R : state → state → Prop) (body : Z → M (option A))
    (after : M A) n i st r st' :
  (∀ st, R st st) → (∀ s1 s2 s3, R s1 s2 → R s2 s3 → R s1 s3) →
  (∀ i st r st', body i st = Some (r, st') → R st st') →
  (∀ st r st', after st = Some (r, st') → R st st') →
  for_return_iter n i body after st = Some (r, st') → R st st'.
Proof using Type.
  intros Hrefl Htrans Hbody Hafter. revert i st.
  induction n as [|n IH]; intros i st; simpl; [apply Hafter|].
  intros ([a|] & st1 & H1 & Hrest)%bind_inv.
  - injection Hrest as _ <-. by eapply Hbody.
  - eapply Htrans; [by eapply Hbody|by eapply IH].
Qed.

(** A property that every iteration keeps is kept by the loop. *)
Lemma for_iter_preserves {A} (P : state → Prop) (body : Z → A → M A)
    n i acc st acc' st' :
  (∀ i acc st acc' st', P st → body i acc st = Some (acc', st') → P st') →
  P st → for_iter n i body acc st = Some (acc', st') → P st'.
Proof using Type.
  intros Hbody. revert i acc st.
  induction n as [|n IH]; intros i acc st HP; simpl.
  - by intros [= _ <-].
  - intros (acc1 & st1 & H1 & Hrest)%bind_inv.
    eapply IH; [|exact Hrest]. by eapply Hbody.
Qed.

(** ** The const methods *)

Lemma size_pure a st n st' : size a st = Some (n, st') → st' = st.
Proof using Type.
  unfold size. intros (o & st1 & [-> _]%get_obj_inv & [= _ <-])%bind_inv. done.
Qed.

Lemma isEmpty_pure a st r st' : isEmpty a st = Some (r, st') → st' = st.
Proof using Type.
  unfold isEmpty. intros (o & st1 & [-> _]%get_obj_inv & [= _ <-])%bind_inv. done.
Qed.

Lemma isSubsetOf_pure a b st r st' : isSubsetOf a b st = Some (r, st') → st' = st.
Proof using Type.
  unfold isSubsetOf. intros (e & st1 & ->%isEmpty_pure & Hrest)%bind_inv.
  destruct e; [by injection Hrest as _ <-|].
  apply bind_inv in Hrest as (n & st2 & ->%size_pure & Hloop).
  symmetry. revert Hloop. unfold for_return.
  apply (for_return_iter_rel eq); [done|congruence| |by intros ? ? ? [= _ <-]].
  intros i s r' s' (x & s1 & ->%data_at_pure & Hc)%bind_inv.
  apply bind_inv in Hc as (c & s2 & ->%contains_pure & Hret).
  by destruct c; injection Hret as _ <-.
Qed.

Lemma DumpData_pure a out st r st' : DumpData a out st = Some (r, st') → st' = st.
Proof using Type.
  unfold DumpData. intros (o & st1 & [-> _]%get_obj_inv & Hrest)%bind_inv.
  destruct (0 <? used o); [|by injection Hrest as _ <-].
  apply bind_inv in Hrest as (x & st2 & ->%data_at_pure & Hloop).
  symmetry. revert Hloop. unfold for_.
  apply (for_iter_rel eq); [done|congruence|].
  intros i acc s acc' s' (y & s1 & ->%data_at_pure & [= _ <-])%bind_inv. done.
Qed.

Lemma equal_pure a b st r st' : equal a b st = Some (r, st') → st' = st.
Proof using Type.
  unfold equal. intros (b1 & st1 & ->%isSubsetOf_pure & Hrest)%bind_inv.
  apply bind_inv in Hrest as (b2 & st2 & H2 & Hret).
  assert (st2 = st) as ->.
  { destruct b1; [by eapply isSubsetOf_pure|by injection H2 as _ <-]. }
  by destruct b2; injection Hret as _ <-.
Qed.

(** X1. The const methods and [operator==] never write: on every store,
    valid or not, whenever [size], [isEmpty], [contains], [isSubsetOf],
    [DumpData] or [==] returns, the store is exactly the one it was called
    on. *)
Theorem queries_never_write a b v out st st' :
  (∀ n, size a st = Some (n, st') → st' = st) ∧
  (∀ r, isEmpty a st = Some (r, st') → st' = st) ∧
  (∀ r, contains a v st = Some (r, st') → st' = st) ∧
  (∀ r, isSubsetOf a b st = Some (r, st') → st' = st) ∧
  (∀ r, DumpData a out st = Some (r, st') → st' = st) ∧
  (∀ r, equal a b st = Some (r, st') → st' = st).
Proof using Type.
  split_and!; intros r H.
  - by eapply size_pure.
  - by eapply isEmpty_pure.
  - by eapply contains_pure.
  - by eapply isSubsetOf_pure.
  - by eapply DumpData_pure.
  - by eapply equal_pure.
Qed.

(** ** Which methods allocate *)

Lemma keeps_arrays_refl st : keeps_arrays st st.
Proof using Type. by split. Qed.

Lemma keeps_arrays_trans s1 s2 s3 :
  keeps_arrays s1 s2 → keeps_arrays s2 s3 → keeps_arrays s1 s3.
Proof using Type.
  intros [Hd1 Ho1] [Hd2 Ho2]. split; [congruence|]. intros b. by rewrite Ho2, Ho1.
Qed.

Lemma same_shape_keeps st st' :
  objs st' = objs st ∧ dom (heap st') = dom (heap st) → keeps_arrays st st'.
Proof using Type. intros [Ho Hd]. split; [done|]. intros b. by rewrite Ho. Qed.

Lemma set_used_keeps a u st st' :
  set_used a u st = Some (tt, st') → keeps_arrays st st'.
Proof using Type.
  intros (o & Ho & ->)%set_used_inv. split; [done|]. intros b. simpl.
  destruct (decide (b = a)) as [->|Hne].
  - by rewrite lookup_insert_eq, Ho.
  - by rewrite lookup_insert_ne.
Qed.

Lemma shift_body_keeps a j (u : unit) st u' st' :
  (do y <- data_at a j; data_at_set a (j - 1) y) st = Some (u', st') →
  keeps_arrays st st'.
Proof using Type.
  intros (y & st1 & ->%data_at_pure & Hs)%bind_inv. destruct u'.
  by apply data_at_set_inv, same_shape_keeps in Hs.
Qed.

Lemma remove_keeps a v st r st' :
  remove a v st = Some (r, st') → keeps_arrays st st'.
Proof using Type.
  unfold remove. intros (c & st1 & ->%contains_pure & Hrest)%bind_inv.
  destruct c; [|injection Hrest as _ <-; apply keeps_arrays_refl].
  apply bind_inv in Hrest as (o & st1 & [-> _]%get_obj_inv & Hrest).
  apply bind_inv in Hrest as ([] & st1 & Hloop & Hrest).
  apply bind_inv in Hrest as (o' & st2 & [-> _]%get_obj_inv & Hrest).
  apply bind_inv in Hrest as ([] & st2 & Hset%set_used_keeps & [= _ <-]).
  eapply keeps_arrays_trans; [|exact Hset].
  revert Hloop. unfold for_.
  apply (for_iter_rel keeps_arrays);
    [apply keeps_arrays_refl|apply keeps_arrays_trans|].
  intros i [] s [] s' (x & s1 & ->%data_at_pure & Hin)%bind_inv.
  destruct (x =? v); [|injection Hin as <-; apply keeps_arrays_refl].
  revert Hin. unfold for_.
  apply (for_iter_rel keeps_arrays);
    [apply keeps_arrays_refl|apply keeps_arrays_trans|].
  intros j u s2 u' s3. apply (shift_body_keeps a j u).
Qed.

(** The tail of [add] after the capacity test. *)
Lemma push_back_keeps a v st r st' :
  (do s <- get_obj a;
   data_at_set a (used s) v;;
   do s <- get_obj a;
   set_used a (used s + 1);;
   ret true) st = Some (r, st') →
  keeps_arrays st st'.
Proof using Type.
  intros (o & st1 & [-> _]%get_obj_inv & Hrest)%bind_inv.
  apply bind_inv in Hrest as ([] & st1 & Hs%data_at_set_inv%same_shape_keeps & Hrest).
  apply bind_inv in Hrest as (o' & st2 & [-> _]%get_obj_inv & Hrest).
  apply bind_inv in Hrest as ([] & st2 & Hset%set_used_keeps & [= _ <-]).
  by eapply keeps_arrays_trans.
Qed.

Lemma copy_body_shape src (wr : Z → Z → M unit) i (u : unit) st u' st' :
  (∀ i x st st', wr i x st = Some (tt, st') →
     objs st' = objs st ∧ dom (heap st') = dom (heap st)) →
  (do x <- data_at src i; wr i x) st = Some (u', st') →
  objs st' = objs st ∧ dom (heap st') = dom (heap st).
Proof using Type.
  intros Hwr (x & st1 & ->%data_at_pure & Hs)%bind_inv. destruct u'. by eapply Hwr.
Qed.

Lemma copy_loop_shape src (wr : Z → Z → M unit) n st u st' :
  (∀ i x st st', wr i x st = Some (tt, st') →
     objs st' = objs st ∧ dom (heap st') = dom (heap st)) →
  for_ 0 n (λ i _, do x <- data_at src i; wr i x) tt st = Some (u, st') →
  objs st' = objs st ∧ dom (heap st') = dom (heap st).
Proof using Type.
  intros Hwr. unfold for_.
  apply (for_iter_rel (λ s s', objs s' = objs s ∧ dom (heap s') = dom (heap s))).
  - done.
  - intros s1 s2 s3 [? ?] [? ?]. split; congruence.
  - intros i acc s acc' s'. by apply copy_body_shape.
Qed.

Lemma resize_reallocates a n st st' :
  resize DEFAULT_CAPACITY a n st = Some (tt, st') → reallocates a st st'.
Proof using Type.
  unfold resize. intros (o & st1 & [-> Ho]%get_obj_inv & Hrest)%bind_inv.
  cbv zeta in Hrest.
  apply bind_inv in Hrest as ([] & st1 & (o1 & Ho1 & ->)%set_capacity_inv & Hrest).
  apply bind_inv in Hrest as (q & st2 & (_ & Hq & ->)%new_array_inv & Hrest).
  simpl in Hq.
  apply bind_inv in Hrest as ([] & st3 & Hloop & Hrest).
  apply copy_loop_shape in Hloop as [Hobjs Hdom]; [|intros; by eapply store_inv].
  simpl in Hobjs, Hdom.
  apply bind_inv in Hrest as (o2 & st4 & [-> Ho2]%get_obj_inv & Hrest).
  apply bind_inv in Hrest as ([] & st4 & [_ ->]%delete_array_inv & Hrest).
  apply set_data_inv in Hrest as (o3 & Ho3 & ->). simpl in *.
  rewrite Ho in Ho1. injection Ho1 as <-.
  rewrite Hobjs, lookup_insert_eq in Ho2. injection Ho2 as <-.
  rewrite Hobjs, lookup_insert_eq in Ho3. injection Ho3 as <-. simpl.
  exists o. eexists. split; [done|]. simpl. split; [|split].
  - by rewrite Hobjs, insert_insert_eq.
  - exact Hq.
  - by rewrite dom_delete_L, Hdom, dom_insert_L.
Qed.

Lemma grown_pure c st n st' : grown c st = Some (n, st') → st' = st.
Proof using Type.
  unfold grown, to_int. intros (t & st1 & H1 & H2)%bind_inv.
  destruct (bool_decide _) in H1; [|done]. injection H1 as _ <-.
  destruct (bool_decide _) in H2; [|done]. by injection H2 as _ <-.
Qed.

Lemma add_allocation a v st r st' :
  add DEFAULT_CAPACITY a v st = Some (r, st') →
  ∃ o, objs st !! a = Some o ∧
       ((r = false ∨ used o < capacity o) ∧ keeps_arrays st st' ∨
        r = true ∧ capacity o ≤ used o ∧
        ∃ st1, reallocates a st st1 ∧ keeps_arrays st1 st').
Proof using Type.
  unfold add. intros (c & st1 & Hc & Hrest)%bind_inv.
  pose proof (contains_pure _ _ _ _ _ Hc) as ->.
  assert (∃ o, objs st !! a = Some o) as [o Ho].
  { unfold contains in Hc. apply bind_inv in Hc as (o & ? & [_ Ho]%get_obj_inv & _).
    eauto. }
  exists o. split; [done|].
  destruct c; simpl in Hrest.
  { injection Hrest as <- <-. left. split; [by left|apply keeps_arrays_refl]. }
  apply bind_inv in Hrest as (o' & st1 & [-> Ho']%get_obj_inv & Hrest).
  rewrite Ho in Ho'. injection Ho' as <-.
  apply bind_inv in Hrest as ([] & st1 & Hgrow & Hrest).
  assert (r = true) as ->.
  { apply bind_inv in Hrest as (? & ? & _ & Hrest).
    apply bind_inv in Hrest as (? & ? & _ & Hrest).
    apply bind_inv in Hrest as (? & ? & _ & Hrest).
    apply bind_inv in Hrest as (? & ? & _ & Hrest). by injection Hrest as <-. }
  apply push_back_keeps in Hrest.
  destruct (Z.leb_spec (capacity o) (used o)) as [Hfull|Hroom].
  - right. split; [done|]. split; [done|]. exists st1. split; [|done].
    apply bind_inv in Hgrow as (n & s & ->%grown_pure & Hres).
    by eapply resize_reallocates.
  - injection Hgrow as <-. left. split; [by right|done].
Qed.

Lemma IntSet_ctor_creates c st r st' :
  IntSet_ctor DEFAULT_CAPACITY c st = Some (r, st') → creates r st st'.
Proof using Type.
  unfold IntSet_ctor. cbv zeta.
  intros (q & st1 & (_ & Hq & ->)%new_array_inv & Hnew)%bind_inv.
  rewrite new_obj_run in Hnew. injection Hnew as <- <-. simpl.
  split; [apply fresh_objs|]. eexists. split; [done|]. simpl.
  split; [done|]. by rewrite dom_insert_L, Hq.
Qed.

Lemma IntSet_copy_creates src st r st' :
  IntSet_copy src st = Some (r, st') → creates r st st'.
Proof using Type.
  unfold IntSet_copy. intros (o & st1 & [-> Ho]%get_obj_inv & Hrest)%bind_inv.
  apply bind_inv in Hrest as (q & st1 & (_ & Hq & ->)%new_array_inv & Hrest).
  apply bind_inv in Hrest as (this & st2 & Hnew & Hrest).
  rewrite new_obj_run in Hnew. injection Hnew as <- <-. simpl in *.
  apply bind_inv in Hrest as ([] & st3 & Hloop & [= <- <-]).
  apply copy_loop_shape in Hloop as [Hobjs Hdom]; [|intros; by eapply data_at_set_inv].
  simpl in *. split; [apply fresh_objs|]. eexists. split; [exact Hobjs|]. simpl.
  split; [done|]. by rewrite Hdom, dom_insert_L, Hq.
Qed.

Lemma assign_allocation a b st r st' :
  assign a b st = Some (r, st') →
  r = a ∧ (a = b ∧ st' = st ∨ a ≠ b ∧ reallocates a st st').
Proof using Type.
  unfold assign. destruct (Pos.eqb_spec a b) as [->|Hne]; simpl.
  { intros [= <- <-]. split; [done|]. by left. }
  intros (ob & st1 & [-> Hob]%get_obj_inv & Hrest)%bind_inv.
  apply bind_inv in Hrest as (q & st1 & (_ & Hq & ->)%new_array_inv & Hrest).
  apply bind_inv in Hrest as ([] & st2 & Hloop & Hrest).
  apply copy_loop_shape in Hloop as [Hobjs Hdom]; [|intros; by eapply store_inv].
  simpl in *.
  apply bind_inv in Hrest as (oa & st3 & [-> Hoa]%get_obj_inv & Hrest).
  apply bind_inv in Hrest as ([] & st3 & [_ ->]%delete_array_inv & Hrest).
  apply bind_inv in Hrest as ([] & st4 & (o1 & Ho1 & ->)%set_data_inv & Hrest).
  apply bind_inv in Hrest as (ob1 & st5 & [-> _]%get_obj_inv & Hrest).
  apply bind_inv in Hrest as ([] & st5 & (o2 & Ho2 & ->)%set_capacity_inv & Hrest).
  apply bind_inv in Hrest as (ob2 & st6 & [-> _]%get_obj_inv & Hrest).
  apply bind_inv in Hrest as ([] & st6 & (o3 & Ho3 & ->)%set_used_inv & [= <- <-]).
  simpl in *. split; [done|]. right. split; [done|].
  rewrite Hobjs in Hoa. exists oa. eexists. split; [done|].
  rewrite lookup_insert_eq in Ho3. injection Ho3 as <-.
  rewrite lookup_insert_eq in Ho2. injection Ho2 as <-. simpl.
  split; [|split].
  - by rewrite !insert_insert_eq, Hobjs.
  - exact Hq.
  - by rewrite dom_delete_L, Hdom, dom_insert_L.
Qed.

Lemma IntSet_dtor_shape a st st' :
  IntSet_dtor a st = Some (tt, st') →
  ∃ o, objs st !! a = Some o ∧
       objs st' = delete a (objs st) ∧
       dom (heap st') = dom (heap st) ∖ {[data o]}.
Proof using Type.
  unfold IntSet_dtor. intros (o & st1 & [-> Ho]%get_obj_inv & Hrest)%bind_inv.
  apply bind_inv in Hrest as ([] & st1 & [_ ->]%delete_array_inv & Hdel).
  unfold delete_obj in Hdel. simpl in Hdel. rewrite Ho in Hdel.
  injection Hdel as <-. exists o. simpl. split; [done|]. split; [done|].
  apply dom_delete_L.
Qed.

(** ** No array is leaked *)

Lemma leak_free_keeps st st' : keeps_arrays st st' → leak_free st → leak_free st'.
Proof using Type.
  intros [Hdom Hobjs] Hlf p Hp.
  apply elem_of_dom in Hp. rewrite Hdom in Hp. apply elem_of_dom in Hp.
  destruct (Hlf p Hp) as (b & ob & Hb & Hd).
  specialize (Hobjs b). rewrite Hb in Hobjs. simpl in Hobjs.
  destruct (objs st' !! b) as [ob'|] eqn:Hb'; simpl in Hobjs; [|done].
  injection Hobjs as Hd' _.
  exists b, ob'. split; [done|congruence].
Qed.

Lemma leak_free_reallocates a st st' :
  valid st → reallocates a st st' → leak_free st → leak_free st'.
Proof using Type.
  intros [_ Hown] (o & o' & Ho & Hobjs & Hq & Hdom) Hlf p Hp.
  apply elem_of_dom in Hp. rewrite Hdom in Hp.
  apply elem_of_difference in Hp as [Hp Hne].
  rewrite not_elem_of_singleton in Hne.
  apply elem_of_union in Hp as [->%elem_of_singleton|Hp].
  { exists a, o'. by rewrite Hobjs, lookup_insert_eq. }
  apply elem_of_dom in Hp. destruct (Hlf p Hp) as (b & ob & Hb & Hd).
  exists b, ob. split; [|done]. rewrite Hobjs, lookup_insert_ne; [done|].
  intros ->. congruence.
Qed.

Lemma leak_free_creates r st st' : creates r st st' → leak_free st → leak_free st'.
Proof using Type.
  intros (Hr & o' & Hobjs & Hq & Hdom) Hlf p Hp.
  apply elem_of_dom in Hp. rewrite Hdom in Hp.
  apply elem_of_union in Hp as [->%elem_of_singleton|Hp].
  { exists r, o'. by rewrite Hobjs, lookup_insert_eq. }
  apply elem_of_dom in Hp. destruct (Hlf p Hp) as (b & ob & Hb & Hd).
  exists b, ob. split; [|done]. rewrite Hobjs, lookup_insert_ne; [done|].
  intros ->. congruence.
Qed.

Lemma leak_free_dtor a st st' :
  valid st → IntSet_dtor a st = Some (tt, st') → leak_free st → leak_free st'.
Proof using Type.
  intros [_ Hown] (o & Ho & Hobjs & Hdom)%IntSet_dtor_shape Hlf p Hp.
  apply elem_of_dom in Hp. rewrite Hdom in Hp.
  apply elem_of_difference in Hp as [Hp Hne].
  rewrite not_elem_of_singleton in Hne.
  apply elem_of_dom in Hp. destruct (Hlf p Hp) as (b & ob & Hb & Hd).
  exists b, ob. split; [|done]. rewrite Hobjs, lookup_delete_ne; [done|].
  intros ->. congruence.
Qed.

Lemma leak_free_add a v st r st' :
  valid st → add DEFAULT_CAPACITY a v st = Some (r, st') →
  leak_free st → leak_free st'.
Proof using Type.
  intros Hv (o & _ & [[_ Hk]|(_ & _ & st1 & Hre & Hk)])%add_allocation Hlf.
  - by eapply leak_free_keeps.
  - eapply leak_free_keeps; [exact Hk|]. by eapply leak_free_reallocates.
Qed.

Lemma add_sound_with r x st res st' :
  sound_with r st → add DEFAULT_CAPACITY r x st = Some (res, st') → sound_with r st'.
Proof using Type.
  intros (Hv & Hlf & Hr) Hadd.
  destruct (contents_is_Some _ _ Hv Hr) as [[l cap] Hc].
  destruct (add_returns _ _ _ _ _ _ _ Hv Hc Hadd) as (_ & Hv2 & cap2 & Hc2 & _).
  split; [done|]. split; [exact (leak_free_add _ _ _ _ _ Hv Hadd Hlf)|].
  eapply contents_objs. by rewrite Hc2, lookup_insert_eq.
Qed.

Lemma remove_sound_with r x st res st' :
  sound_with r st → remove r x st = Some (res, st') → sound_with r st'.
Proof using Type.
  intros (Hv & Hlf & Hr) Hrm.
  destruct (contents_is_Some _ _ Hv Hr) as [[l cap] Hc].
  destruct (remove_spec st r l cap x Hv Hc) as (st2 & Hrun & Hv2 & Hc2).
  pose proof Hrm as Hrm'. rewrite Hrun in Hrm'. injection Hrm' as Hres Hst.
  subst st'.
  split; [done|]. split; [exact (leak_free_keeps _ _ (remove_keeps _ _ _ _ _ Hrm) Hlf)|].
  eapply contents_objs. by rewrite Hc2, lookup_insert_eq.
Qed.

Lemma copy_sound_with a st r st' :
  valid st → leak_free st → is_Some (objs st !! a) →
  IntSet_copy a st = Some (r, st') → sound_with r st'.
Proof using Type.
  intros Hv Hlf Ha Hcopy.
  destruct (contents_is_Some _ _ Hv Ha) as [[l cap] Hc].
  destruct (IntSet_copy_spec st a l cap Hv Hc) as (r2 & st2 & Hrun & _ & Hv2 & Hc2).
  pose proof Hcopy as Hcopy'. rewrite Hrun in Hcopy'. injection Hcopy' as Hres Hst.
  subst r st'.
  split; [done|].
  split; [exact (leak_free_creates _ _ _ (IntSet_copy_creates _ _ _ _ Hcopy) Hlf)|].
  eapply contents_objs. by rewrite Hc2, lookup_insert_eq.
Qed.

Lemma leak_free_unionWith a b st r st' :
  valid st → leak_free st → is_Some (objs st !! a) →
  unionWith DEFAULT_CAPACITY a b st = Some (r, st') → leak_free st'.
Proof using Type.
  intros Hv Hlf Ha. unfold unionWith.
  intros (r1 & st1 & Hs%copy_sound_with & Hrest)%bind_inv; [|done..].
  apply bind_inv in Hrest as (n & st2 & ->%size_pure & Hrest).
  apply bind_inv in Hrest as ([] & st2 & Hloop & [= _ <-]).
  revert Hloop. unfold for_. intros Hloop.
  eapply (for_iter_preserves (sound_with r1)) in Hloop; [by destruct Hloop as (_ & ? & _)| |done].
  intros i [] s [] s' HP (x & s1 & ->%data_at_pure & Hc)%bind_inv.
  apply bind_inv in Hc as (c & s2 & ->%contains_pure & Hif).
  destruct c; simpl in Hif; [by injection Hif as <-|].
  apply bind_inv in Hif as (y & s3 & ->%data_at_pure & Hadd).
  apply bind_inv in Hadd as (res & s4 & Hadd & [= <-]).
  by eapply add_sound_with.
Qed.

Lemma leak_free_intersect a b st r st' :
  valid st → leak_free st → is_Some (objs st !! a) →
  intersect a b st = Some (r, st') → leak_free st'.
Proof using Type.
  intros Hv Hlf Ha. unfold intersect.
  intros (r1 & st1 & Hs%copy_sound_with & Hrest)%bind_inv; [|done..].
  apply bind_inv in Hrest as (n & st2 & ->%size_pure & Hrest).
  apply bind_inv in Hrest as ([] & st2 & Hloop & [= _ <-]).
  revert Hloop. unfold for_. intros Hloop.
  eapply (for_iter_preserves (sound_with r1)) in Hloop; [by destruct Hloop as (_ & ? & _)| |done].
  intros i [] s [] s' HP (x & s1 & ->%data_at_pure & Hc)%bind_inv.
  apply bind_inv in Hc as (c & s2 & ->%contains_pure & Hif).
  destruct c; simpl in Hif; [by injection Hif as <-|].
  apply bind_inv in Hif as (y & s3 & ->%data_at_pure & Hrm).
  apply bind_inv in Hrm as (res & s4 & Hrm & [= <-]).
  by eapply remove_sound_with.
Qed.

Lemma leak_free_subtract a b st r st' :
  valid st → leak_free st → is_Some (objs st !! a) →
  subtract a b st = Some (r, st') → leak_free st'.
Proof using Type.
  intros Hv Hlf Ha. unfold subtract.
  intros (r1 & st1 & Hs%copy_sound_with & Hrest)%bind_inv; [|done..].
  apply bind_inv in Hrest as (n & st2 & ->%size_pure & Hrest).
  apply bind_inv in Hrest as ([] & st2 & Hloop & [= _ <-]).
  revert Hloop. unfold for_. intros Hloop.
  eapply (for_iter_preserves (sound_with r1)) in Hloop; [by destruct Hloop as (_ & ? & _)| |done].
  intros i [] s [] s' HP (x & s1 & ->%data_at_pure & Hc)%bind_inv.
  apply bind_inv in Hc as (c & s2 & ->%contains_pure & Hif).
  destruct c; simpl in Hif; [|by injection Hif as <-].
  apply bind_inv in Hif as (y & s3 & ->%data_at_pure & Hrm).
  apply bind_inv in Hrm as (res & s4 & Hrm & [= <-]).
  by eapply remove_sound_with.
Qed.

Lemma leak_free_empty : leak_free empty_state.
Proof using Type. intros p [c Hp]. simpl in Hp. by rewrite lookup_empty in Hp. Qed.

Lemma reachable_leak_free st : reachable DEFAULT_CAPACITY st → leak_free st.
Proof.
  induction 1 as [|st c st' Hreach IH Hobjs Hrun]; [apply leak_free_empty|].
  pose proof (reachable_valid _ Hreach) as Hv.
  rewrite Forall_forall in Hobjs.
  destruct c as [n|a|a b|a v|a v|a|a n|a b|a b|a b|a]; simpl in *.
  - apply bind_inv in Hrun as (r & st1 & Hop & [= <-]).
    eapply leak_free_creates; [by eapply IntSet_ctor_creates|done].
  - apply bind_inv in Hrun as (r & st1 & Hop & [= <-]).
    eapply leak_free_creates; [by eapply IntSet_copy_creates|done].
  - apply bind_inv in Hrun as (r & st1 & Hop & [= <-]).
    apply assign_allocation in Hop as (_ & [[_ ->]|[_ Hre]]); [done|].
    by eapply leak_free_reallocates.
  - apply bind_inv in Hrun as (r & st1 & Hop & [= <-]). by eapply leak_free_add.
  - apply bind_inv in Hrun as (r & st1 & Hop & [= <-]).
    eapply leak_free_keeps; [by eapply remove_keeps|done].
  - eapply leak_free_keeps; [by eapply set_used_keeps|done].
  - eapply leak_free_reallocates; [done|by eapply resize_reallocates|done].
  - apply bind_inv in Hrun as (r & st1 & Hop & [= <-]).
    eapply leak_free_unionWith; [done|done| |exact Hop]. apply Hobjs. left.
  - apply bind_inv in Hrun as (r & st1 & Hop & [= <-]).
    eapply leak_free_intersect; [done|done| |exact Hop]. apply Hobjs. left.
  - apply bind_inv in Hrun as (r & st1 & Hop & [= <-]).
    eapply leak_free_subtract; [done|done| |exact Hop]. apply Hobjs. left.
  - by eapply leak_free_dtor.
Qed.

(** X2. Memory is neither leaked nor shared nor left dangling: in every
    store a client can reach from the empty one, each allocated array is
    the buffer of exactly one live set, and the buffer of each live set is
    allocated.  In particular once every set has been destroyed no array
    remains allocated. *)
Theorem no_leak st :
  reachable DEFAULT_CAPACITY st →
  (∀ p, is_Some (heap st !! p) →
     ∃ a o, objs st !! a = Some o ∧ data o = p ∧
            ∀ b ob, objs st !! b = Some ob → data ob = p → b = a) ∧
  (∀ a o, objs st !! a = Some o → is_Some (heap st !! data o)) ∧
  (objs st = ∅ → heap st = ∅).
Proof.
  intros Hreach. pose proof (reachable_valid _ Hreach) as [Hinv Hown].
  pose proof (reachable_leak_free _ Hreach) as Hlf. split_and!.
  - intros p Hp. destruct (Hlf p Hp) as (a & o & Ha & Hd).
    exists a, o. split_and!; [done|done|].
    intros b ob Hb Hdb. eapply Hown; [exact Hb|exact Ha|congruence].
  - intros a o Ha. destruct (Hinv _ _ Ha) as (l & junk & Hh & _). by rewrite Hh.
  - intros Hempty. apply map_eq. intros p. rewrite lookup_empty.
    destruct (heap st !! p) as [c|] eqn:Hp; [|done].
    destruct (Hlf p) as (a & o & Ha & _); [by rewrite Hp|].
    by rewrite Hempty, lookup_empty in Ha.
Qed.

(** X3. [remove] and [reset] work in place on every store: whenever they
    return, no array has been allocated or released and every object has
    the array and the capacity it had ([reset] does not even write to the
    heap).  [add] works in place when it returns false or the buffer had a
    free cell; when it returns true on a full buffer it has reallocated the
    array of its own object exactly once. *)
Theorem mutators_in_place a v st st' :
  (∀ r, remove a v st = Some (r, st') → keeps_arrays st st') ∧
  (reset a st = Some (tt, st') → heap st' = heap st ∧ keeps_arrays st st') ∧
  (∀ r o, add DEFAULT_CAPACITY a v st = Some (r, st') → objs st !! a = Some o →
     (r = false ∨ used o < capacity o → keeps_arrays st st') ∧
     (r = true → capacity o ≤ used o →
        ∃ st1, reallocates a st st1 ∧ keeps_arrays st1 st')).
Proof using Type.
  split_and!.
  - intros r. apply remove_keeps.
  - unfold reset. intros Hset. split; [|by eapply set_used_keeps].
    by apply set_used_inv in Hset as (o & _ & ->).
  - intros r o (o' & Ho' & Hcases)%add_allocation Ho.
    rewrite Ho in Ho'. injection Ho' as <-. split.
    + intros Hin. destruct Hcases as [[_ Hk]|(-> & Hfull & _)]; [done|].
      destruct Hin as [?|?]; [done|lia].
    + intros -> Hfull. destruct Hcases as [[[?|?] _]|(_ & _ & Hre)]; [done|lia|done].
Qed.

(** X4. The constructor returns a new, empty set without touching the sets
    that exist: its capacity is the requested one, or [DEFAULT_CAPACITY]
    when the request is below 1; [isEmpty] is true, [size] is 0, [contains]
    is false for every value and [DumpData] writes nothing. *)
Theorem IntSet_ctor_correct st c :
  valid st →
  ∃ r st',
    IntSet_ctor DEFAULT_CAPACITY c st = Some (r, st') ∧
    objs st !! r = None ∧
    valid st' ∧
    contents st' = <[r := ([], if c <? 1 then DEFAULT_CAPACITY else c)]> (contents st) ∧
    isEmpty r st' = Some (true, st') ∧
    size r st' = Some (0, st') ∧
    (∀ v, contains r v st' = Some (false, st')) ∧
    (∀ out, DumpData r out st' = Some (out, st')).
Proof.
  intros Hv. destruct (IntSet_ctor_spec st c Hv) as (r & st' & Hrun & Hr & Hv' & Hc').
  assert (Hcr : contents st' !! r = Some ([], if c <? 1 then DEFAULT_CAPACITY else c))
    by (by rewrite Hc', lookup_insert_eq).
  exists r, st'. split_and!; try done.
  - by rewrite (isEmpty_spec _ _ _ _ Hv' Hcr).
  - by rewrite (size_spec _ _ _ _ Hv' Hcr).
  - intros v. by rewrite (contains_spec _ _ _ _ v Hv' Hcr).
  - intros out. rewrite (DumpData_spec _ _ _ _ out Hv' Hcr).
    unfold dump_string. simpl. by rewrite append_nil_r.
Qed.

(** X5. [reset] empties the set in place: the heap is untouched, the
    capacity is kept, every other set is as before, [isEmpty] is true and
    [contains] is false for every value; a value added next becomes the
    first element, without reallocation. *)
Theorem reset_correct st a (l : list Z) cap :
  valid st → contents st !! a = Some (l, cap) →
  ∃ st',
    reset a st = Some (tt, st') ∧
    valid st' ∧
    contents st' = <[a := ([], cap)]> (contents st) ∧
    heap st' = heap st ∧
    isEmpty a st' = Some (true, st') ∧
    (∀ v, contains a v st' = Some (false, st')) ∧
    (∀ v, ∃ st'',
       add DEFAULT_CAPACITY a v st' = Some (true, st'') ∧
       contents st'' = <[a := ([v], cap)]> (contents st) ∧
       heap st'' !! fresh (dom (heap st)) = None).
Proof using Type.
  intros Hv Hc. destruct (reset_spec st a l cap Hv Hc) as (st' & Hrun & Hv' & Hc').
  destruct (contents_lookup _ _ _ _ Hv Hc) as (_ & _ & _ & _ & _ & _ & H1).
  assert (Ha : contents st' !! a = Some ([], cap)) by (by rewrite Hc', lookup_insert_eq).
  assert (Hheap : heap st' = heap st).
  { unfold reset in Hrun. by apply set_used_inv in Hrun as (o & _ & ->). }
  exists st'. split_and!; try done.
  - by rewrite (isEmpty_spec _ _ _ _ Hv' Ha).
  - intros v. by rewrite (contains_spec _ _ _ _ v Hv' Ha).
  - intros v.
    destruct (add_new st' a [] cap v Hv' Ha) as (st'' & Hadd & Hv'' & Hc'').
    { apply not_elem_of_nil. }
    { left. simpl. lia. }
    simpl in Hc''. change (Z.of_nat 0) with 0 in Hc''.
    rewrite (proj2 (Z.leb_gt cap 0)) in Hc'' by lia.
    exists st''. split_and!; [done|by rewrite Hc'', Hc', insert_insert_eq|].
    destruct (contents_lookup _ _ _ _ Hv' Ha) as (p & junk & Ho & _ & Hcap & _).
    apply add_allocation in Hadd as (o & Ho' & [[_ [Hd _]]|(_ & Hfull & _)]).
    + apply not_elem_of_dom. rewrite Hd, Hheap. apply is_fresh.
    + rewrite Ho in Ho'. injection Ho' as <-. simpl in Hfull. lia.
Qed.

(** X6. The destructor ends the object and releases its array and nothing
    else: the address is no longer a live set, the array is no longer
    allocated, every other array stays allocated and every other set holds
    what it held. *)
Theorem IntSet_dtor_correct st a (l : list Z) cap :
  valid st → contents st !! a = Some (l, cap) →
  ∃ st' o,
    objs st !! a = Some o ∧
    IntSet_dtor a st = Some (tt, st') ∧
    valid st' ∧
    contents st' = delete a (contents st) ∧
    objs st' = delete a (objs st) ∧
    dom (heap st') = dom (heap st) ∖ {[data o]}.
Proof using Type.
  intros Hv Hc. destruct (IntSet_dtor_spec st a l cap Hv Hc) as (st' & Hrun & Hv' & Hc').
  destruct (IntSet_dtor_shape _ _ _ Hrun) as (o & Ho & Hobjs & Hdom).
  exists st', o. split_and!; done.
Qed.

(** X7. Membership after a mutation: after [add(v)] a value [w] is a member
    exactly when it was one before or [w = v]; after [remove(v)] exactly
    when it was one before and [w <> v].  [size] changes by 1 exactly when
    the call returns true.  For [add] this needs that [v] is a member, the
    buffer has a free cell, or its capacity is at most [GROWABLE]. *)
Theorem membership_after st a (l : list Z) cap v w :
  valid st → contents st !! a = Some (l, cap) →
  ∃ cw n,
    contains a w st = Some (cw, st) ∧ size a st = Some (n, st) ∧
    (v ∈ l ∨ Z.of_nat (length l) < cap ∨ cap ≤ GROWABLE →
     ∃ r st',
       add DEFAULT_CAPACITY a v st = Some (r, st') ∧
       contains a w st' = Some (cw || bool_decide (w = v), st') ∧
       size a st' = Some (if r then n + 1 else n, st')) ∧
    (∃ r st',
       remove a v st = Some (r, st') ∧
       contains a w st' = Some (cw && negb (bool_decide (w = v)), st') ∧
       size a st' = Some (if r then n - 1 else n, st')).
Proof using Type.
  intros Hv Hc. exists (bool_decide (w ∈ l)), (Z.of_nat (length l)).
  split; [by eapply contains_spec|]. split; [by eapply size_spec|]. split.
  - intros Hfit.
    destruct (add_spec st a l cap v Hv Hc Hfit) as (st' & cap' & Hrun & Hv' & Hc' & _).
    assert (Ha : contents st' !! a
                 = Some (if bool_decide (v ∈ l) then l else l ++ [v], cap'))
      by (by rewrite Hc', lookup_insert_eq).
    exists (negb (bool_decide (v ∈ l))), st'. split; [done|].
    rewrite (contains_spec _ _ _ _ w Hv' Ha), (size_spec _ _ _ _ Hv' Ha).
    destruct (decide (v ∈ l)) as [Hin|Hnin].
    + rewrite (bool_decide_eq_true_2 _ Hin). simpl. split; [|done].
      do 2 f_equal. destruct (decide (w = v)) as [->|Hne].
      * by rewrite (bool_decide_eq_true_2 _ Hin), orb_true_l.
      * by rewrite (bool_decide_eq_false_2 _ Hne), orb_false_r.
    + rewrite (bool_decide_eq_false_2 _ Hnin). simpl. split.
      * do 2 f_equal. rewrite <- bool_decide_or. apply bool_decide_ext.
        rewrite elem_of_app, list_elem_of_singleton. done.
      * do 2 f_equal. rewrite length_app. simpl. lia.
  - destruct (remove_spec st a l cap v Hv Hc) as (st' & Hrun & Hv' & Hc').
    assert (Ha : contents st' !! a = Some (filter (λ x, x ≠ v) l, cap))
      by (by rewrite Hc', lookup_insert_eq).
    exists (bool_decide (v ∈ l)), st'. split; [done|].
    rewrite (contains_spec _ _ _ _ w Hv' Ha), (size_spec _ _ _ _ Hv' Ha). split.
    + do 2 f_equal. rewrite <- bool_decide_not, <- bool_decide_and.
      apply bool_decide_ext. rewrite list_elem_of_filter. tauto.
    + do 2 f_equal. destruct (decide (v ∈ l)) as [Hin|Hnin].
      * rewrite (bool_decide_eq_true_2 _ Hin).
        destruct (list_elem_of_split _ _ Hin) as (l1 & l2 & ->).
        rewrite filter_remove_one;
          [|by destruct (contents_lookup _ _ _ _ Hv Hc) as (? & ? & _ & _ & _ & ? & _)].
        rewrite !length_app. simpl. lia.
      * rewrite (bool_decide_eq_false_2 _ Hnin).
        by rewrite filter_all by (intros x Hx ->; done).
Qed.

(** X8. Round trips.  Adding a new value (to a buffer with a free cell or
    of at most [GROWABLE] cells) and removing it again gives back the same
    elements in the same order (the capacity may have grown).
    Removing a member and adding it again keeps the set but moves the value
    to the last position, with the capacity unchanged: a re-added value
    counts as the newest member. *)
Theorem add_remove_round_trip st a (l : list Z) cap v :
  valid st → contents st !! a = Some (l, cap) →
  (v ∉ l → Z.of_nat (length l) < cap ∨ cap ≤ GROWABLE →
     ∃ st1 st2 cap',
       add DEFAULT_CAPACITY a v st = Some (true, st1) ∧
       remove a v st1 = Some (true, st2) ∧
       contents st2 = <[a := (l, cap')]> (contents st) ∧ cap ≤ cap') ∧
  (v ∈ l →
     ∃ st1 st2,
       remove a v st = Some (true, st1) ∧
       add DEFAULT_CAPACITY a v st1 = Some (true, st2) ∧
       contents st2 = <[a := (filter (λ x, x ≠ v) l ++ [v], cap)]> (contents st)).
Proof using Type.
  intros Hv Hc.
  destruct (contents_lookup _ _ _ _ Hv Hc) as (_ & junk & _ & _ & Hcap & Hnd & H1).
  split.
  - intros Hnin Hfit.
    destruct (add_new st a l cap v Hv Hc Hnin Hfit) as (st1 & Hadd & Hv1 & Hc1).
    set (cap' := if cap <=? Z.of_nat (length l) then grown_value cap else cap) in *.
    assert (Ha1 : contents st1 !! a = Some (l ++ v :: [], cap'))
      by (by rewrite Hc1, lookup_insert_eq).
    destruct (remove_member st1 a l [] cap' v Hv1 Ha1) as (st2 & Hrm & Hv2 & Hc2).
    exists st1, st2, cap'. split_and!; [done|done| |].
    + by rewrite Hc2, Hc1, insert_insert_eq, app_nil_r.
    + subst cap'. destruct (Z.leb_spec cap (Z.of_nat (length l))); [|lia].
      pose proof (grown_value_gt cap). lia.
  - intros Hin.
    destruct (remove_spec st a l cap v Hv Hc) as (st1 & Hrm & Hv1 & Hc1).
    rewrite (bool_decide_eq_true_2 _ Hin) in Hrm.
    assert (Ha1 : contents st1 !! a = Some (filter (λ x, x ≠ v) l, cap))
      by (by rewrite Hc1, lookup_insert_eq).
    destruct (add_new st1 a _ cap v Hv1 Ha1) as (st2 & Hadd & Hv2 & Hc2).
    { rewrite list_elem_of_filter. intros [Hne _]. by apply Hne. }
    { left. destruct (list_elem_of_split _ _ Hin) as (l1 & l2 & ->).
      rewrite filter_remove_one by done.
      rewrite !length_app in *. simpl in *. lia. }
    exists st1, st2. split_and!; [done|done|].
    rewrite Hc2, Hc1, insert_insert_eq. do 2 f_equal.
    destruct (Z.leb_spec cap (Z.of_nat (length (filter (λ x, x ≠ v) l)))) as [Hle|]; [|done].
    exfalso. destruct (list_elem_of_split _ _ Hin) as (l1 & l2 & ->).
    rewrite filter_remove_one in Hle by done.
    rewrite !length_app in *. simpl in *. lia.
Qed.

(** X9. [isSubsetOf] is a preorder on sets: every set is a subset of
    itself, and a subset of a subset is a subset.  A subset has at most as
    many elements: if [A.isSubsetOf(B)] then [A.size() <= B.size()]. *)
Theorem isSubsetOf_preorder st a b c (la lb lc : list Z) ca cb cc :
  valid st →
  contents st !! a = Some (la, ca) → contents st !! b = Some (lb, cb) →
  contents st !! c = Some (lc, cc) →
  isSubsetOf a a st = Some (true, st) ∧
  (isSubsetOf a b st = Some (true, st) → isSubsetOf b c st = Some (true, st) →
   isSubsetOf a c st = Some (true, st)) ∧
  (isSubsetOf a b st = Some (true, st) →
   ∃ na nb, size a st = Some (na, st) ∧ size b st = Some (nb, st) ∧ na ≤ nb).
Proof using Type.
  intros Hv Ha Hb Hc.
  rewrite (isSubsetOf_spec _ _ _ _ _ _ _ Hv Ha Ha).
  rewrite (isSubsetOf_spec _ _ _ _ _ _ _ Hv Ha Hb).
  rewrite (isSubsetOf_spec _ _ _ _ _ _ _ Hv Hb Hc).
  rewrite (isSubsetOf_spec _ _ _ _ _ _ _ Hv Ha Hc).
  split_and!.
  - by rewrite bool_decide_eq_true_2.
  - intros [= Hab%bool_decide_eq_true] [= Hbc%bool_decide_eq_true].
    rewrite bool_decide_eq_true_2; [done|]. by etrans.
  - intros [= Hab%bool_decide_eq_true].
    exists (Z.of_nat (length la)), (Z.of_nat (length lb)).
    split; [by eapply size_spec|]. split; [by eapply size_spec|].
    destruct (contents_lookup _ _ _ _ Hv Ha) as (_ & _ & _ & _ & _ & Hnd & _).
    apply Nat2Z.inj_le, submseteq_length, NoDup_submseteq; done.
Qed.

(** X10. [operator==] is transitive (with reflexivity and symmetry: an
    equivalence), and equal sets have the same [size()]. *)
Theorem equal_equivalence st a b c (la lb lc : list Z) ca cb cc :
  valid st →
  contents st !! a = Some (la, ca) → contents st !! b = Some (lb, cb) →
  contents st !! c = Some (lc, cc) →
  (equal a b st = Some (true, st) → equal b c st = Some (true, st) →
   equal a c st = Some (true, st)) ∧
  (equal a b st = Some (true, st) →
   ∃ n, size a st = Some (n, st) ∧ size b st = Some (n, st)).
Proof using Type.
  intros Hv Ha Hb Hc.
  rewrite (equal_spec _ _ _ _ _ _ _ Hv Ha Hb).
  rewrite (equal_spec _ _ _ _ _ _ _ Hv Hb Hc).
  rewrite (equal_spec _ _ _ _ _ _ _ Hv Ha Hc).
  destruct (contents_lookup _ _ _ _ Hv Ha) as (_ & _ & _ & _ & _ & Hnda & _).
  destruct (contents_lookup _ _ _ _ Hv Hb) as (_ & _ & _ & _ & _ & Hndb & _).
  split.
  - intros [= [H1%bool_decide_eq_true H2%bool_decide_eq_true]%andb_true_iff].
    intros [= [H3%bool_decide_eq_true H4%bool_decide_eq_true]%andb_true_iff].
    rewrite !bool_decide_eq_true_2; [done| |]; by etrans.
  - intros [= [H1%bool_decide_eq_true H2%bool_decide_eq_true]%andb_true_iff].
    exists (Z.of_nat (length la)).
    split; [by eapply size_spec|].
    rewrite (size_spec _ _ _ _ Hv Hb). do 3 f_equal.
    apply Nat.le_antisymm; apply submseteq_length, NoDup_submseteq; done.
Qed.

(** X11. [operator==] ignores the insertion order altogether: two default
    sets filled with the same distinct values, at most
    [max(DEFAULT_CAPACITY, GROWABLE + 1)] of them, in any two orders are
    equal, and have the same [size()]. *)
Theorem equal_any_order st (vs1 vs2 : list Z) :
  valid st → NoDup vs1 → vs1 ≡ₚ vs2 →
  Z.of_nat (length vs1) ≤ Z.max DEFAULT_CAPACITY (GROWABLE + 1) →
  ∃ A B st',
    (do A <- build DEFAULT_CAPACITY vs1;
     do B <- build DEFAULT_CAPACITY vs2;
     ret (A, B)) st = Some ((A, B), st') ∧
    equal A B st' = Some (true, st') ∧
    size A st' = size B st'.
Proof.
  intros Hv Hnd Hperm Hfit.
  assert (Hnd2 : NoDup vs2) by (by rewrite <- Hperm).
  destruct (build_two st vs1 vs2 Hv Hnd Hnd2)
    as (A & B & st' & cA & cB & Hrun & Hv' & _ & HA & HB);
    [done|by rewrite <- Hperm|].
  exists A, B, st'. split; [done|]. split.
  - rewrite (equal_spec _ _ _ _ _ _ _ Hv' HA HB).
    rewrite !bool_decide_eq_true_2; [done| |]; intros x; by rewrite Hperm.
  - rewrite (size_spec _ _ _ _ Hv' HA), (size_spec _ _ _ _ Hv' HB).
    by rewrite Hperm.
Qed.

(** X12. A copy and an assignment produce a set equal to their source: after
    [IntSet c(a)] we have [c == a], the same capacity and the same dump;
    after [a = b] for different objects we have [a == b] and the same dump. *)
Theorem copy_assign_equal st a b (la lb : list Z) ca cb :
  valid st → contents st !! a = Some (la, ca) → contents st !! b = Some (lb, cb) →
  (∃ c st1,
     IntSet_copy a st = Some (c, st1) ∧
     equal c a st1 = Some (true, st1) ∧
     contents st1 !! c = contents st1 !! a ∧
     ∀ out, DumpData c out st1 = DumpData a out st1) ∧
  (a ≠ b →
   ∃ st1,
     assign a b st = Some (a, st1) ∧
     equal a b st1 = Some (true, st1) ∧
     contents st1 !! a = contents st1 !! b ∧
     ∀ out, DumpData a out st1 = DumpData b out st1).
Proof using Type.
  intros Hv Ha Hb. split.
  - destruct (IntSet_copy_spec st a la ca Hv Ha) as (c & st1 & Hrun & Hc & Hv1 & Hc1).
    pose proof (fresh_ne _ _ _ _ Hc Ha) as Hac.
    assert (Ha1 : contents st1 !! a = Some (la, ca)) by (by rewrite Hc1, lookup_insert_ne).
    assert (Hcc : contents st1 !! c = Some (la, ca)) by (by rewrite Hc1, lookup_insert_eq).
    exists c, st1. split_and!; [done| |congruence|].
    + rewrite (equal_spec _ _ _ _ _ _ _ Hv1 Hcc Ha1).
      by rewrite bool_decide_eq_true_2.
    + intros out. by rewrite (DumpData_spec _ _ _ _ out Hv1 Hcc),
        (DumpData_spec _ _ _ _ out Hv1 Ha1).
  - intros Hne.
    destruct (assign_other st a b la lb ca cb Hne Hv Ha Hb)
      as (st1 & Hrun & [Hv1 Hc1] & _).
    assert (Ha1 : contents st1 !! a = Some (lb, cb)) by (by rewrite Hc1, lookup_insert_eq).
    assert (Hb1 : contents st1 !! b = Some (lb, cb))
      by (by rewrite Hc1, lookup_insert_ne).
    exists st1. split_and!; [done| |congruence|].
    + rewrite (equal_spec _ _ _ _ _ _ _ Hv1 Ha1 Hb1).
      by rewrite bool_decide_eq_true_2.
    + intros out. by rewrite (DumpData_spec _ _ _ _ out Hv1 Ha1),
        (DumpData_spec _ _ _ _ out Hv1 Hb1).
Qed.

(** The sets [a] and [b] as they are after a derived operation has created
    [r]. *)
Lemma operands_after st st' a b r x (la lb : list Z) ca cb :
  objs st !! r = None →
  contents st !! a = Some (la, ca) → contents st !! b = Some (lb, cb) →
  contents st' = <[r := x]> (contents st) →
  contents st' !! a = Some (la, ca) ∧ contents st' !! b = Some (lb, cb) ∧
  contents st' !! r = Some x.
Proof using Type.
  intros Hr Ha Hb ->.
  pose proof (fresh_ne _ _ _ _ Hr Ha). pose proof (fresh_ne _ _ _ _ Hr Hb).
  split_and!.
  - by rewrite lookup_insert_ne.
  - by rewrite lookup_insert_ne.
  - by rewrite lookup_insert_eq.
Qed.

(** X13. How the results sit between the operands: both operands are
    subsets of [A.unionWith(B)], when the union has at most
    [max(capacity of A, GROWABLE + 1)] elements; [A.intersect(B)] is a
    subset of both; [A.subtract(B)] is a subset of [A] and shares no value
    with [B]. *)
Theorem derived_subsets st a b (la lb : list Z) ca cb :
  valid st → contents st !! a = Some (la, ca) → contents st !! b = Some (lb, cb) →
  (Z.of_nat (length (la ++ filter (λ x, x ∉ la) lb)) ≤ Z.max ca (GROWABLE + 1) →
   ∃ r st',
     unionWith DEFAULT_CAPACITY a b st = Some (r, st') ∧
     isSubsetOf a r st' = Some (true, st') ∧ isSubsetOf b r st' = Some (true, st')) ∧
  (∃ r st',
     intersect a b st = Some (r, st') ∧
     isSubsetOf r a st' = Some (true, st') ∧ isSubsetOf r b st' = Some (true, st')) ∧
  (∃ r st',
     subtract a b st = Some (r, st') ∧
     isSubsetOf r a st' = Some (true, st') ∧
     ∀ v, contains r v st' = Some (true, st') → contains b v st' = Some (false, st')).
Proof using Type.
  intros Hv Ha Hb. split_and!.
  - intros Hfit.
    destruct (unionWith_spec st a b la lb ca cb Hv Ha Hb Hfit)
      as (r & st' & cr & Hrun & Hr & Hv' & Hc').
    destruct (operands_after _ _ _ _ _ _ _ _ _ _ Hr Ha Hb Hc') as (Ha' & Hb' & Hr').
    exists r, st'. split; [done|].
    rewrite (isSubsetOf_spec _ _ _ _ _ _ _ Hv' Ha' Hr').
    rewrite (isSubsetOf_spec _ _ _ _ _ _ _ Hv' Hb' Hr').
    rewrite !bool_decide_eq_true_2; [done| |].
    + intros x Hx. rewrite elem_of_app, list_elem_of_filter.
      destruct (decide (x ∈ la)); tauto.
    + intros x Hx. apply elem_of_app. by left.
  - destruct (intersect_spec st a b la lb ca cb Hv Ha Hb)
      as (r & st' & Hrun & Hr & Hv' & Hc').
    destruct (operands_after _ _ _ _ _ _ _ _ _ _ Hr Ha Hb Hc') as (Ha' & Hb' & Hr').
    exists r, st'. split; [done|].
    rewrite (isSubsetOf_spec _ _ _ _ _ _ _ Hv' Hr' Ha').
    rewrite (isSubsetOf_spec _ _ _ _ _ _ _ Hv' Hr' Hb').
    rewrite !bool_decide_eq_true_2; [done| |];
      intros x [? ?]%list_elem_of_filter; done.
  - destruct (subtract_spec st a b la lb ca cb Hv Ha Hb)
      as (r & st' & Hrun & Hr & Hv' & Hc').
    destruct (operands_after _ _ _ _ _ _ _ _ _ _ Hr Ha Hb Hc') as (Ha' & Hb' & Hr').
    exists r, st'. split; [done|]. split.
    + rewrite (isSubsetOf_spec _ _ _ _ _ _ _ Hv' Hr' Ha').
      rewrite bool_decide_eq_true_2; [done|].
      intros x [? ?]%list_elem_of_filter; done.
    + intros v. rewrite (contains_spec _ _ _ _ v Hv' Hr'),
        (contains_spec _ _ _ _ v Hv' Hb').
      intros [= [Hnin _]%bool_decide_eq_true%list_elem_of_filter].
      by rewrite (bool_decide_eq_false_2 _ Hnin).
Qed.

Lemma union_length_comm (la lb : list Z) :
  NoDup la → NoDup lb →
  length (lb ++ filter (λ x, x ∉ lb) la) = length (la ++ filter (λ x, x ∉ la) lb).
Proof using Type.
  intros Ha Hb. apply Permutation_length, NoDup_Permutation.
  - apply NoDup_app. split; [done|]. split; [|by apply NoDup_filter].
    intros x Hx [Hn _]%list_elem_of_filter. done.
  - apply NoDup_app. split; [done|]. split; [|by apply NoDup_filter].
    intros x Hx [Hn _]%list_elem_of_filter. done.
  - intros x. rewrite !elem_of_app, !list_elem_of_filter.
    destruct (decide (x ∈ la)), (decide (x ∈ lb)); tauto.
Qed.

(** X14. Union and intersection are commutative up to [operator==]:
    [A.unionWith(B) == B.unionWith(A)], when the union has at most
    [max(min(capacity of A, capacity of B), GROWABLE + 1)] elements, and
    [A.intersect(B) == B.intersect(A)], although the two results list their
    elements in different orders. *)
Theorem union_intersect_commute st a b (la lb : list Z) ca cb :
  valid st → contents st !! a = Some (la, ca) → contents st !! b = Some (lb, cb) →
  (Z.of_nat (length (la ++ filter (λ x, x ∉ la) lb))
     ≤ Z.max (Z.min ca cb) (GROWABLE + 1) →
   ∃ r1 r2 st',
     (do r1 <- unionWith DEFAULT_CAPACITY a b;
      do r2 <- unionWith DEFAULT_CAPACITY b a;
      ret (r1, r2)) st = Some ((r1, r2), st') ∧
     equal r1 r2 st' = Some (true, st')) ∧
  (∃ r1 r2 st',
     (do r1 <- intersect a b; do r2 <- intersect b a; ret (r1, r2)) st
       = Some ((r1, r2), st') ∧
     equal r1 r2 st' = Some (true, st')).
Proof using Type.
  intros Hv Ha Hb. split.
  - intros Hfit.
    destruct (contents_lookup _ _ _ _ Hv Ha) as (_ & _ & _ & _ & _ & Hnda & _).
    destruct (contents_lookup _ _ _ _ Hv Hb) as (_ & _ & _ & _ & _ & Hndb & _).
    destruct (unionWith_spec st a b la lb ca cb Hv Ha Hb)
      as (r1 & st1 & c1 & Hrun1 & Hr1 & Hv1 & Hc1); [lia|].
    destruct (operands_after _ _ _ _ _ _ _ _ _ _ Hr1 Ha Hb Hc1) as (Ha1 & Hb1 & Hr1').
    destruct (unionWith_spec st1 b a lb la cb ca Hv1 Hb1 Ha1)
      as (r2 & st2 & c2 & Hrun2 & Hr2 & Hv2 & Hc2);
      [rewrite (union_length_comm la lb Hnda Hndb); lia|].
    pose proof (fresh_ne _ _ _ _ Hr2 Hr1') as Hne.
    exists r1, r2, st2. mrun Hrun1. mrun Hrun2. split; [done|].
    erewrite equal_spec; [|done| |].
    2: { rewrite Hc2, lookup_insert_ne by done. exact Hr1'. }
    2: { by rewrite Hc2, lookup_insert_eq. }
    rewrite !bool_decide_eq_true_2; [done| |]; intros x;
      rewrite !elem_of_app, !list_elem_of_filter;
      destruct (decide (x ∈ la)), (decide (x ∈ lb)); tauto.
  - destruct (intersect_spec st a b la lb ca cb Hv Ha Hb)
      as (r1 & st1 & Hrun1 & Hr1 & Hv1 & Hc1).
    destruct (operands_after _ _ _ _ _ _ _ _ _ _ Hr1 Ha Hb Hc1) as (Ha1 & Hb1 & Hr1').
    destruct (intersect_spec st1 b a lb la cb ca Hv1 Hb1 Ha1)
      as (r2 & st2 & Hrun2 & Hr2 & Hv2 & Hc2).
    pose proof (fresh_ne _ _ _ _ Hr2 Hr1') as Hne.
    exists r1, r2, st2. mrun Hrun1. mrun Hrun2. split; [done|].
    erewrite equal_spec; [|done| |].
    2: { rewrite Hc2, lookup_insert_ne by done. exact Hr1'. }
    2: { by rewrite Hc2, lookup_insert_eq. }
    rewrite !bool_decide_eq_true_2; [done| |]; intros x;
      rewrite !list_elem_of_filter; tauto.
Qed.

Lemma filter_none (P : Z → Prop) `{∀ x, Decision (P x)} (l : list Z) :
  (∀ x, x ∈ l → ¬ P x) → filter P l = [].
Proof using Type.
  induction l as [|x l IH]; intros HP; [done|].
  rewrite filter_cons_False by (apply HP; left).
  apply IH. intros y Hy. apply HP. by right.
Qed.



(** X15. Degenerate operands.  A set combined with itself: the union and
    the intersection hold the same elements in the same order as the set,
    the difference is empty.  A set combined with an empty set: the union
    and the difference hold the set's elements in order, the intersection is
    empty, and subtracting from the empty set gives the empty set.  The
    union that starts from the empty set [B] has to take in all of [A]:
    that one needs [A] to have at most [max(capacity of B, GROWABLE + 1)]
    elements. *)
Theorem self_and_empty st a b (la lb : list Z) ca cb :
  valid st → contents st !! a = Some (la, ca) → contents st !! b = Some (lb, cb) →
  (∃ r st' c, unionWith DEFAULT_CAPACITY a a st = Some (r, st') ∧
              contents st' !! r = Some (la, c)) ∧
  (∃ r st', intersect a a st = Some (r, st') ∧ contents st' !! r = Some (la, ca)) ∧
  (∃ r st', subtract a a st = Some (r, st') ∧ isEmpty r st' = Some (true, st')) ∧
  (lb = [] →
   (∃ r st' c, unionWith DEFAULT_CAPACITY a b st = Some (r, st') ∧
               contents st' !! r = Some (la, c)) ∧
   (Z.of_nat (length la) ≤ Z.max cb (GROWABLE + 1) →
    ∃ r st' c, unionWith DEFAULT_CAPACITY b a st = Some (r, st') ∧
               contents st' !! r = Some (la, c)) ∧
   (∃ r st', intersect a b st = Some (r, st') ∧ isEmpty r st' = Some (true, st')) ∧
   (∃ r st', intersect b a st = Some (r, st') ∧ isEmpty r st' = Some (true, st')) ∧
   (∃ r st', subtract a b st = Some (r, st') ∧ contents st' !! r = Some (la, ca)) ∧
   (∃ r st', subtract b a st = Some (r, st') ∧ isEmpty r st' = Some (true, st'))).
Proof using Type.
  intros Hv Ha Hb.
  destruct (contents_lookup _ _ _ _ Hv Ha) as (pa & junka & _ & _ & Hlen & _ & _).
  split_and!.
  - destruct (unionWith_spec st a a la la ca ca Hv Ha Ha)
      as (r & st' & cr & Hrun & Hr & Hv' & Hc').
    { rewrite filter_none, app_nil_r by (intros x Hx Hn; by apply Hn). lia. }
    exists r, st', cr. split; [done|]. rewrite Hc', lookup_insert_eq.
    by rewrite filter_none, app_nil_r by (intros x Hx Hn; by apply Hn).
  - destruct (intersect_spec st a a la la ca ca Hv Ha Ha)
      as (r & st' & Hrun & Hr & Hv' & Hc').
    exists r, st'. split; [done|]. rewrite Hc', lookup_insert_eq.
    by rewrite filter_all.
  - destruct (subtract_spec st a a la la ca ca Hv Ha Ha)
      as (r & st' & Hrun & Hr & Hv' & Hc').
    exists r, st'. split; [done|].
    erewrite isEmpty_spec; [|done|by rewrite Hc', lookup_insert_eq].
    by rewrite filter_none by (intros x Hx Hn; by apply Hn).
  - intros ->. split_and!.
    + destruct (unionWith_spec st a b la [] ca cb Hv Ha Hb)
        as (r & st' & cr & Hrun & Hr & Hv' & Hc').
      { rewrite filter_nil, app_nil_r. lia. }
      exists r, st', cr. split; [done|]. rewrite Hc', lookup_insert_eq.
      by rewrite filter_nil, app_nil_r.
    + intros Hfit.
      destruct (unionWith_spec st b a [] la cb ca Hv Hb Ha)
        as (r & st' & cr & Hrun & Hr & Hv' & Hc').
      { by rewrite filter_all by (intros x _; apply not_elem_of_nil). }
      exists r, st', cr. split; [done|]. rewrite Hc', lookup_insert_eq.
      by rewrite filter_all by (intros x _; apply not_elem_of_nil).
    + destruct (intersect_spec st a b la [] ca cb Hv Ha Hb)
        as (r & st' & Hrun & Hr & Hv' & Hc').
      exists r, st'. split; [done|].
      erewrite isEmpty_spec; [|done|by rewrite Hc', lookup_insert_eq].
      by rewrite filter_none by (intros x _; apply not_elem_of_nil).
    + destruct (intersect_spec st b a [] la cb ca Hv Hb Ha)
        as (r & st' & Hrun & Hr & Hv' & Hc').
      exists r, st'. split; [done|].
      by erewrite isEmpty_spec; [|done|by rewrite Hc', lookup_insert_eq].
    + destruct (subtract_spec st a b la [] ca cb Hv Ha Hb)
        as (r & st' & Hrun & Hr & Hv' & Hc').
      exists r, st'. split; [done|]. rewrite Hc', lookup_insert_eq.
      by rewrite filter_all by (intros x _; apply not_elem_of_nil).
    + destruct (subtract_spec st b a [] la cb ca Hv Hb Ha)
        as (r & st' & Hrun & Hr & Hv' & Hc').
      exists r, st'. split; [done|].
      by erewrite isEmpty_spec; [|done|by rewrite Hc', lookup_insert_eq].
Qed.


(** The capacity a set of [n] elements can have reached by growing from
    [DEFAULT_CAPACITY] through [resize(int(1.5 * capacity) + 1)]. *)
Lemma capacity_bound_mono (n m : Z) :
  n ≤ m →
  Z.max DEFAULT_CAPACITY (3 * (n - 1) / 2 + 1)
  ≤ Z.max DEFAULT_CAPACITY (3 * (m - 1) / 2 + 1).
Proof using Type.
  intros Hnm.
  assert (3 * (n - 1) / 2 ≤ 3 * (m - 1) / 2) by (apply Z.div_le_mono; lia).
  lia.
Qed.

Lemma remove_dups_length_ext (l1 l2 : list Z) :
  (∀ x, x ∈ l1 ↔ x ∈ l2) → length (remove_dups l1) = length (remove_dups l2).
Proof using Type.
  intros Hext. apply Permutation_length, NoDup_Permutation.
  - apply NoDup_remove_dups.
  - apply NoDup_remove_dups.
  - intros x. by rewrite !elem_of_remove_dups.
Qed.

Lemma add_all_any st a (l : list Z) cap vs :
  valid st → contents st !! a = Some (l, cap) →
  Z.of_nat (length (remove_dups (l ++ vs))) ≤ Z.max cap (GROWABLE + 1) →
  cap ≤ Z.max DEFAULT_CAPACITY (3 * (Z.of_nat (length l) - 1) / 2 + 1) →
  ∃ st' l' cap',
    add_all DEFAULT_CAPACITY a vs st = Some (tt, st') ∧
    valid st' ∧ contents st' = <[a := (l', cap')]> (contents st) ∧
    (∀ v, v ∈ l' ↔ v ∈ l ∨ v ∈ vs) ∧
    cap' ≤ Z.max DEFAULT_CAPACITY (3 * (Z.of_nat (length l') - 1) / 2 + 1).
Proof using Type.
  revert st l cap. induction vs as [|v vs IH]; intros st l cap Hv Hc Hfit Hcap.
  - exists st, l, cap. split_and!; [done|done| | |done].
    + symmetry. by apply insert_id.
    + intros v. split; [by left|]. by intros [?|?%elem_of_nil].
  - simpl. destruct (decide (v ∈ l)) as [Hin|Hnin].
    + mrun (add_member st a l cap v Hv Hc Hin).
      destruct (IH st l cap Hv Hc) as (st' & l' & cap' & Hrun & Hv' & Hc' & Hm & Hb);
        [|done|].
      { rewrite (remove_dups_length_ext (l ++ vs) (l ++ v :: vs)); [done|].
        intros x. rewrite !elem_of_app, elem_of_cons. split; [tauto|].
        intros [?|[->|?]]; tauto. }
      exists st', l', cap'. split_and!; [done|done|done| |done].
      intros x. rewrite Hm, elem_of_cons. split; [tauto|].
      intros [?|[->|?]]; tauto.
    + destruct (contents_lookup _ _ _ _ Hv Hc) as (p & junk & _ & _ & Hlen & Hnd & _).
      assert (Hgrow : (length (l ++ [v]) ≤ length (remove_dups (l ++ v :: vs)))%nat).
      { apply submseteq_length, NoDup_submseteq.
        - apply NoDup_app. split; [done|]. split; [|apply NoDup_singleton].
          intros x Hx ->%list_elem_of_singleton. done.
        - intros x Hx. apply elem_of_remove_dups, elem_of_app.
          apply elem_of_app in Hx as [?|Hx]; [by left|].
          apply list_elem_of_singleton in Hx as ->. right. left. }
      rewrite length_app in Hgrow. simpl in Hgrow.
      destruct (add_new st a l cap v Hv Hc Hnin) as (st1 & Hadd & Hv1 & Hc1); [lia|].
      mrun Hadd.
      pose proof (grown_value_gt cap) as Hgt.
      destruct (IH st1 (l ++ [v])
                  (if cap <=? Z.of_nat (length l) then grown_value cap else cap) Hv1)
        as (st' & l' & cap' & Hrun & Hv' & Hc' & Hm & Hb);
        [by rewrite Hc1, lookup_insert_eq| | |].
      { rewrite <- app_assoc. simpl.
        destruct (cap <=? Z.of_nat (length l)); lia. }
      { rewrite length_app. simpl.
        replace (Z.of_nat (length l + 1) - 1) with (Z.of_nat (length l)) by lia.
        destruct (Z.leb_spec cap (Z.of_nat (length l))) as [Hfull|Hroom].
        - assert (Hfull' : cap = Z.of_nat (length l)) by lia.
          rewrite Hfull'. unfold grown_value. rewrite Z.quot_div_nonneg by lia. lia.
        - etransitivity; [exact Hcap|].
          pose proof (capacity_bound_mono (Z.of_nat (length l))
                        (Z.of_nat (length l) + 1)) as Hmono.
          replace (Z.of_nat (length l) + 1 - 1) with (Z.of_nat (length l)) in Hmono
            by lia.
          apply Hmono. lia. }
      exists st', l', cap'. split_and!; [done|done| | |done].
      * by rewrite Hc', Hc1, insert_insert_eq.
      * intros x. rewrite Hm, elem_of_app, list_elem_of_singleton, (elem_of_cons vs x v).
        tauto.
Qed.

Lemma build_any st vs :
  valid st →
  Z.of_nat (length (remove_dups vs)) ≤ Z.max DEFAULT_CAPACITY (GROWABLE + 1) →
  ∃ a st' l' cap',
    build DEFAULT_CAPACITY vs st = Some (a, st') ∧
    objs st !! a = None ∧
    valid st' ∧ contents st' = <[a := (l', cap')]> (contents st) ∧
    (∀ v, v ∈ l' ↔ v ∈ vs) ∧
    cap' ≤ Z.max DEFAULT_CAPACITY (3 * (Z.of_nat (length l') - 1) / 2 + 1).
Proof.
  intros Hv Hfit. unfold build.
  destruct (IntSet_ctor_spec st DEFAULT_CAPACITY Hv) as (a & st1 & Hctor & Ha & Hv1 & Hc1).
  mrun Hctor.
  destruct (add_all_any st1 a []
              (if DEFAULT_CAPACITY <? 1 then DEFAULT_CAPACITY else DEFAULT_CAPACITY)
              vs Hv1) as (st2 & l' & cap' & Hrun & Hv2 & Hc2 & Hm & Hb);
    [by rewrite Hc1, lookup_insert_eq|destruct (DEFAULT_CAPACITY <? 1); exact Hfit
    |destruct (DEFAULT_CAPACITY <? 1); lia|].
  mrun Hrun. exists a, st2, l', cap'. split_and!; [done|done|done| | |done].
  - by rewrite Hc2, Hc1, insert_insert_eq.
  - intros v. rewrite Hm. split; [by intros [?%elem_of_nil|?]|by right].
Qed.

(** X17. A set filled from any list, duplicates included, with at most
    [max(DEFAULT_CAPACITY, GROWABLE + 1)] distinct values: building
    succeeds, the set contains exactly the values of the list, and its size
    is the number of distinct values of the list. *)
Theorem build_with_duplicates st vs :
  valid st →
  Z.of_nat (length (remove_dups vs)) ≤ Z.max DEFAULT_CAPACITY (GROWABLE + 1) →
  ∃ a st',
    build DEFAULT_CAPACITY vs st = Some (a, st') ∧ valid st' ∧
    (∀ v, contains a v st' = Some (bool_decide (v ∈ vs), st')) ∧
    size a st' = Some (Z.of_nat (length (remove_dups vs)), st').
Proof.
  intros Hv Hfit.
  destruct (build_any st vs Hv Hfit)
    as (a & st' & l' & cap' & Hrun & _ & Hv' & Hc' & Hm & _).
  assert (Ha : contents st' !! a = Some (l', cap')) by by rewrite Hc', lookup_insert_eq.
  exists a, st'. split_and!; [done|done| |].
  - intros v. rewrite (contains_spec _ _ _ _ v Hv' Ha). f_equal. f_equal.
    apply bool_decide_ext, Hm.
  - rewrite (size_spec _ _ _ _ Hv' Ha). do 3 f_equal.
    destruct (contents_lookup _ _ _ _ Hv' Ha) as (_ & _ & _ & _ & _ & Hnd & _).
    apply Permutation_length, NoDup_Permutation; [done|apply NoDup_remove_dups|].
    intros x. by rewrite Hm, elem_of_remove_dups.
Qed.

(** X18. Growth never runs away: a set filled from a default-constructed
    one, with at most [max(DEFAULT_CAPACITY, GROWABLE + 1)] distinct
    values, and now holding [n] elements has a capacity of at least [n] and
    at most [max(DEFAULT_CAPACITY, 3 * (n - 1) / 2 + 1)]. *)
Theorem build_capacity st vs :
  valid st →
  Z.of_nat (length (remove_dups vs)) ≤ Z.max DEFAULT_CAPACITY (GROWABLE + 1) →
  ∃ a st' l cap,
    build DEFAULT_CAPACITY vs st = Some (a, st') ∧
    contents st' !! a = Some (l, cap) ∧
    Z.of_nat (length l) ≤ cap ∧
    cap ≤ Z.max DEFAULT_CAPACITY (3 * (Z.of_nat (length l) - 1) / 2 + 1).
Proof.
  intros Hv Hfit.
  destruct (build_any st vs Hv Hfit)
    as (a & st' & l' & cap' & Hrun & _ & Hv' & Hc' & _ & Hb).
  assert (Ha : contents st' !! a = Some (l', cap')) by by rewrite Hc', lookup_insert_eq.
  destruct (contents_lookup _ _ _ _ Hv' Ha) as (p & junk & _ & _ & Hlen & _ & _).
  exists a, st', l', cap'. split_and!; [done|done|lia|done].
Qed.

(** X19. What [DumpData] shows after a change: adding a new value to a
    non-empty set appends two spaces and the value to the dump, adding to an
    empty set gives the value alone, and adding a member changes nothing
    ([add] as far as it is defined: the value is a member, the buffer has a
    free cell, or its capacity is at most [GROWABLE]). *)
Theorem dump_after_add st a (l : list Z) cap v out :
  valid st → contents st !! a = Some (l, cap) →
  v ∈ l ∨ Z.of_nat (length l) < cap ∨ cap ≤ GROWABLE →
  ∃ r st',
    add DEFAULT_CAPACITY a v st = Some (r, st') ∧
    DumpData a out st' =
      Some (if bool_decide (v ∈ l) then out +:+ dump_string l
            else match l with
                 | [] => out +:+ pretty v
                 | _ :: _ => out +:+ dump_string l +:+ "  " +:+ pretty v
                 end, st').
Proof using Type.
  intros Hv Hc Hfit.
  destruct (add_spec st a l cap v Hv Hc Hfit) as (st' & cap' & Hadd & Hv' & Hc' & _).
  exists (negb (bool_decide (v ∈ l))), st'. split; [done|].
  erewrite DumpData_spec; [|done|by rewrite Hc', lookup_insert_eq].
  destruct (bool_decide (v ∈ l)); [done|]. f_equal. f_equal.
  destruct l as [|x l]; [done|].
  unfold dump_string. rewrite fmap_app.
  change (pretty <$> x :: l) with (pretty x :: (pretty <$> l)).
  change (pretty <$> [v]) with [pretty v].
  by rewrite concat_snoc.
Qed.

(** X20. Results own their storage: after [a = b] (two objects), and for
    the set returned by [unionWith], [intersect] or [subtract], any sequence
    of [add] and [remove] calls on one of the sets involved leaves the
    others as they were.  The sequence must not bring the set it is applied
    to above [max(capacity, GROWABLE + 1)] elements, one per call at most,
    and likewise the union. *)
Theorem results_independent st a b (la lb : list Z) ca cb ms :
  valid st → contents st !! a = Some (la, ca) → contents st !! b = Some (lb, cb) →
  (a ≠ b → Z.of_nat (length lb + length ms) ≤ Z.max cb (GROWABLE + 1) →
   ∃ st1, assign a b st = Some (a, st1) ∧
     (∃ st2, mutate DEFAULT_CAPACITY a ms st1 = Some (tt, st2) ∧
             contents st2 !! b = Some (lb, cb)) ∧
     (∃ st2, mutate DEFAULT_CAPACITY b ms st1 = Some (tt, st2) ∧
             contents st2 !! a = contents st1 !! a)) ∧
  (Z.of_nat (length (la ++ filter (λ x, x ∉ la) lb) + length ms)
     ≤ Z.max ca (GROWABLE + 1) →
   ∃ r st1, unionWith DEFAULT_CAPACITY a b st = Some (r, st1) ∧
     ∃ st2, mutate DEFAULT_CAPACITY r ms st1 = Some (tt, st2) ∧
            contents st2 !! a = Some (la, ca) ∧ contents st2 !! b = Some (lb, cb)) ∧
  (Z.of_nat (length la + length ms) ≤ Z.max ca (GROWABLE + 1) →
   (∃ r st1, intersect a b st = Some (r, st1) ∧
      ∃ st2, mutate DEFAULT_CAPACITY r ms st1 = Some (tt, st2) ∧
             contents st2 !! a = Some (la, ca) ∧ contents st2 !! b = Some (lb, cb)) ∧
   (∃ r st1, subtract a b st = Some (r, st1) ∧
      ∃ st2, mutate DEFAULT_CAPACITY r ms st1 = Some (tt, st2) ∧
             contents st2 !! a = Some (la, ca) ∧ contents st2 !! b = Some (lb, cb))).
Proof using Type.
  intros Hv Ha Hb. split_and!.
  - intros Hab Hfit.
    destruct (assign_other st a b la lb ca cb Hab Hv Ha Hb)
      as (st1 & Hrun & [Hv1 Hc1] & _).
    exists st1. split; [done|].
    assert (Ha1 : contents st1 !! a = Some (lb, cb)) by by rewrite Hc1, lookup_insert_eq.
    assert (Hb1 : contents st1 !! b = Some (lb, cb))
      by by rewrite Hc1, lookup_insert_ne.
    split.
    + destruct (mutate_spec st1 a lb cb ms Hv1 Ha1 Hfit)
        as (st2 & l2 & c2 & Hm & _ & Hc2).
      exists st2. split; [done|]. by rewrite Hc2, lookup_insert_ne.
    + destruct (mutate_spec st1 b lb cb ms Hv1 Hb1 Hfit)
        as (st2 & l2 & c2 & Hm & _ & Hc2).
      exists st2. split; [done|]. by rewrite Hc2, lookup_insert_ne.
  - intros Hfit.
    destruct (unionWith_run st a b la lb ca cb Hv Ha Hb)
      as (r & st1 & cr & Hrun & Hr & Hv1 & Hc1 & Hle); [lia|].
    destruct (operands_after st st1 a b r _ la lb ca cb Hr Ha Hb Hc1) as (Ha1 & Hb1 & Hr1).
    destruct (mutate_spec st1 r _ _ ms Hv1 Hr1) as (st2 & l2 & c2 & Hm & _ & Hc2); [lia|].
    exists r, st1. split; [done|]. exists st2. split; [done|].
    pose proof (fresh_ne _ _ _ _ Hr Ha). pose proof (fresh_ne _ _ _ _ Hr Hb).
    by rewrite Hc2, !lookup_insert_ne.
  - intros Hfit. split.
    + destruct (intersect_spec st a b la lb ca cb Hv Ha Hb)
        as (r & st1 & Hrun & Hr & Hv1 & Hc1).
      destruct (operands_after st st1 a b r _ la lb ca cb Hr Ha Hb Hc1)
        as (Ha1 & Hb1 & Hr1).
      destruct (mutate_spec st1 r _ _ ms Hv1 Hr1) as (st2 & l2 & c2 & Hm & _ & Hc2).
      { pose proof (length_filter (λ x, x ∈ lb) la). lia. }
      exists r, st1. split; [done|]. exists st2. split; [done|].
      pose proof (fresh_ne _ _ _ _ Hr Ha). pose proof (fresh_ne _ _ _ _ Hr Hb).
      by rewrite Hc2, !lookup_insert_ne.
    + destruct (subtract_spec st a b la lb ca cb Hv Ha Hb)
        as (r & st1 & Hrun & Hr & Hv1 & Hc1).
      destruct (operands_after st st1 a b r _ la lb ca cb Hr Ha Hb Hc1)
        as (Ha1 & Hb1 & Hr1).
      destruct (mutate_spec st1 r _ _ ms Hv1 Hr1) as (st2 & l2 & c2 & Hm & _ & Hc2).
      { pose proof (length_filter (λ x, x ∉ lb) la). lia. }
      exists r, st1. split; [done|]. exists st2. split; [done|].
      pose proof (fresh_ne _ _ _ _ Hr Ha). pose proof (fresh_ne _ _ _ _ Hr Hb).
      by rewrite Hc2, !lookup_insert_ne.
Qed.

End correct.

(** ** The main results on a concrete store *)

Lemma example_store_valid : valid example_store.
Proof. apply validb_sound. by vm_compute. Qed.

Lemma remove_correct_witness :
  valid example_store ∧
  contents example_store !! 1%positive = Some ([1; 2; 3], 3) ∧
  ∃ st', remove 1 2 example_store = Some (true, st') ∧
         size 1 st' = Some (2, st') ∧
         contains 1 2 st' = Some (false, st').
Proof.
  assert (Hv : valid example_store) by (apply validb_sound; vm_compute; reflexivity).
  assert (Hc : contents example_store !! 1%positive = Some ([1; 2; 3], 3))
    by (vm_compute; reflexivity).
  split; [exact Hv|]. split; [exact Hc|].
  destruct (remove_correct example_store 1 [1; 2; 3] 3 2 Hv Hc) as (_ & Hmem & _).
  destruct Hmem as (st' & l1 & l2 & _ & Hrun & _ & _ & Hsize & Hcont & _).
  { apply (bool_decide_unpack _). vm_compute. exact I. }
  exists st'. split; [exact Hrun|]. split; [exact Hsize|exact Hcont].
Defined.






Lemma isSubsetOf_correct_witness :
  valid example_store ∧
  contents example_store !! 1%positive = Some ([1; 2; 3], 3) ∧
  contents example_store !! 2%positive = Some ([2; 3; 4], 4) ∧
  ∃ r, isSubsetOf 1 2 example_store = Some (r, example_store) ∧
       (r = true ↔
        ∀ x, x ∈ [1; 2; 3] → contains 2 x example_store = Some (true, example_store)).
Proof.
  assert (Hv : valid example_store) by (apply validb_sound; vm_compute; reflexivity).
  assert (Ha : contents example_store !! 1%positive = Some ([1; 2; 3], 3))
    by (vm_compute; reflexivity).
  assert (Hb : contents example_store !! 2%positive = Some ([2; 3; 4], 4))
    by (vm_compute; reflexivity).
  split; [exact Hv|]. split; [exact Ha|]. split; [exact Hb|].
  destruct (isSubsetOf_correct example_store 1 2 [1; 2; 3] [2; 3; 4] 3 4 Hv Ha Hb)
    as (r & Hrun & Hiff & _).
  exists r. split; [exact Hrun|exact Hiff].
Defined.

Lemma equal_correct_witness :
  1 ≤ 1 ∧ valid example_store ∧
  contents example_store !! 1%positive = Some ([1; 2; 3], 3) ∧
  contents example_store !! 2%positive = Some ([2; 3; 4], 4) ∧
  equal 1 1 example_store = Some (true, example_store) ∧
  ∃ r, equal 1 2 example_store = Some (r, example_store) ∧
       equal 2 1 example_store = Some (r, example_store).
Proof.
  assert (H1 : 1 ≤ 1) by lia.
  assert (Hv : valid example_store) by (apply validb_sound; vm_compute; reflexivity).
  assert (Ha : contents example_store !! 1%positive = Some ([1; 2; 3], 3))
    by (vm_compute; reflexivity).
  assert (Hb : contents example_store !! 2%positive = Some ([2; 3; 4], 4))
    by (vm_compute; reflexivity).
  split; [exact H1|]. split; [exact Hv|]. split; [exact Ha|]. split; [exact Hb|].
  destruct (equal_correct 1 H1 example_store 1 2 [1; 2; 3] [2; 3; 4] 3 4 Hv Ha Hb)
    as ((r & Hrun & _ & _ & Hsym & _) & Hrefl & _).
  split; [exact Hrefl|]. exists r. split; [exact Hrun|exact Hsym].
Defined.

Lemma assign_correct_witness :
  valid example_store ∧
  contents example_store !! 1%positive = Some ([1; 2; 3], 3) ∧
  contents example_store !! 2%positive = Some ([2; 3; 4], 4) ∧
  assign 1 1 example_store = Some (1%positive, example_store) ∧
  ∃ st', assign 1 2 example_store = Some (1%positive, st') ∧
         contents st' = <[1%positive := ([2; 3; 4], 4)]> (contents example_store).
Proof.
  assert (Hv : valid example_store) by (apply validb_sound; vm_compute; reflexivity).
  assert (Ha : contents example_store !! 1%positive = Some ([1; 2; 3], 3))
    by (vm_compute; reflexivity).
  assert (Hb : contents example_store !! 2%positive = Some ([2; 3; 4], 4))
    by (vm_compute; reflexivity).
  split; [exact Hv|]. split; [exact Ha|]. split; [exact Hb|].
  destruct (assign_correct example_store 1 2 [1; 2; 3] [2; 3; 4] 3 4 Hv Ha Hb)
    as (Hself & Hother).
  split; [exact Hself|].
  destruct Hother as (st' & Hrun & _ & Hc & _); [discriminate|].
  exists st'. split; [exact Hrun|exact Hc].
Defined.

(** ** A full set that cannot grow *)








(** ** Runs of the model *)

(** The sets [{1, 2, 3}] and [{2, 3, 4}], from the empty store with
    [DEFAULT_CAPACITY = 1]. *)
Example dump_union :
  ∃ st',
    (do A <- build 1 [1; 2; 3];
     do B <- build 1 [2; 3; 4];
     do U <- unionWith 1 A B;
     DumpData U EmptyString) empty_state = Some ("1  2  3  4", st').
Proof. eexists. vm_compute. reflexivity. Qed.

Example dump_intersect :
  ∃ st',
    (do A <- build 1 [1; 2; 3];
     do B <- build 1 [2; 3; 4];
     do I <- intersect A B;
     DumpData I EmptyString) empty_state = Some ("2  3", st').
Proof. eexists. vm_compute. reflexivity. Qed.

Example dump_subtract :
  ∃ st',
    (do A <- build 1 [1; 2; 3];
     do B <- build 1 [2; 3; 4];
     do S <- subtract A B;
     DumpData S EmptyString) empty_state = Some ("1", st').
Proof. eexists. vm_compute. reflexivity. Qed.

(** Five values into a default set of capacity 4: one reallocation, to
    [int(1.5 * 4) + 1 = 7]. *)
Example grow_once :
  ∃ st',
    (do s <- build 4 [1; 2; 3; 4; 5];
     do o <- get_obj s;
     ret (capacity o, used o)) empty_state = Some ((7, 5), st').
Proof. eexists. vm_compute. reflexivity. Qed.

(** Negative values print with their sign; an empty set prints nothing. *)
Example dump_negative :
  ∃ st',
    (do s <- build 1 [-5; 0; 12]; DumpData s EmptyString) empty_state
    = Some ("-5  0  12", st').
Proof. eexists. vm_compute. reflexivity. Qed.

Example dump_empty :
  ∃ st',
    (do s <- IntSet_ctor 1 0; DumpData s EmptyString) empty_state
    = Some (EmptyString, st').
Proof. eexists. vm_compute. reflexivity. Qed.

(** A cell beyond [used] is never initialised: reading it is an error of
    the model, and no method does so on a valid store. *)
Example uninitialised_read :
  (do s <- IntSet_ctor 4 0; data_at s 0) empty_state = None.
Proof. vm_compute. reflexivity. Qed.

(** The distinctness invariant is what makes [remove] right: its outer loop
    goes on after the shift, so on a store holding 5 twice one call drops
    both occurrences, leaves a stale copy of the last element in the live
    range, and still decrements [used] once. *)
Example remove_on_duplicates :
  validb duplicate_store = false ∧
  ∃ st',
    (remove 1 5;; DumpData 1 EmptyString) duplicate_store = Some ("6  7  7", st').
Proof. split; [vm_compute; reflexivity|]. eexists. vm_compute. reflexivity. Qed.


(** ** The further properties at concrete stores *)

Ltac example_facts :=
  assert (Hv : valid example_store) by (apply validb_sound; vm_compute; reflexivity);
  assert (Ha : contents example_store !! 1%positive = Some ([1; 2; 3], 3))
    by (vm_compute; reflexivity);
  assert (Hb : contents example_store !! 2%positive = Some ([2; 3; 4], 4))
    by (vm_compute; reflexivity).

Lemma queries_never_write_witness :
  ∃ st', contains 1 2 example_store = Some (true, st') ∧ st' = example_store.
Proof.
  destruct (contains 1 2 example_store) as [[r st']|] eqn:Hrun;
    [|vm_compute in Hrun; discriminate].
  assert (r = true) as -> by (vm_compute in Hrun; congruence).
  exists st'. split; [reflexivity|].
  exact (proj1 (proj2 (proj2
           (queries_never_write 1 2 2 EmptyString example_store st'))) true Hrun).
Defined.

Lemma no_leak_witness :
  ∃ st, run_call 1 (Construct 0) empty_state = Some (tt, st) ∧
        reachable 1 st ∧
        (∀ a o, objs st !! a = Some o → is_Some (heap st !! data o)) ∧
        (objs st = ∅ → heap st = ∅).
Proof.
  assert (H1 : 1 ≤ 1) by lia.
  destruct (run_call 1 (Construct 0) empty_state) as [[[] st]|] eqn:Hrun;
    [|vm_compute in Hrun; discriminate].
  assert (Hr : reachable 1 st).
  { exact (reachable_call 1 empty_state (Construct 0) st (reachable_empty 1)
             (Forall_nil_2 _) Hrun). }
  exists st. split; [reflexivity|]. split; [exact Hr|].
  exact (proj2 (no_leak 1 H1 st Hr)).
Defined.

Lemma mutators_in_place_witness :
  ∃ st', remove 1 2 example_store = Some (true, st') ∧ keeps_arrays example_store st'.
Proof.
  destruct (remove 1 2 example_store) as [[r st']|] eqn:Hrun;
    [|vm_compute in Hrun; discriminate].
  assert (r = true) as -> by (vm_compute in Hrun; congruence).
  exists st'. split; [reflexivity|].
  exact (proj1 (mutators_in_place 1 1 2 example_store st') true Hrun).
Defined.

Lemma IntSet_ctor_correct_witness :
  valid example_store ∧
  ∃ r st', IntSet_ctor 1 0 example_store = Some (r, st') ∧
           contents st' = <[r := ([], 1)]> (contents example_store) ∧
           size r st' = Some (0, st').
Proof.
  assert (H1 : 1 ≤ 1) by lia. example_facts. split; [exact Hv|].
  destruct (IntSet_ctor_correct 1 H1 example_store 0 Hv)
    as (r & st' & Hrun & _ & _ & Hc & _ & Hs & _).
  exists r, st'. split; [exact Hrun|]. split; [exact Hc|exact Hs].
Defined.

Lemma reset_correct_witness :
  valid example_store ∧
  contents example_store !! 1%positive = Some ([1; 2; 3], 3) ∧
  ∃ st', reset 1 example_store = Some (tt, st') ∧
         contents st' = <[1%positive := ([], 3)]> (contents example_store) ∧
         isEmpty 1 st' = Some (true, st').
Proof.
  example_facts. split; [exact Hv|]. split; [exact Ha|].
  destruct (reset_correct 1 example_store 1 [1; 2; 3] 3 Hv Ha)
    as (st' & Hrun & _ & Hc & _ & He & _).
  exists st'. split; [exact Hrun|]. split; [exact Hc|exact He].
Defined.

Lemma IntSet_dtor_correct_witness :
  valid example_store ∧
  contents example_store !! 1%positive = Some ([1; 2; 3], 3) ∧
  ∃ st', IntSet_dtor 1 example_store = Some (tt, st') ∧
         contents st' = delete 1%positive (contents example_store).
Proof.
  example_facts. split; [exact Hv|]. split; [exact Ha|].
  destruct (IntSet_dtor_correct example_store 1 [1; 2; 3] 3 Hv Ha)
    as (st' & o & _ & Hrun & _ & Hc & _).
  exists st'. split; [exact Hrun|exact Hc].
Defined.

Lemma membership_after_witness :
  valid example_store ∧
  contents example_store !! 1%positive = Some ([1; 2; 3], 3) ∧
  ∃ cw n, contains 1 7 example_store = Some (cw, example_store) ∧
          size 1 example_store = Some (n, example_store) ∧
          ∃ r st', add 1 1 7 example_store = Some (r, st') ∧
                   contains 1 7 st' = Some (cw || bool_decide (7 = 7), st') ∧
                   size 1 st' = Some (if r then n + 1 else n, st').
Proof.
  example_facts. split; [exact Hv|]. split; [exact Ha|].
  destruct (membership_after 1 example_store 1 [1; 2; 3] 3 7 7 Hv Ha)
    as (cw & n & Hcw & Hn & Hadd & _).
  exists cw, n. split; [exact Hcw|]. split; [exact Hn|].
  apply Hadd. right. right. unfold GROWABLE. lia.
Defined.

Lemma add_remove_round_trip_witness :
  valid example_store ∧
  contents example_store !! 1%positive = Some ([1; 2; 3], 3) ∧
  ∃ st1 st2 cap',
    add 1 1 7 example_store = Some (true, st1) ∧
    remove 1 7 st1 = Some (true, st2) ∧
    contents st2 = <[1%positive := ([1; 2; 3], cap')]> (contents example_store) ∧
    3 ≤ cap'.
Proof.
  example_facts. split; [exact Hv|]. split; [exact Ha|].
  apply (proj1 (add_remove_round_trip 1 example_store 1 [1; 2; 3] 3 7 Hv Ha)).
  - apply (bool_decide_unpack _). vm_compute. exact I.
  - right. unfold GROWABLE. lia.
Defined.

Lemma isSubsetOf_preorder_witness :
  valid example_store ∧
  contents example_store !! 1%positive = Some ([1; 2; 3], 3) ∧
  contents example_store !! 2%positive = Some ([2; 3; 4], 4) ∧
  isSubsetOf 1 1 example_store = Some (true, example_store).
Proof.
  example_facts. split; [exact Hv|]. split; [exact Ha|]. split; [exact Hb|].
  exact (proj1 (isSubsetOf_preorder example_store 1 2 1 [1; 2; 3] [2; 3; 4] [1; 2; 3]
                  3 4 3 Hv Ha Hb Ha)).
Defined.

Lemma equal_equivalence_witness :
  valid permuted_store ∧
  contents permuted_store !! 1%positive = Some ([1; 2; 3], 3) ∧
  contents permuted_store !! 2%positive = Some ([3; 1; 2], 4) ∧
  contents permuted_store !! 3%positive = Some ([2; 3; 1], 3) ∧
  equal 1 2 permuted_store = Some (true, permuted_store) ∧
  equal 2 3 permuted_store = Some (true, permuted_store) ∧
  equal 1 3 permuted_store = Some (true, permuted_store) ∧
  ∃ n, size 1 permuted_store = Some (n, permuted_store) ∧
       size 2 permuted_store = Some (n, permuted_store).
Proof.
  assert (Hv : valid permuted_store) by (apply validb_sound; vm_compute; reflexivity).
  assert (Ha : contents permuted_store !! 1%positive = Some ([1; 2; 3], 3))
    by (vm_compute; reflexivity).
  assert (Hb : contents permuted_store !! 2%positive = Some ([3; 1; 2], 4))
    by (vm_compute; reflexivity).
  assert (Hc : contents permuted_store !! 3%positive = Some ([2; 3; 1], 3))
    by (vm_compute; reflexivity).
  assert (Hab : equal 1 2 permuted_store = Some (true, permuted_store))
    by (vm_compute; reflexivity).
  assert (Hbc : equal 2 3 permuted_store = Some (true, permuted_store))
    by (vm_compute; reflexivity).
  split; [exact Hv|]. split; [exact Ha|]. split; [exact Hb|]. split; [exact Hc|].
  split; [exact Hab|]. split; [exact Hbc|].
  destruct (equal_equivalence permuted_store 1 2 3 [1; 2; 3] [3; 1; 2] [2; 3; 1]
              3 4 3 Hv Ha Hb Hc) as (Htrans & Hsize).
  split; [exact (Htrans Hab Hbc)|exact (Hsize Hab)].
Defined.

Lemma equal_any_order_witness :
  valid example_store ∧ NoDup [5; 6; 7] ∧ [5; 6; 7] ≡ₚ [7; 5; 6] ∧
  ∃ A B st',
    (do A <- build 1 [5; 6; 7]; do B <- build 1 [7; 5; 6]; ret (A, B)) example_store
      = Some ((A, B), st') ∧
    equal A B st' = Some (true, st').
Proof.
  assert (H1 : 1 ≤ 1) by lia. example_facts.
  assert (Hnd : NoDup [5; 6; 7]) by (apply (bool_decide_unpack _); vm_compute; exact I).
  assert (Hp : [5; 6; 7] ≡ₚ [7; 5; 6]).
  { change [7; 5; 6] with ([7] ++ [5; 6]). change [5; 6; 7] with ([5; 6] ++ [7]).
    apply Permutation_app_comm. }
  split; [exact Hv|]. split; [exact Hnd|]. split; [exact Hp|].
  destruct (equal_any_order 1 H1 example_store [5; 6; 7] [7; 5; 6] Hv Hnd Hp)
    as (A & B & st' & Hrun & He & _).
  { apply Z.leb_le. vm_compute. reflexivity. }
  exists A, B, st'. split; [exact Hrun|exact He].
Defined.

Lemma copy_assign_equal_witness :
  valid example_store ∧
  contents example_store !! 1%positive = Some ([1; 2; 3], 3) ∧
  contents example_store !! 2%positive = Some ([2; 3; 4], 4) ∧
  ∃ st1, assign 1 2 example_store = Some (1%positive, st1) ∧
         equal 1 2 st1 = Some (true, st1).
Proof.
  example_facts. split; [exact Hv|]. split; [exact Ha|]. split; [exact Hb|].
  destruct (proj2 (copy_assign_equal example_store 1 2 [1; 2; 3] [2; 3; 4] 3 4 Hv Ha Hb))
    as (st1 & Hrun & He & _); [discriminate|].
  exists st1. split; [exact Hrun|exact He].
Defined.

Lemma derived_subsets_witness :
  valid example_store ∧
  contents example_store !! 1%positive = Some ([1; 2; 3], 3) ∧
  contents example_store !! 2%positive = Some ([2; 3; 4], 4) ∧
  ∃ r st', unionWith 1 1 2 example_store = Some (r, st') ∧
           isSubsetOf 1 r st' = Some (true, st') ∧
           isSubsetOf 2 r st' = Some (true, st').
Proof.
  example_facts. split; [exact Hv|]. split; [exact Ha|]. split; [exact Hb|].
  apply (proj1 (derived_subsets 1 example_store 1 2 [1; 2; 3] [2; 3; 4] 3 4 Hv Ha Hb)).
  apply Z.leb_le. vm_compute. reflexivity.
Defined.

Lemma union_intersect_commute_witness :
  valid example_store ∧
  contents example_store !! 1%positive = Some ([1; 2; 3], 3) ∧
  contents example_store !! 2%positive = Some ([2; 3; 4], 4) ∧
  ∃ r1 r2 st',
    (do r1 <- unionWith 1 1 2; do r2 <- unionWith 1 2 1; ret (r1, r2)) example_store
      = Some ((r1, r2), st') ∧
    equal r1 r2 st' = Some (true, st').
Proof.
  example_facts. split; [exact Hv|]. split; [exact Ha|]. split; [exact Hb|].
  apply (proj1 (union_intersect_commute 1 example_store 1 2 [1; 2; 3] [2; 3; 4] 3 4
                  Hv Ha Hb)).
  apply Z.leb_le. vm_compute. reflexivity.
Defined.

Lemma self_and_empty_witness :
  valid empty_operand_store ∧
  contents empty_operand_store !! 1%positive = Some ([1; 2; 3], 3) ∧
  contents empty_operand_store !! 2%positive = Some ([], 4) ∧
  (∃ r st', subtract 1 1 empty_operand_store = Some (r, st') ∧
            isEmpty r st' = Some (true, st')) ∧
  (∃ r st' c, unionWith 1 2 1 empty_operand_store = Some (r, st') ∧
              contents st' !! r = Some ([1; 2; 3], c)).
Proof.
  assert (Hv : valid empty_operand_store)
    by (apply validb_sound; vm_compute; reflexivity).
  assert (Ha : contents empty_operand_store !! 1%positive = Some ([1; 2; 3], 3))
    by (vm_compute; reflexivity).
  assert (Hb : contents empty_operand_store !! 2%positive = Some ([], 4))
    by (vm_compute; reflexivity).
  split; [exact Hv|]. split; [exact Ha|]. split; [exact Hb|].
  destruct (self_and_empty 1 empty_operand_store 1 2 [1; 2; 3] [] 3 4 Hv Ha Hb)
    as (_ & _ & Hs & He).
  split; [exact Hs|]. apply (proj1 (proj2 (He eq_refl))).
  apply Z.leb_le. vm_compute. reflexivity.
Defined.


Lemma build_with_duplicates_witness :
  valid example_store ∧
  ∃ a st', build 1 [5; 6; 5; 7; 6] example_store = Some (a, st') ∧
           size a st' = Some (3, st').
Proof.
  assert (H1 : 1 ≤ 1) by lia. example_facts. split; [exact Hv|].
  destruct (build_with_duplicates 1 H1 example_store [5; 6; 5; 7; 6] Hv)
    as (a & st' & Hrun & _ & _ & Hs).
  { apply Z.leb_le. vm_compute. reflexivity. }
  exists a, st'. split; [exact Hrun|exact Hs].
Defined.

Lemma build_capacity_witness :
  valid example_store ∧
  ∃ a st' l cap, build 1 [5; 6; 5; 7; 6] example_store = Some (a, st') ∧
                 contents st' !! a = Some (l, cap) ∧
                 Z.of_nat (length l) ≤ cap ∧
                 cap ≤ Z.max 1 (3 * (Z.of_nat (length l) - 1) / 2 + 1).
Proof.
  assert (H1 : 1 ≤ 1) by lia. example_facts. split; [exact Hv|].
  apply (build_capacity 1 H1 example_store [5; 6; 5; 7; 6] Hv).
  apply Z.leb_le. vm_compute. reflexivity.
Defined.

Lemma dump_after_add_witness :
  valid example_store ∧
  contents example_store !! 1%positive = Some ([1; 2; 3], 3) ∧
  ∃ r st', add 1 1 7 example_store = Some (r, st') ∧
           DumpData 1 EmptyString st' = Some ("1  2  3  7", st').
Proof.
  example_facts. split; [exact Hv|]. split; [exact Ha|].
  apply (dump_after_add 1 example_store 1 [1; 2; 3] 3 7 EmptyString Hv Ha).
  right. right. unfold GROWABLE. lia.
Defined.

Lemma results_independent_witness :
  valid example_store ∧
  contents example_store !! 1%positive = Some ([1; 2; 3], 3) ∧
  contents example_store !! 2%positive = Some ([2; 3; 4], 4) ∧
  ∃ r st1, intersect 1 2 example_store = Some (r, st1) ∧
    ∃ st2, mutate 1 r [Madd 9; Mremove 2] st1 = Some (tt, st2) ∧
           contents st2 !! 1%positive = Some ([1; 2; 3], 3) ∧
           contents st2 !! 2%positive = Some ([2; 3; 4], 4).
Proof.
  example_facts. split; [exact Hv|]. split; [exact Ha|]. split; [exact Hb|].
  apply (proj2 (proj2
    (results_independent 1 example_store 1 2 [1; 2; 3] [2; 3; 4] 3 4
       [Madd 9; Mremove 2] Hv Ha Hb))).
  apply Z.leb_le. vm_compute. reflexivity.
Defined.
